(** * MA-crossover backtester: a shallow embedding of [src/strategy.py] and
    [src/backtester.py], and the properties of the specification proved
    (or refuted) on it.

    Numbers.  The program computes on Python ints and floats.  On ints its
    arithmetic is exact, and the embedding computes on exact rationals [Q],
    compared with [==].  A result that the program would report as NaN or
    as an infinity is kept apart from the rationals (see [xval]).  On
    floats every operation rounds: module [Double] has the loop of [run] on
    binary64 numbers, for the properties that rounding decides.

    Effects.  A [Backtester] object is mutable: [run] appends to
    [self.trades] and stores the two result series.  Methods are therefore
    computations in a state-and-exception monad [M] over the object; a
    Python exception leaves the mutations done so far in place, as [Raise]
    does here. *)

From Stdlib Require Import List ZArith QArith Qround Qminmax String Bool Lia Lqa.
From Stdlib Require Import Reals Qreals Lra.
From Stdlib Require PrimFloat SpecFloat FloatOps.
Import ListNotations.

Local Open Scope Z_scope.
Local Open Scope Q_scope.

(* ===================================================================== *)
(** ** Time-indexed series (pandas [Series]) *)
(* ===================================================================== *)

(** A label of the index; the tests use consecutive days. *)
Definition timestamp := Z.

(** A series is the ordered list of its (label, value) pairs. *)
Definition Series (A : Type) := list (timestamp * A).

Definition index {A} (s : Series A) : list timestamp := map fst s.
Definition values {A} (s : Series A) : list A := map snd s.

(** [pd.Series(vals, index=idx)]. *)
Definition mkSeries {A} (vals : list A) (idx : list timestamp) : Series A :=
  combine idx vals.

(** [a.index.equals(b.index)]: same labels in the same order. *)
Fixpoint index_equals (a b : list timestamp) : bool :=
  match a, b with
  | [], [] => true
  | x :: a', y :: b' => (x =? y)%Z && index_equals a' b'
  | _, _ => false
  end.

(** [s.loc[d]]: every value carried by label [d].  pandas returns a scalar
    when there is exactly one, a sub-series when there are several, and
    raises [KeyError] when there is none. *)
Definition loc {A} (s : Series A) (d : timestamp) : list A :=
  map snd (filter (fun e => (fst e =? d)%Z) s).

(* ===================================================================== *)
(** ** Exceptions and the object monad *)
(* ===================================================================== *)

Inductive exn : Type :=
| ValueError (msg : string)
| ZeroDivisionError
| KeyError
| IndexError.

Inductive outcome (A : Type) : Type :=
| Ok (a : A)
| Raise (e : exn).
Arguments Ok {A} a.
Arguments Raise {A} e.

(** The error kinds of the specification (section 7).  The program raises
    [ValueError] for all three; the kind is told by the raise site, which
    the message identifies. *)
Inductive error_kind : Type := InvalidParameter | MisalignedSeries | NotReady.

Definition msg_capital : string := "Initial capital must be greater than 0".
Definition msg_period : string := "Moving average period must be at least 1".
Definition msg_rate : string := "Risk-free rate cannot be negative".
Definition msg_not_run : string := "Backtest must be run before calculating metrics".
Definition msg_run_length : string := "Price and signal series must have the same length".
Definition msg_run_index : string := "Price and signal series must have the same index".
Definition msg_ma_length : string := "Fast and slow MA series must have the same length".
Definition msg_ma_index : string := "Fast and slow MA series must have the same index".
(** Raised by pandas when a sub-series is used as a condition. *)
Definition msg_ambiguous : string := "The truth value of a Series is ambiguous.".

Definition kind_of (e : exn) : option error_kind :=
  match e with
  | ValueError m =>
      if ((m =? msg_capital) || (m =? msg_period) || (m =? msg_rate))%string
      then Some InvalidParameter
      else if ((m =? msg_run_length) || (m =? msg_run_index)
               || (m =? msg_ma_length) || (m =? msg_ma_index))%string
      then Some MisalignedSeries
      else if (m =? msg_not_run)%string then Some NotReady
      else None
  | _ => None
  end.

(** One entry of [self.trades]: the dict
    [{'date': .., 'type': .., 'price': .., 'shares': ..}]. *)
Inductive side : Type := buy | sell.

Record Trade : Type := mkTrade {
  t_date : timestamp;
  t_type : side;
  t_price : Q;
  t_shares : Q
}.

(** The attributes of a [Backtester] instance. *)
Record Backtester : Type := mkBacktester {
  initial_capital : Q;
  positions : option (Series Z);
  portfolio_value : option (Series Q);
  trades : list Trade
}.

Definition M (A : Type) : Type := Backtester -> outcome A * Backtester.

Definition ret {A} (a : A) : M A := fun b => (Ok a, b).

Definition bind {A B} (m : M A) (k : A -> M B) : M B :=
  fun b => match m b with
           | (Ok a, b') => k a b'
           | (Raise e, b') => (Raise e, b')
           end.

Definition raise {A} (e : exn) : M A := fun b => (Raise e, b).
Definition get : M Backtester := fun b => (Ok b, b).

Notation "x <- m ;; k" := (bind m (fun x => k))
  (at level 61, m at next level, right associativity).
Notation "m ;;; k" := (bind m (fun _ => k))
  (at level 61, right associativity).

(* ===================================================================== *)
(** ** [Backtester.__init__] and [Backtester.run] *)
(* ===================================================================== *)

(** [Backtester(initial_capital)]. *)
Definition init (capital : Q) : outcome Backtester :=
  if Qle_bool capital 0 then Raise (ValueError msg_capital)
  else Ok {| initial_capital := capital;
             positions := None;
             portfolio_value := None;
             trades := [] |}.

(** The local variables of [run]'s loop. *)
Record locals : Type := mkLocals {
  position : Z;            (* 0 = flat, 1 = long *)
  cash : Q;
  shares : Q;
  portfolio_values : list Q;
  positions_l : list Z
}.

(** [self.trades.append(t)]. *)
Definition append_trade (t : Trade) : M unit :=
  fun b => (Ok tt, {| initial_capital := initial_capital b;
                      positions := positions b;
                      portfolio_value := portfolio_value b;
                      trades := trades b ++ [t] |}).

(** [signal = signals.loc[date]], as it is then used in a condition: a
    scalar is needed. *)
Definition loc_scalar (signals : Series Z) (d : timestamp) : M Z :=
  match loc signals d with
  | [] => raise KeyError
  | [signal] => ret signal
  | _ :: _ :: _ => raise (ValueError msg_ambiguous)
  end.

(** [cash // price] on exact numbers: the floor of the quotient, which is
    what Python computes on ints.  On floats the quotient is rounded, see
    [Double.floordiv]. *)
Definition floordiv (a b : Q) : Q := inject_Z (Qfloor (a / b)).

(** The buy and sell branches of the loop body (lines 61-71). *)
Definition trade_step (signal : Z) (d : timestamp) (price : Q) (l : locals)
  : M locals :=
  if ((signal =? 1)%Z && (position l =? 0)%Z)%bool then
    if Qeq_bool price 0 then raise ZeroDivisionError
    else
      let shares' := floordiv (cash l) price in
      let cash' := cash l - shares' * price in
      append_trade (mkTrade d buy price shares') ;;;
      ret {| position := 1; cash := cash'; shares := shares';
             portfolio_values := portfolio_values l;
             positions_l := positions_l l |}
  else if ((signal =? -1)%Z && (position l =? 1)%Z)%bool then
    let cash' := cash l + shares l * price in
    append_trade (mkTrade d sell price (shares l)) ;;;
    ret {| position := 0; cash := cash'; shares := 0;
           portfolio_values := portfolio_values l;
           positions_l := positions_l l |}
  else ret l.

(** One iteration of [for date, price in prices.items()]. *)
Definition tick (signals : Series Z) (l : locals) (item : timestamp * Q)
  : M locals :=
  let (d, price) := item in
  signal <- loc_scalar signals d ;;
  l1 <- trade_step signal d price l ;;
  ret {| position := position l1; cash := cash l1; shares := shares l1;
         portfolio_values := portfolio_values l1 ++ [cash l1 + shares l1 * price];
         positions_l := positions_l l1 ++ [position l1] |}.

Fixpoint loop (signals : Series Z) (l : locals) (items : list (timestamp * Q))
  : M locals :=
  match items with
  | [] => ret l
  | item :: rest => l' <- tick signals l item ;; loop signals l' rest
  end.

Definition init_locals (capital : Q) : locals :=
  {| position := 0; cash := capital; shares := 0;
     portfolio_values := []; positions_l := [] |}.

(** The dict returned by [run]. *)
Record Result : Type := mkResult {
  r_portfolio_value : Series Q;
  r_positions : Series Z;
  r_trades : list Trade
}.

Definition store_series (ps : Series Z) (pv : Series Q) : M unit :=
  fun b => (Ok tt, {| initial_capital := initial_capital b;
                      positions := Some ps;
                      portfolio_value := Some pv;
                      trades := trades b |}).

Definition run (prices : Series Q) (signals : Series Z) : M Result :=
  if negb (List.length prices =? List.length signals)%nat then
    raise (ValueError msg_run_length)
  else if negb (index_equals (index prices) (index signals)) then
    raise (ValueError msg_run_index)
  else
    self <- get ;;
    l <- loop signals (init_locals (initial_capital self)) prices ;;
    let ps := mkSeries (positions_l l) (index prices) in
    let pv := mkSeries (portfolio_values l) (index prices) in
    store_series ps pv ;;;
    self' <- get ;;
    ret {| r_portfolio_value := pv; r_positions := ps;
           r_trades := trades self' |}.

(* ===================================================================== *)
(** ** [strategy.py]: moving averages and crossover signals *)
(* ===================================================================== *)

Fixpoint Qsum (xs : list Q) : Q :=
  match xs with
  | [] => 0
  | x :: r => x + Qsum r
  end.

Definition Qnat (n : nat) : Q := inject_Z (Z.of_nat n).

(** [rolling(window, min_periods=1).mean()], as pandas' [roll_mean]
    computes it over the fixed windows [start, end) with
    [start = max(0, i + 1 - window)] and [end = i + 1]: a running sum
    [sum_x] and an observation count [nobs].  The first window, and every
    window that shares nothing with the one before, is summed afresh;
    otherwise the observations that left the window are removed, then the
    new one is added.  With [min_periods = 1] every index gets a value. *)
Fixpoint roll_mean (window : nat) (data : list Q) (i : nat)
                   (sum_x : Q) (nobs : nat) (rest : list Q) : list Q :=
  match rest with
  | [] => []
  | x :: rest' =>
      let fresh_window := ((i =? 0) || (window <=? 1))%nat in
      let leaving := (window <=? i)%nat in
      let sum1 := if leaving then sum_x - nth (i - window) data 0 else sum_x in
      let nobs1 := if leaving then pred nobs else nobs in
      let sum2 := if fresh_window then x else sum1 + x in
      let nobs2 := if fresh_window then 1%nat else S nobs1 in
      (sum2 / Qnat nobs2) :: roll_mean window data (S i) sum2 nobs2 rest'
  end.

Definition calculate_sma (prices : Series Q) (period : Z)
  : outcome (Series Q) :=
  if (period <? 1)%Z then Raise (ValueError msg_period)
  else Ok (mkSeries (roll_mean (Z.to_nat period) (values prices) 0 0 0
                               (values prices))
                    (index prices)).

(** [ewm(span=period, adjust=False).mean()]: [y0 = x0],
    [y_t = (1 - alpha) y_(t-1) + alpha x_t] with [alpha = 2 / (span + 1)]. *)
Fixpoint ewm_from (alpha prev : Q) (xs : list Q) : list Q :=
  match xs with
  | [] => []
  | x :: r => let y := (1 - alpha) * prev + alpha * x in
              y :: ewm_from alpha y r
  end.

Definition ewm_mean (span : Z) (xs : list Q) : list Q :=
  match xs with
  | [] => []
  | x :: r => x :: ewm_from (2 / (inject_Z span + 1)) x r
  end.

Definition calculate_ema (prices : Series Q) (period : Z)
  : outcome (Series Q) :=
  if (period <? 1)%Z then Raise (ValueError msg_period)
  else Ok (mkSeries (ewm_mean period (values prices)) (index prices)).

(** [s.shift(1)]: every value moves one place down, the first place is
    NaN ([None]), the last value is dropped. *)
Definition shift1 {A} (xs : list A) : list (option A) :=
  firstn (List.length xs) (None :: map Some xs).

(** Element-wise [a - b] of two series with equal indexes. *)
Definition series_sub (a b : list Q) : list Q :=
  map (fun p : Q * Q => fst p - snd p) (combine a b).

(** Comparisons with NaN are false. *)
Definition le0 (x : option Q) : bool :=
  match x with Some q => Qle_bool q 0 | None => false end.
Definition ge0 (x : option Q) : bool :=
  match x with Some q => Qle_bool 0 q | None => false end.
Definition gt0 (q : Q) : bool := negb (Qle_bool q 0).
Definition lt0 (q : Q) : bool := negb (Qle_bool 0 q).

(** [signals[mask] = v]. *)
Definition mask_set (mask : list bool) (v : Z) (signals : list Z) : list Z :=
  map (fun p : bool * Z => if fst p then v else snd p) (combine mask signals).

Definition mask_and (a b : list bool) : list bool :=
  map (fun p : bool * bool => fst p && snd p) (combine a b).

Definition generate_signals (fast_ma slow_ma : Series Q)
  : outcome (Series Z) :=
  if negb (List.length fast_ma =? List.length slow_ma)%nat then
    Raise (ValueError msg_ma_length)
  else if negb (index_equals (index fast_ma) (index slow_ma)) then
    Raise (ValueError msg_ma_index)
  else
    let diff := series_sub (values fast_ma) (values slow_ma) in
    let prev_diff := shift1 diff in
    let signals := map (fun _ => 0%Z) (index fast_ma) in
    let signals := mask_set (mask_and (map le0 prev_diff) (map gt0 diff))
                            1%Z signals in
    let signals := mask_set (mask_and (map ge0 prev_diff) (map lt0 diff))
                            (-1)%Z signals in
    Ok (mkSeries signals (index fast_ma)).

(* ===================================================================== *)
(** ** [Backtester.calculate_metrics] *)
(* ===================================================================== *)

(** A float as the metrics see it: a number, NaN, or an infinity (a nonzero
    number divided by zero; its sign is not tracked). *)
Inductive xval : Type :=
| Fin (q : Q)
| NaN
| Inf.

(** [a / b] on floats, where [b] may be the NaN that [shift] introduced. *)
Definition xdiv (a : Q) (b : option Q) : xval :=
  match b with
  | None => NaN
  | Some b => if Qeq_bool b 0
              then (if Qeq_bool a 0 then NaN else Inf)
              else Fin (a / b)
  end.

Definition xsub (x : xval) (c : Q) : xval :=
  match x with Fin q => Fin (q - c) | _ => x end.

(** [v.pct_change()], which is [v / v.shift(1) - 1]. *)
Definition pct_change (v : list Q) : list xval :=
  map (fun p : Q * option Q => xsub (xdiv (fst p) (snd p)) 1)
      (combine v (shift1 v)).

(** [.fillna(0)]. *)
Definition fillna0 (x : xval) : xval :=
  match x with NaN => Fin 0 | _ => x end.

(** The numbers of a float list, when all of it is finite. *)
Fixpoint all_finite (xs : list xval) : option (list Q) :=
  match xs with
  | [] => Some []
  | Fin q :: r => option_map (cons q) (all_finite r)
  | _ :: _ => None
  end.

(** [.mean()]: NaN ([None]) on an empty series.  The sum is exact here;
    pandas adds doubles, so its mean can differ from this one in the last
    bits (and be just off zero where this one is zero). *)
Definition mean (xs : list Q) : option Q :=
  match xs with
  | [] => None
  | _ => Some (Qsum xs / Qnat (List.length xs))
  end.

(** The square of [.std()] (one delta degree of freedom): NaN on fewer
    than two observations. *)
Definition variance (xs : list Q) : option Q :=
  match mean xs with
  | None => None
  | Some m =>
      if (List.length xs <=? 1)%nat then None
      else Some (Qsum (map (fun x => (x - m) * (x - m)) xs)
                 / Qnat (List.length xs - 1))
  end.

Definition epsilon : Q := 1 # 1000000000.

(** [np.sqrt(252) * excess.mean() / (excess.std() + 1e-9)]; [None] when
    the program's value is NaN or infinite. *)
Definition sharpe_of (excess : list xval) : option R :=
  match all_finite excess with
  | None => None
  | Some xs =>
      match mean xs, variance xs with
      | Some m, Some v =>
          Some (sqrt 252 * Q2R m / (sqrt (Q2R v) + Q2R epsilon))%R
      | _, _ => None
      end
  end.

(** [v.cummax()]. *)
Fixpoint cummax_from (m : Q) (v : list Q) : list Q :=
  match v with
  | [] => []
  | x :: r => let m' := Qmax m x in m' :: cummax_from m' r
  end.

Definition cummax (v : list Q) : list Q :=
  match v with
  | [] => []
  | x :: r => x :: cummax_from x r
  end.

(** [(v - cummax) / cummax], element-wise. *)
Definition drawdown (v : list Q) : list xval :=
  map (fun p : Q * Q => xdiv (fst p - snd p) (Some (snd p)))
      (combine v (cummax v)).

(** [.min()]: NaN entries are skipped; NaN when nothing is left.  The only
    infinity a drawdown can be is the negative one, which is then the
    minimum. *)
Fixpoint xmin (xs : list xval) : xval :=
  match xs with
  | [] => NaN
  | x :: r =>
      match x, xmin r with
      | NaN, m => m
      | Inf, _ => Inf
      | Fin _, Inf => Inf
      | Fin q, NaN => Fin q
      | Fin q, Fin m => Fin (Qmin q m)
      end
  end.

(** [range(1, n, 2)]. *)
Definition range_odd (n : nat) : list nat :=
  map (fun k => (2 * k + 1)%nat) (seq 0 (n / 2)).

(** The body of the win-rate loop (lines 120-127), on the counters
    [(wins, total_trades)]. *)
Definition pair_step (trades : list Trade) (acc : Z * Z) (i : nat) : Z * Z :=
  match nth_error trades (i - 1), nth_error trades i with
  | Some buy_t, Some sell_t =>
      match t_type buy_t, t_type sell_t with
      | buy, sell =>
          let profit := (t_price sell_t - t_price buy_t) * t_shares buy_t in
          let wins := if gt0 profit then (fst acc + 1)%Z else fst acc in
          (wins, (snd acc + 1)%Z)
      | _, _ => acc
      end
  | _, _ => acc
  end.

Definition count_trades (trades : list Trade) : Z * Z :=
  fold_left (pair_step trades) (range_odd (List.length trades)) (0%Z, 0%Z).

(** [wins / total_trades if total_trades > 0 else 0.0]. *)
Definition win_rate_of (wins total : Z) : Q :=
  if (total >? 0)%Z then inject_Z wins / inject_Z total else 0.

(** The dict returned by [calculate_metrics]. *)
Record Metrics : Type := mkMetrics {
  final_value : Q;
  sharpe_ratio : option R;
  max_drawdown : xval;
  win_rate : Q;
  total_trades : Z
}.

Definition calculate_metrics (risk_free_rate : Q) : M Metrics :=
  self <- get ;;
  match portfolio_value self, trades self with
  | None, _ | _, [] => raise (ValueError msg_not_run)
  | Some pv, _ :: _ =>
      if lt0 risk_free_rate then raise (ValueError msg_rate)
      else
        let v := values pv in
        let returns := map fillna0 (pct_change v) in
        let excess_returns :=
          map (fun x => xsub x (risk_free_rate / 252)) returns in
        let counts := count_trades (trades self) in
        match rev v with
        | [] => raise IndexError           (* [.iloc[-1]] of an empty series *)
        | last_value :: _ =>
            ret {| final_value := last_value;
                   sharpe_ratio := sharpe_of excess_returns;
                   max_drawdown := xmin (drawdown v);
                   win_rate := win_rate_of (fst counts) (snd counts);
                   total_trades := snd counts |}
        end
  end.

(* ===================================================================== *)
(** ** The vocabulary of the statements *)
(* ===================================================================== *)

(** *** The loop of [run], step by step *)

(** What a tick that did not raise has done: exactly one of the three
    branches of the loop body. *)
Inductive tick_case (d : timestamp) (price : Q) (l : locals) (b : Backtester)
  : locals -> Backtester -> Prop :=
| tick_buy :
    position l = 0%Z -> ~ price == 0 ->
    tick_case d price l b
      {| position := 1; cash := cash l - floordiv (cash l) price * price;
         shares := floordiv (cash l) price;
         portfolio_values := portfolio_values l;
         positions_l := positions_l l |}
      {| initial_capital := initial_capital b; positions := positions b;
         portfolio_value := portfolio_value b;
         trades := trades b
                   ++ [mkTrade d buy price (floordiv (cash l) price)] |}
| tick_sell :
    position l = 1%Z ->
    tick_case d price l b
      {| position := 0; cash := cash l + shares l * price; shares := 0;
         portfolio_values := portfolio_values l;
         positions_l := positions_l l |}
      {| initial_capital := initial_capital b; positions := positions b;
         portfolio_value := portfolio_value b;
         trades := trades b ++ [mkTrade d sell price (shares l)] |}
| tick_hold : tick_case d price l b l b.

(** The record a tick leaves: the state of [trade_step] plus one entry in
    each output list. *)
Definition record_tick (price : Q) (l1 : locals) : locals :=
  {| position := position l1; cash := cash l1; shares := shares l1;
     portfolio_values := portfolio_values l1 ++ [cash l1 + shares l1 * price];
     positions_l := positions_l l1 ++ [position l1] |}.

(** *** The account invariant *)

Definition whole (q : Q) : Prop := exists z : Z, q == inject_Z z.

Record account_ok (l : locals) : Prop := mkAccountOk {
  ok_position : position l = 0%Z \/ position l = 1%Z;
  ok_cash : 0 <= cash l;
  ok_shares : 0 <= shares l;
  ok_flat : position l = 0%Z -> shares l == 0
}.

(** *** The trade log *)

Definition flip (s : side) : side :=
  match s with buy => sell | sell => buy end.

Definition side_eqb (a b : side) : bool :=
  match a, b with
  | buy, buy | sell, sell => true
  | _, _ => false
  end.

(** The log reads [expect], [flip expect], [expect], ... *)
Fixpoint alternates (expect : side) (log : list Trade) : bool :=
  match log with
  | [] => true
  | t :: r => side_eqb (t_type t) expect && alternates (flip expect) r
  end.

(** The log alternates from Buy and the position flag says which side
    comes next. *)
Definition log_ok (l : locals) (b : Backtester) : Prop :=
  alternates buy (trades b) = true /\
  position l = if Nat.even (List.length (trades b)) then 0%Z else 1%Z.

(** *** [run] as a whole *)

Definition aligned {A B} (a : Series A) (b : Series B) : Prop :=
  List.length a = List.length b /\ index a = index b.

(** Past its two checks, [run] is the loop followed by the two stores. *)
Definition finish_run (prices : Series Q) (l : locals) (b1 : Backtester)
  : outcome Result * Backtester :=
  let ps := mkSeries (positions_l l) (index prices) in
  let pv := mkSeries (portfolio_values l) (index prices) in
  (Ok {| r_portfolio_value := pv; r_positions := ps; r_trades := trades b1 |},
   {| initial_capital := initial_capital b1; positions := Some ps;
      portfolio_value := Some pv; trades := trades b1 |}).

(** A simulator as the constructor leaves it. *)
Definition fresh (capital : Q) : Backtester :=
  {| initial_capital := capital; positions := None;
     portfolio_value := None; trades := [] |}.

(** *** The scenario of [tests/test_backtester.py] *)

(** Five consecutive days, a Buy on the second and a Sell on the fourth. *)
Definition scenario_prices : Series Q :=
  [(1%Z, 10); (2%Z, 12); (3%Z, 14); (4%Z, 13); (5%Z, 11)].
Definition scenario_signals : Series Z :=
  [(1, 0); (2, 1); (3, 0); (4, -1); (5, 0)]%Z.

(** What the run returns on it, and the simulator it leaves. *)
Definition scenario_trades : list Trade :=
  [mkTrade 2%Z buy 12 8; mkTrade 4%Z sell 13 8].
Definition scenario_values : Series Q :=
  [(1%Z, 100); (2%Z, 100); (3%Z, 116); (4%Z, 108); (5%Z, 108)].
Definition scenario_positions : Series Z :=
  [(1, 0); (2, 1); (3, 1); (4, 0); (5, 0)]%Z.
Definition scenario_result : Result :=
  {| r_portfolio_value := scenario_values;
     r_positions := scenario_positions;
     r_trades := scenario_trades |}.
Definition scenario_after : Backtester :=
  {| initial_capital := 100;
     positions := Some scenario_positions;
     portfolio_value := Some scenario_values;
     trades := scenario_trades |}.

(** *** The metrics *)

(** The metrics of a simulator that is ready, for an admissible rate. *)
Definition metrics_of (risk_free_rate : Q) (v : list Q) (log : list Trade)
                      (last_value : Q) : Metrics :=
  {| final_value := last_value;
     sharpe_ratio :=
       sharpe_of (map (fun x => xsub x (risk_free_rate / 252))
                      (map fillna0 (pct_change v)));
     max_drawdown := xmin (drawdown v);
     win_rate := win_rate_of (fst (count_trades log)) (snd (count_trades log));
     total_trades := snd (count_trades log) |}.

(** *** Rejected parameters *)

(** The first guard of [calculate_metrics]: a run has stored a value
    series and the trade log is not empty. *)
Definition is_ready (b : Backtester) : bool :=
  match portfolio_value b, trades b with
  | Some _, _ :: _ => true
  | _, _ => false
  end.

(** *** Win rate: pairing the trade log *)

(** The pairing of the specification: (trade 0, trade 1), (trade 2,
    trade 3), ...; a trailing single trade is left out. *)
Fixpoint pairs (log : list Trade) : list (Trade * Trade) :=
  match log with
  | t1 :: t2 :: rest => (t1, t2) :: pairs rest
  | _ => []
  end.

(** A pair is a round trip when it reads Buy then Sell. *)
Definition is_round_trip (p : Trade * Trade) : bool :=
  side_eqb (t_type (fst p)) buy && side_eqb (t_type (snd p)) sell.

Definition profit_of (p : Trade * Trade) : Q :=
  (t_price (snd p) - t_price (fst p)) * t_shares (fst p).

Definition is_win (p : Trade * Trade) : bool := gt0 (profit_of p).

Definition round_trips (log : list Trade) : list (Trade * Trade) :=
  filter is_round_trip (pairs log).

Definition winning_trips (log : list Trade) : list (Trade * Trade) :=
  filter is_win (round_trips log).

(** The loop body on a pair that is already at hand. *)
Definition pair_acc (acc : Z * Z) (p : Trade * Trade) : Z * Z :=
  if is_round_trip p
  then ((if is_win p then fst acc + 1 else fst acc)%Z, (snd acc + 1)%Z)
  else acc.

(** *** Maximum drawdown *)

(** Each value is at most the next one. *)
Fixpoint nondecreasing (v : list Q) : Prop :=
  match v with
  | x :: (y :: _) as r => x <= y /\ nondecreasing r
  | _ => True
  end.

(** The drawdowns of [v] against a running peak that starts at [m]. *)
Definition drawdown_from (m : Q) (v : list Q) : list xval :=
  map (fun p : Q * Q => xdiv (fst p - snd p) (Some (snd p)))
      (combine v (cummax_from m v)).

(** *** Crossover signals *)

(** [diff[i] = fast[i] - slow[i]], where both exist. *)
Definition diff_at (fast slow : Series Q) (i : nat) : option Q :=
  match nth_error (values fast) i, nth_error (values slow) i with
  | Some f, Some s => Some (f - s)
  | _, _ => None
  end.

(** The fast average crosses above the slow one at [i]. *)
Definition crosses_up (fast slow : Series Q) (i : nat) : Prop :=
  exists j p c, i = S j /\ diff_at fast slow j = Some p /\
                diff_at fast slow i = Some c /\ p <= 0 /\ 0 < c.

Definition crosses_down (fast slow : Series Q) (i : nat) : Prop :=
  exists j p c, i = S j /\ diff_at fast slow j = Some p /\
                diff_at fast slow i = Some c /\ 0 <= p /\ c < 0.

(** The value the two masked assignments leave at one place. *)
Definition signal_at (prev : option Q) (cur : Q) : Z :=
  if ge0 prev && lt0 cur then (-1)%Z
  else if le0 prev && gt0 cur then 1%Z
  else 0%Z.

(** *** Simple moving average *)

(** [prices[max(0, i - p + 1) .. i]], both ends included: the window of the
    specification. *)
Definition window (p : Z) (xs : list Q) (i : nat) : list Q :=
  let lo := Z.to_nat (Z.max 0 (Z.of_nat i - p + 1)) in
  firstn (i + 1 - lo) (skipn lo xs).

Definition window_mean (p : Z) (xs : list Q) (i : nat) : Q :=
  Qsum (window p xs i) / Qnat (List.length (window p xs i)).

(** [xs[lo .. hi - 1]]. *)
Definition seg (lo hi : nat) (xs : list Q) : list Q :=
  firstn (hi - lo) (skipn lo xs).

(* ===================================================================== *)
(** ** Further vocabulary: outcomes, ledgers, returns and averages *)
(* ===================================================================== *)

(** [b'] is [b] with [new] appended to the trade log and nothing else
    touched. *)
Definition extends (b b' : Backtester) (new : list Trade) : Prop :=
  initial_capital b' = initial_capital b /\
  positions b' = positions b /\
  portfolio_value b' = portfolio_value b /\
  trades b' = trades b ++ new.

(** Why the loop can raise [e] over [items]: a label without a signal, a
    label with several signals, or a Buy in state Flat at price zero. *)
Definition raise_reason (signals : Series Z) (items : list (timestamp * Q))
                        (e : exn) : Prop :=
  (e = KeyError /\
   exists d p, In (d, p) items /\ loc signals d = []) \/
  (e = ValueError msg_ambiguous /\
   exists d p, In (d, p) items /\ (2 <= List.length (loc signals d))%nat) \/
  (e = ZeroDivisionError /\
   exists d p, In (d, p) items /\ p == 0 /\ loc signals d = [1%Z]).

(** [b] with the log of [bz] appended to its own. *)
Definition graft (b bz : Backtester) : Backtester :=
  {| initial_capital := initial_capital b;
     positions := positions b;
     portfolio_value := portfolio_value b;
     trades := trades b ++ trades bz |}.

(** Flat means no shares, and the flag is 0 or 1: kept by every tick,
    whatever the prices. *)
Definition flat_ok (l : locals) : Prop :=
  (position l = 0%Z \/ position l = 1%Z) /\
  (position l = 0%Z -> shares l == 0).

(** [a] is [b] with some entries left out. *)
Inductive subseq {A : Type} : list A -> list A -> Prop :=
| subseq_nil : subseq [] []
| subseq_take x a b : subseq a b -> subseq (x :: a) (x :: b)
| subseq_skip x a b : subseq a b -> subseq a (x :: b).

(** When and at what price a trade was made. *)
Definition trade_key (t : Trade) : timestamp * Q := (t_date t, t_price t).

(** The profit of all pairs of the log, as [calculate_metrics] computes
    the profit of a pair. *)
Definition realized (log : list Trade) : Q :=
  Qsum (map profit_of (pairs log)).

(** A pair that opens with a Buy and closes it with a Sell of the same
    shares. *)
Definition closed_pair (pr : Trade * Trade) : Prop :=
  t_type (fst pr) = buy /\ t_type (snd pr) = sell /\
  t_shares (snd pr) = t_shares (fst pr).

(** The books of an account that started with capital [c] and an empty
    log: Flat, the cash is the capital plus the realized profit; Long, the
    last trade is the open Buy, and cash plus cost of the open shares is
    the capital plus the profit realized before it. *)
Definition ledger_ok (c : Q) (l : locals) (b : Backtester) : Prop :=
  (position l = 0%Z /\ shares l == 0 /\
   Nat.even (List.length (trades b)) = true /\
   Forall closed_pair (pairs (trades b)) /\
   cash l == c + realized (trades b)) \/
  (position l = 1%Z /\
   exists log0 t,
     trades b = log0 ++ [t] /\
     Nat.even (List.length log0) = true /\
     Forall closed_pair (pairs log0) /\
     t_type t = buy /\ t_shares t = shares l /\
     cash l + shares l * t_price t == c + realized log0).

(** The relative change from [y] to [x]. *)
Definition rel_change (y x : Q) : Q := (x - y) / y.

(** The period returns after a value [prev]: [x / prev - 1], then on from
    [x]. *)
Fixpoint returns_from (prev : Q) (v : list Q) : list Q :=
  match v with
  | [] => []
  | x :: r => (x / prev - 1) :: returns_from x r
  end.

(** [r[0] = 0] and [r[t] = v[t] / v[t-1] - 1]. *)
Definition simple_returns (v : list Q) : list Q :=
  match v with
  | [] => []
  | x :: r => 0 :: returns_from x r
  end.

(** The smoothing factor of span [p]. *)
Definition alpha_of (p : Z) : Q := 2 / (inject_Z p + 1).

(** The signals with Buy and Sell exchanged. *)
Definition opposite (signals : Series Z) : Series Z :=
  map (fun e : timestamp * Z => (fst e, (- snd e)%Z)) signals.

(** The pair held some shares and sold them above the buy price. *)
Definition sold_higher (pr : Trade * Trade) : bool :=
  gt0 (t_shares (fst pr)) && gt0 (t_price (snd pr) - t_price (fst pr)).

(** A trade of a whole, non-negative number of shares. *)
Definition sound_trade (t : Trade) : Prop :=
  0 <= t_shares t /\ whole (t_shares t).

(* ===================================================================== *)
(** ** The loop of [run] on floats *)
(* ===================================================================== *)

(** Python computes [//], [*], [-] and [+] exactly on ints and with
    rounding on floats.  The definitions above are the exact ones; module
    [Double] is the same loop (lines 52-76) on binary64 numbers, with the
    IEEE 754 operations of the kernel's [PrimFloat]. *)
Module Double.
Import PrimFloat.

(** The double nearest to [m * 2^e]; that number itself when it is a
    double. *)
Definition of_scaled (m e : Z) (negative_zero : bool) : float :=
  FloatOps.SF2Prim
    (SpecFloat.binary_normalize FloatOps.prec FloatOps.emax m e negative_zero).

(** The exact value of a double that is a number. *)
Definition to_Q (x : float) : option Q :=
  match FloatOps.Prim2SF x with
  | SpecFloat.S754_zero _ => Some 0
  | SpecFloat.S754_finite s m e =>
      Some (Qred (inject_Z (if s then Z.neg m else Z.pos m) * Qpower 2 e))
  | _ => None
  end.

(** The same, for a double known to be a number. *)
Definition exact (x : float) : Q :=
  match to_Q x with Some q => q | None => 0 end.

(** C's [floor]: the largest whole number not above [x]. *)
Definition floor (x : float) : float :=
  match FloatOps.Prim2SF x with
  | SpecFloat.S754_finite s m e =>
      if (0 <=? e)%Z then x
      else
        let n := (Z.pos m / 2 ^ (- e))%Z in
        let integral := (Z.pos m mod 2 ^ (- e) =? 0)%Z in
        if s then of_scaled (- (if integral then n else n + 1)) 0 true
        else of_scaled n 0 false
  | _ => x
  end.

(** C's [fmod]: [x - n * y] for the whole number [n] that is [x / y]
    rounded toward zero.  The result is computed without rounding and
    has the sign of [x]. *)
Definition fmod (x y : float) : float :=
  match FloatOps.Prim2SF x, FloatOps.Prim2SF y with
  | SpecFloat.S754_finite sx mx ex, SpecFloat.S754_finite _ my ey =>
      let e := Z.min ex ey in
      let r := ((Z.pos mx * 2 ^ (ex - e)) mod (Z.pos my * 2 ^ (ey - e)))%Z in
      of_scaled (if sx then - r else r) e sx
  | SpecFloat.S754_zero _, SpecFloat.S754_finite _ _ _
  | SpecFloat.S754_zero _, SpecFloat.S754_infinity _
  | SpecFloat.S754_finite _ _ _, SpecFloat.S754_infinity _ => x
  | _, _ => nan
  end.

(** [copysign(0.0, x)]. *)
Definition signed_zero (x : float) : float :=
  if get_sign x then neg_zero else zero.

(** [vx // wx] on Python floats, as CPython's [float_floor_div] computes
    it: the remainder first, then the quotient of what is left, snapped
    to the nearest whole number. *)
Definition floordiv (vx wx : float) : outcome float :=
  if (wx =? 0)%float then Raise ZeroDivisionError
  else
    let rem := fmod vx wx in
    let div := ((vx - rem) / wx)%float in
    let div :=
      if negb (rem =? 0)%float && negb (Bool.eqb (wx <? 0) (rem <? 0))%float
      then (div - 1)%float else div in
    if negb (div =? 0)%float then
      let floordiv := floor div in
      Ok (if (0.5 <? div - floordiv)%float then (floordiv + 1)%float
          else floordiv)
    else Ok (signed_zero (vx / wx)).

(** A whole number, as opposed to a fraction, an infinity or NaN. *)
Definition is_whole (x : float) : bool :=
  is_finite x && (floor x =? x)%float.

Record Trade : Type := mkTrade {
  t_date : timestamp;
  t_type : side;
  t_price : float;
  t_shares : float
}.

Record locals : Type := mkLocals {
  position : Z;
  cash : float;
  shares : float;
  portfolio_values : list float;
  positions_l : list Z
}.

(** The buy and sell branches of the loop body (lines 61-71); [log] is
    [self.trades]. *)
Definition trade_step (signal : Z) (d : timestamp) (price : float)
                      (l : locals) (log : list Trade)
  : outcome locals * list Trade :=
  if ((signal =? 1)%Z && (position l =? 0)%Z)%bool then
    match floordiv (cash l) price with
    | Raise e => (Raise e, log)
    | Ok shares' =>
        let cash' := (cash l - shares' * price)%float in
        (Ok {| position := 1; cash := cash'; shares := shares';
               portfolio_values := portfolio_values l;
               positions_l := positions_l l |},
         log ++ [mkTrade d buy price shares'])
    end
  else if ((signal =? -1)%Z && (position l =? 1)%Z)%bool then
    let cash' := (cash l + shares l * price)%float in
    (Ok {| position := 0; cash := cash'; shares := 0;
           portfolio_values := portfolio_values l;
           positions_l := positions_l l |},
     log ++ [mkTrade d sell price (shares l)])
  else (Ok l, log).

(** One iteration of [for date, price in prices.items()]. *)
Definition tick (signals : Series Z) (l : locals) (item : timestamp * float)
                (log : list Trade) : outcome locals * list Trade :=
  let (d, price) := item in
  match loc signals d with
  | [] => (Raise KeyError, log)
  | [signal] =>
      match trade_step signal d price l log with
      | (Ok l1, log1) =>
          (Ok {| position := position l1; cash := cash l1;
                 shares := shares l1;
                 portfolio_values :=
                   portfolio_values l1
                   ++ [(cash l1 + shares l1 * price)%float];
                 positions_l := positions_l l1 ++ [position l1] |},
           log1)
      | (Raise e, log1) => (Raise e, log1)
      end
  | _ :: _ :: _ => (Raise (ValueError msg_ambiguous), log)
  end.

Fixpoint loop (signals : Series Z) (l : locals)
              (items : list (timestamp * float)) (log : list Trade)
  : outcome locals * list Trade :=
  match items with
  | [] => (Ok l, log)
  | item :: rest =>
      match tick signals l item log with
      | (Ok l', log') => loop signals l' rest log'
      | (Raise e, log') => (Raise e, log')
      end
  end.

Definition init_locals (capital : float) : locals :=
  {| position := 0; cash := capital; shares := 0;
     portfolio_values := []; positions_l := [] |}.

(** [run] on a simulator with capital [capital] and trade log [log]: the
    value and position series it returns, and the log it leaves. *)
Definition run (capital : float) (prices : Series float) (signals : Series Z)
               (log : list Trade)
  : outcome (Series float * Series Z) * list Trade :=
  if negb (List.length prices =? List.length signals)%nat then
    (Raise (ValueError msg_run_length), log)
  else if negb (index_equals (index prices) (index signals)) then
    (Raise (ValueError msg_run_index), log)
  else
    match loop signals (init_locals capital) prices log with
    | (Ok l, log') =>
        (Ok (mkSeries (portfolio_values l) (index prices),
             mkSeries (positions_l l) (index prices)), log')
    | (Raise e, log') => (Raise e, log')
    end.

(** Flat means no shares, and the flag is 0 or 1. *)
Definition account_ok (l : locals) : Prop :=
  (position l = 0%Z \/ position l = 1%Z) /\
  (position l = 0%Z -> shares l = zero).

(** Three pairs of a capital and a price, written as Python's
    [float.hex] prints them: 873473495.0 and 8.82e-08, 234102747597.0 and
    5e-06, 1e308 and 1e-10. *)
Definition capital_8e8 : float := 873473495.
Definition price_8e_8 : float := 0x1.7ad0ecf2252ebp-24.
Definition capital_2e11 : float := 234102747597.
Definition price_5e_6 : float := 0x1.4f8b588e368f1p-18.
Definition capital_1e308 : float := 0x1.1ccf385ebc8ap+1023.
Definition price_1e_10 : float := 0x1.b7cdfd9d7bdbbp-34.

(** The scenario of [tests/test_backtester.py] with a float capital and
    float prices. *)
Definition scenario_capital : float := 100.
Definition scenario_prices : Series float :=
  [(1%Z, 10); (2%Z, 12); (3%Z, 14); (4%Z, 13); (5%Z, 11)]%float.

End Double.

(** Case analysis on membership in a series that is written out; each
    entry is then settled by computation. *)
Ltac each_item H :=
  simpl in H;
  repeat (destruct H as [H|H]; [injection H as <- <-; reflexivity|]);
  destruct H.

(* ===================================================================== *)
(** ** Facts about series and labels *)
(* ===================================================================== *)

Lemma index_equals_eq (a b : list timestamp) :
  index_equals a b = true <-> a = b.
Proof.
  revert b; induction a as [|x a IH]; intros [|y b]; simpl; split;
    try congruence; try reflexivity; intros H.
  - apply andb_true_iff in H as [Hx Hr].
    apply Z.eqb_eq in Hx. apply IH in Hr. congruence.
  - injection H as -> ->. rewrite Z.eqb_refl. simpl. now apply IH.
Qed.

Lemma loc_absent {A} (s : Series A) (d : timestamp) :
  ~ In d (index s) -> loc s d = [].
Proof.
  unfold loc, index.
  induction s as [|[k v] s IH]; simpl; intros Hn; [reflexivity|].
  destruct (Z.eqb_spec k d) as [->|Hkd].
  - exfalso. apply Hn. now left.
  - apply IH. intros Hin. apply Hn. now right.
Qed.

(** With unique labels, [.loc] of a label of the index is a scalar. *)
Lemma loc_unique {A} (s : Series A) (d : timestamp) :
  NoDup (index s) -> In d (index s) -> exists v, loc s d = [v].
Proof.
  induction s as [|[k v] s IH]; intros Hnd Hin; [destruct Hin|].
  unfold index in *. simpl in Hnd, Hin.
  apply NoDup_cons_iff in Hnd as [Hk Hnd].
  unfold loc. simpl.
  destruct (Z.eqb_spec k d) as [->|Hkd].
  - exists v. simpl. f_equal. now apply (loc_absent s d).
  - destruct Hin as [Hin|Hin]; [contradiction|].
    now apply IH.
Qed.

Lemma index_mkSeries {A} (vals : list A) (idx : list timestamp) :
  List.length vals = List.length idx -> index (mkSeries vals idx) = idx.
Proof.
  unfold index, mkSeries. revert vals.
  induction idx as [|d idx IH]; intros [|v vals] H; simpl in *;
    try discriminate; try reflexivity.
  f_equal. apply IH. now injection H.
Qed.

Lemma values_mkSeries {A} (vals : list A) (idx : list timestamp) :
  List.length vals = List.length idx -> values (mkSeries vals idx) = vals.
Proof.
  unfold values, mkSeries. revert vals.
  induction idx as [|d idx IH]; intros [|v vals] H; simpl in *;
    try discriminate; try reflexivity.
  f_equal. apply IH. now injection H.
Qed.

(* ===================================================================== *)
(** ** The loop of [run], step by step *)
(* ===================================================================== *)

Lemma trade_step_cases signal d price l b l1 b1 :
  trade_step signal d price l b = (Ok l1, b1) -> tick_case d price l b l1 b1.
Proof.
  unfold trade_step.
  destruct ((signal =? 1)%Z && (position l =? 0)%Z)%bool eqn:Hb.
  - apply andb_true_iff in Hb as [_ Hp]. apply Z.eqb_eq in Hp.
    destruct (Qeq_bool price 0) eqn:Hz.
    + discriminate.
    + intros H. unfold bind, append_trade, ret in H.
      injection H as <- <-. constructor; [assumption|].
      intros E. apply Qeq_bool_iff in E. congruence.
  - destruct ((signal =? -1)%Z && (position l =? 1)%Z)%bool eqn:Hs.
    + apply andb_true_iff in Hs as [_ Hp]. apply Z.eqb_eq in Hp.
      intros H. unfold bind, append_trade, ret in H.
      injection H as <- <-. now constructor.
    + intros H. unfold ret in H. injection H as <- <-. constructor.
Qed.

Lemma tick_ok_inv signals l d price b l' b' :
  tick signals l (d, price) b = (Ok l', b') ->
  exists signal l1,
    loc signals d = [signal] /\
    trade_step signal d price l b = (Ok l1, b') /\
    l' = record_tick price l1.
Proof.
  unfold tick, bind, loc_scalar.
  destruct (loc signals d) as [|signal [|? ?]]; simpl; try discriminate.
  destruct (trade_step signal d price l b) as [[l1|e] b1] eqn:Hs;
    simpl; try discriminate.
  intros H. unfold ret in H. injection H as <- <-.
  exists signal, l1. repeat split; assumption.
Qed.

Lemma loop_app signals items1 items2 l b :
  loop signals l (items1 ++ items2) b =
  match loop signals l items1 b with
  | (Ok l1, b1) => loop signals l1 items2 b1
  | (Raise e, b1) => (Raise e, b1)
  end.
Proof.
  revert l b. induction items1 as [|it items1 IH]; intros l b; simpl.
  - reflexivity.
  - unfold bind. destruct (tick signals l it b) as [[l1|e] b1].
    + apply IH.
    + reflexivity.
Qed.

(** A loop that did not raise appended one value and one position per
    item. *)
Lemma loop_outputs signals items : forall l b l' b',
  loop signals l items b = (Ok l', b') ->
  exists pv ps,
    portfolio_values l' = portfolio_values l ++ pv /\
    positions_l l' = positions_l l ++ ps /\
    List.length pv = List.length items /\
    List.length ps = List.length items.
Proof.
  induction items as [|[d price] items IH]; intros l b l' b' H;
    cbn [loop] in H.
  - unfold ret in H. injection H as <- <-.
    exists [], []. now rewrite !app_nil_r.
  - unfold bind in H.
    destruct (tick signals l (d, price) b) as [[l1|e] b1] eqn:Ht;
      [|discriminate].
    apply tick_ok_inv in Ht as (signal & l0 & _ & Hs & ->).
    apply trade_step_cases in Hs.
    apply IH in H as (pv & ps & Hpv & Hps & Lpv & Lps).
    assert (portfolio_values l0 = portfolio_values l /\
            positions_l l0 = positions_l l) as [E1 E2]
      by (destruct Hs; simpl; auto).
    simpl in Hpv, Hps. rewrite E1 in Hpv. rewrite E2 in Hps.
    rewrite <- app_assoc in Hpv, Hps.
    exists ((cash l0 + shares l0 * price) :: pv), (position l0 :: ps).
    repeat split; try assumption; simpl; congruence.
Qed.

Lemma Qeq_bool_nonzero (q : Q) : ~ q == 0 -> Qeq_bool q 0 = false.
Proof.
  intros H. destruct (Qeq_bool q 0) eqn:E; [|reflexivity].
  apply Qeq_bool_iff in E. contradiction.
Qed.

Lemma Qpos_nonzero (q : Q) : 0 < q -> ~ q == 0.
Proof. intros H E. rewrite E in H. discriminate. Qed.

Lemma Qeq_bool_false_pos (q : Q) : 0 < q -> Qeq_bool q 0 = false.
Proof. intros H. apply Qeq_bool_nonzero, Qpos_nonzero, H. Qed.

(** A tick does not raise when the label has one signal and the price is
    not zero. *)
Lemma tick_total signals l d price b signal :
  loc signals d = [signal] -> ~ price == 0 ->
  exists l' b', tick signals l (d, price) b = (Ok l', b').
Proof.
  intros Hloc Hp. unfold tick, bind, loc_scalar. rewrite Hloc. simpl.
  unfold trade_step.
  rewrite (Qeq_bool_nonzero price Hp).
  destruct ((signal =? 1)%Z && (position l =? 0)%Z)%bool;
    [|destruct ((signal =? -1)%Z && (position l =? 1)%Z)%bool];
    simpl; eexists; eexists; reflexivity.
Qed.

Lemma loop_total signals items : forall l b,
  (forall d p, In (d, p) items ->
     (exists signal, loc signals d = [signal]) /\ ~ p == 0) ->
  exists l' b', loop signals l items b = (Ok l', b').
Proof.
  induction items as [|[d price] items IH]; intros l b H; cbn [loop].
  - exists l, b. reflexivity.
  - destruct (H d price (or_introl eq_refl)) as [[signal Hloc] Hp].
    destruct (tick_total signals l d price b signal Hloc Hp)
      as (l1 & b1 & Ht).
    unfold bind. rewrite Ht. apply IH.
    intros d' p' Hin. apply H. now right.
Qed.

(** ** Floor division *)

Lemma floordiv_le (c p : Q) : 0 < p -> floordiv c p * p <= c.
Proof.
  intros Hp. unfold floordiv.
  assert (inject_Z (Qfloor (c / p)) <= c / p) as H by apply Qfloor_le.
  apply (Qmult_le_compat_r _ _ p) in H; [|now apply Qlt_le_weak].
  eapply Qle_trans; [exact H|].
  assert (c / p * p == c) as E.
  { field. intros E. rewrite E in Hp. discriminate. }
  rewrite E. apply Qle_refl.
Qed.

Lemma Qdiv_nonneg (c p : Q) : 0 <= c -> 0 < p -> 0 <= c / p.
Proof.
  intros Hc Hp. unfold Qdiv. apply Qmult_le_0_compat; [assumption|].
  apply Qlt_le_weak, Qinv_lt_0_compat, Hp.
Qed.

Lemma floordiv_nonneg (c p : Q) : 0 <= c -> 0 < p -> 0 <= floordiv c p.
Proof.
  intros Hc Hp. unfold floordiv.
  change 0 with (inject_Z 0). rewrite <- Zle_Qle.
  pose proof (Qdiv_nonneg c p Hc Hp) as H.
  pose proof (Qlt_floor (c / p)) as Hf.
  assert (inject_Z 0 < inject_Z (Qfloor (c / p) + 1)) as Hlt
    by (eapply Qle_lt_trans; eassumption).
  rewrite <- Zlt_Qlt in Hlt. lia.
Qed.

(** [cash // price] is 0 when the cash does not buy one share. *)
Lemma floordiv_small (c p : Q) : 0 <= c -> c < p -> floordiv c p = 0.
Proof.
  intros Hc Hlt.
  assert (0 < p) as Hp by (eapply Qle_lt_trans; eassumption).
  unfold floordiv.
  pose proof (Qdiv_nonneg c p Hc Hp) as H0.
  assert (c / p < 1) as H1.
  { apply Qlt_shift_div_r; [assumption|]. now rewrite Qmult_1_l. }
  pose proof (Qfloor_le (c / p)) as Hl.
  pose proof (Qlt_floor (c / p)) as Hu.
  assert (inject_Z (Qfloor (c / p)) < inject_Z 1) as A
    by (eapply Qle_lt_trans; eassumption).
  assert (inject_Z 0 < inject_Z (Qfloor (c / p) + 1)) as B
    by (eapply Qle_lt_trans; eassumption).
  rewrite <- Zlt_Qlt in A, B.
  replace (Qfloor (c / p)) with 0%Z by lia. reflexivity.
Qed.

(** ** The account invariant *)

Lemma tick_case_account_ok d price l b l1 b1 :
  tick_case d price l b l1 b1 -> 0 < price -> account_ok l -> account_ok l1.
Proof.
  intros Hc Hp [Hpos Hcash Hsh Hflat].
  destruct Hc as [Hflat0 Hnz | Hlong | ].
  - constructor; simpl.
    + now right.
    + pose proof (floordiv_le (cash l) price Hp) as H.
      unfold Qminus. rewrite <- Qle_minus_iff. exact H.
    + now apply floordiv_nonneg.
    + discriminate.
  - constructor; simpl.
    + now left.
    + rewrite <- (Qplus_0_r 0). apply Qplus_le_compat; [assumption|].
      apply Qmult_le_0_compat; [assumption|now apply Qlt_le_weak].
    + apply Qle_refl.
    + intros _. apply Qeq_refl.
  - now constructor.
Qed.

Lemma record_tick_account_ok price l : account_ok l -> account_ok (record_tick price l).
Proof. intros [H1 H2 H3 H4]. now constructor. Qed.

(** The invariant rule of the loop: what every tick that does not raise
    preserves, the loop preserves. *)
Lemma loop_invariant (P : locals -> Backtester -> Prop) signals items :
  (forall d price l b l1 b1,
     In (d, price) items -> P l b -> tick_case d price l b l1 b1 ->
     P (record_tick price l1) b1) ->
  forall l b l' b',
    loop signals l items b = (Ok l', b') -> P l b -> P l' b'.
Proof.
  induction items as [|[d price] items IH]; intros Hstep l b l' b' H HP;
    cbn [loop] in H.
  - unfold ret in H. now injection H as <- <-.
  - unfold bind in H.
    destruct (tick signals l (d, price) b) as [[l1|e] b1] eqn:Ht;
      [|discriminate].
    apply tick_ok_inv in Ht as (signal & l0 & _ & Hs & ->).
    apply trade_step_cases in Hs.
    apply (IH (fun d' p' l2 b2 l3 b3 Hin =>
                 Hstep d' p' l2 b2 l3 b3 (or_intror Hin)) _ _ _ _ H).
    apply (Hstep d price l b l0 b1 (or_introl eq_refl) HP Hs).
Qed.

Lemma loop_account_ok signals items l b l' b' :
  loop signals l items b = (Ok l', b') ->
  (forall d p, In (d, p) items -> 0 < p) ->
  account_ok l -> account_ok l'.
Proof.
  intros H Hpos.
  apply (loop_invariant (fun l0 _ => account_ok l0) signals items)
    with (b := b) (b' := b'); [|exact H].
  intros d price l0 b0 l1 b1 Hin Hok Hc.
  apply record_tick_account_ok.
  apply (tick_case_account_ok _ _ _ _ _ _ Hc (Hpos d price Hin) Hok).
Qed.

Lemma init_locals_ok (capital : Q) : 0 <= capital -> account_ok (init_locals capital).
Proof.
  intros H. constructor; simpl.
  - now left.
  - exact H.
  - apply Qle_refl.
  - intros _. apply Qeq_refl.
Qed.

(** ** Whole shares *)

Lemma tick_case_whole d price l b l1 b1 :
  tick_case d price l b l1 b1 -> whole (shares l) -> whole (shares l1).
Proof.
  intros Hc Hw. destruct Hc; simpl.
  - exists (Qfloor (cash l / price)). apply Qeq_refl.
  - exists 0%Z. apply Qeq_refl.
  - exact Hw.
Qed.

Lemma loop_whole signals items l b l' b' :
  loop signals l items b = (Ok l', b') ->
  whole (shares l) -> whole (shares l').
Proof.
  apply (loop_invariant (fun l0 _ => whole (shares l0)) signals items).
  intros d price l0 b0 l1 b1 _ Hw Hc.
  apply (tick_case_whole _ _ _ _ _ _ Hc Hw).
Qed.

Lemma whole_plus (a b : Q) : whole a -> whole b -> whole (a + b).
Proof.
  intros [x Hx] [y Hy]. exists (x + y)%Z.
  now rewrite Hx, Hy, inject_Z_plus.
Qed.

Lemma whole_mult (a b : Q) : whole a -> whole b -> whole (a * b).
Proof.
  intros [x Hx] [y Hy]. exists (x * y)%Z.
  now rewrite Hx, Hy, inject_Z_mult.
Qed.

Lemma whole_minus (a b : Q) : whole a -> whole b -> whole (a - b).
Proof.
  intros [x Hx] [y Hy]. exists (x - y)%Z.
  rewrite Hx, Hy. unfold Z.sub. now rewrite inject_Z_plus, inject_Z_opp.
Qed.

Lemma whole_floordiv (a b : Q) : whole (floordiv a b).
Proof. exists (Qfloor (a / b)). apply Qeq_refl. Qed.

(** On whole numbers the account stays in whole numbers: the loop uses
    [//], [*], [-] and [+] only. *)
Lemma tick_case_whole_account d price l b l1 b1 :
  tick_case d price l b l1 b1 -> whole price ->
  whole (cash l) /\ whole (shares l) -> whole (cash l1) /\ whole (shares l1).
Proof.
  intros Hc Hp [Hcash Hsh]. destruct Hc; simpl.
  - split; [|apply whole_floordiv].
    apply whole_minus; [exact Hcash|].
    apply whole_mult; [apply whole_floordiv|exact Hp].
  - split; [|exists 0%Z; apply Qeq_refl].
    apply whole_plus; [exact Hcash|]. now apply whole_mult.
  - now split.
Qed.

Lemma loop_whole_account signals items l b l' b' :
  loop signals l items b = (Ok l', b') ->
  (forall d p, In (d, p) items -> whole p) ->
  whole (cash l) /\ whole (shares l) -> whole (cash l') /\ whole (shares l').
Proof.
  intros H Hw.
  apply (loop_invariant (fun l0 _ => whole (cash l0) /\ whole (shares l0))
                        signals items) with (b := b) (b' := b'); [|exact H].
  intros d price l0 b0 l1 b1 Hin Hok Hc.
  apply (tick_case_whole_account _ _ _ _ _ _ Hc (Hw d price Hin) Hok).
Qed.

(** ** The trade log *)

Lemma flip_flip (s : side) : flip (flip s) = s.
Proof. now destruct s. Qed.

Lemma alternates_snoc (log : list Trade) : forall (expect : side) (t : Trade),
  alternates expect (log ++ [t]) =
  alternates expect log
  && side_eqb (t_type t)
              (if Nat.even (List.length log) then expect else flip expect).
Proof.
  induction log as [|x log IH]; intros expect t.
  - simpl. now rewrite andb_true_r.
  - cbn [alternates app List.length]. rewrite IH, Nat.even_succ.
    rewrite <- Nat.negb_even, flip_flip, andb_assoc.
    now destruct (Nat.even (List.length log)).
Qed.

Lemma even_length_snoc {A} (xs : list A) (x : A) :
  Nat.even (List.length (xs ++ [x])) = negb (Nat.even (List.length xs)).
Proof.
  rewrite length_app. simpl. rewrite Nat.add_1_r, Nat.even_succ.
  now rewrite Nat.negb_even.
Qed.

Lemma tick_case_log_ok d price l b l1 b1 :
  tick_case d price l b l1 b1 -> log_ok l b -> log_ok l1 b1.
Proof.
  intros Hc [Halt Hpos].
  destruct Hc as [Hflat _ | Hlong | ]; unfold log_ok; simpl.
  - rewrite alternates_snoc, even_length_snoc, Halt.
    rewrite Hflat in Hpos.
    destruct (Nat.even (List.length (trades b))); [now split|discriminate].
  - rewrite alternates_snoc, even_length_snoc, Halt.
    rewrite Hlong in Hpos.
    destruct (Nat.even (List.length (trades b))); [discriminate|now split].
  - now split.
Qed.

Lemma loop_log_ok signals items l b l' b' :
  loop signals l items b = (Ok l', b') -> log_ok l b -> log_ok l' b'.
Proof.
  apply (loop_invariant log_ok signals items).
  intros d price l0 b0 l1 b1 _ Hok Hc.
  destruct (tick_case_log_ok _ _ _ _ _ _ Hc Hok) as [A B].
  split; assumption.
Qed.

(** ** [run] as a whole *)

Lemma run_aligned prices signals b :
  aligned prices signals ->
  run prices signals b =
  match loop signals (init_locals (initial_capital b)) prices b with
  | (Ok l, b1) => finish_run prices l b1
  | (Raise e, b1) => (Raise e, b1)
  end.
Proof.
  intros [Hlen Hidx]. unfold run.
  rewrite Hlen, Nat.eqb_refl. simpl.
  rewrite (proj2 (index_equals_eq _ _) Hidx). simpl.
  unfold bind, get.
  destruct (loop signals (init_locals (initial_capital b)) prices b)
    as [[l|e] b1]; reflexivity.
Qed.

(** A run that returned passed both checks. *)
Lemma run_ok_aligned prices signals b r b' :
  run prices signals b = (Ok r, b') -> aligned prices signals.
Proof.
  unfold run.
  destruct (List.length prices =? List.length signals)%nat eqn:Hlen;
    simpl; [|discriminate].
  destruct (index_equals (index prices) (index signals)) eqn:Hidx;
    simpl; [|discriminate].
  intros _. split.
  - now apply Nat.eqb_eq.
  - now apply index_equals_eq.
Qed.

Lemma aligned_loc (prices : Series Q) (signals : Series Z) :
  aligned prices signals -> NoDup (index prices) ->
  forall d (p : Q), In (d, p) prices -> exists signal, loc signals d = [signal].
Proof.
  intros [_ Hidx] Hnd d p Hin. apply loc_unique.
  - now rewrite <- Hidx.
  - rewrite <- Hidx. unfold index. apply (in_map fst) in Hin. exact Hin.
Qed.

Lemma tick_outputs signals l d price b l' b' :
  tick signals l (d, price) b = (Ok l', b') ->
  portfolio_values l' = portfolio_values l ++ [cash l' + shares l' * price] /\
  positions_l l' = positions_l l ++ [position l'].
Proof.
  intros Ht. apply tick_ok_inv in Ht as (signal & l0 & _ & Hs & ->).
  apply trade_step_cases in Hs. destruct Hs; simpl; split; reflexivity.
Qed.

(** The state after tick [t] and what the finished loop has recorded at
    place [t]. *)
Lemma loop_prefix signals prices l b lf bf t d p :
  loop signals l prices b = (Ok lf, bf) ->
  nth_error prices t = Some (d, p) ->
  exists lt bt,
    loop signals l (firstn (S t) prices) b = (Ok lt, bt) /\
    nth_error (portfolio_values lf) (List.length (portfolio_values l) + t)
      = Some (cash lt + shares lt * p) /\
    nth_error (positions_l lf) (List.length (positions_l l) + t)
      = Some (position lt).
Proof.
  intros Hloop Hnth.
  destruct (nth_error_split _ _ Hnth) as (before & after & -> & Hlen).
  assert (firstn (S t) (before ++ (d, p) :: after) = before ++ [(d, p)]) as E.
  { rewrite firstn_app, Hlen, firstn_all2 by lia.
    replace (S t - t)%nat with 1%nat by lia. reflexivity. }
  rewrite E. rewrite loop_app in Hloop. rewrite loop_app.
  destruct (loop signals l before b) as [[la|e] ba] eqn:Ha; [|discriminate].
  cbn [loop] in *. unfold bind in *.
  destruct (tick signals la (d, p) ba) as [[lt|e] bt] eqn:Ht; [|discriminate].
  exists lt, bt. split; [reflexivity|].
  apply loop_outputs in Ha as (pv & ps & Hpv & Hps & Lpv & Lps).
  apply tick_outputs in Ht as [Tv Tp].
  apply loop_outputs in Hloop as (pv' & ps' & Hpv' & Hps' & _ & _).
  rewrite Hpv', Tv, Hpv, Hps', Tp, Hps. rewrite <- !app_assoc.
  assert (List.length pv = t) as Ev by lia.
  assert (List.length ps = t) as Ep by lia.
  split.
  - rewrite 2 nth_error_app2 by lia.
    replace (_ + t - _ - _)%nat with 0%nat by lia. reflexivity.
  - rewrite 2 nth_error_app2 by lia.
    replace (_ + t - _ - _)%nat with 0%nat by lia. reflexivity.
Qed.

Lemma nth_error_mkSeries {A} (vals : list A) (idx : list timestamp) t d v :
  nth_error idx t = Some d -> nth_error vals t = Some v ->
  nth_error (mkSeries vals idx) t = Some (d, v).
Proof.
  unfold mkSeries. revert vals t.
  induction idx as [|d0 idx IH]; intros [|v0 vals] [|t]; simpl;
    try discriminate.
  - now intros [= ->] [= ->].
  - apply IH.
Qed.

(** ** The loop on floats *)

(** On floats [//] raises exactly when the divisor is zero. *)
Lemma double_floordiv_raises (vx wx : PrimFloat.float) :
  (exists e, Double.floordiv vx wx = Raise e) <->
  PrimFloat.eqb wx PrimFloat.zero = true.
Proof.
  unfold Double.floordiv, PrimFloat.zero.
  match goal with
  | |- context [PrimFloat.eqb wx ?z] => destruct (PrimFloat.eqb wx z) eqn:E
  end.
  - split; [reflexivity|]. intros _. eexists. reflexivity.
  - split; [|discriminate].
    intros [e H]. revert H.
    match goal with |- (if ?c then _ else _) = _ -> _ => destruct c end;
      discriminate.
Qed.

Lemma double_trade_step_ok signal d price l log l1 log1 :
  Double.trade_step signal d price l log = (Ok l1, log1) ->
  Double.account_ok l ->
  Double.account_ok l1 /\
  Double.portfolio_values l1 = Double.portfolio_values l /\
  Double.positions_l l1 = Double.positions_l l.
Proof.
  unfold Double.trade_step. intros H Hok.
  destruct ((signal =? 1)%Z && (Double.position l =? 0)%Z)%bool.
  - destruct (Double.floordiv (Double.cash l) price) as [q|e];
      [|discriminate].
    injection H as <- <-. split; [|split; reflexivity].
    split; simpl; [now right|discriminate].
  - destruct ((signal =? -1)%Z && (Double.position l =? 1)%Z)%bool;
      injection H as <- <-.
    + split; [|split; reflexivity]. split; simpl; [now left|reflexivity].
    + split; [exact Hok|split; reflexivity].
Qed.

Lemma double_tick_ok signals l d price log l' log' :
  Double.tick signals l (d, price) log = (Ok l', log') ->
  Double.account_ok l ->
  Double.account_ok l' /\
  Double.portfolio_values l'
  = Double.portfolio_values l
    ++ [PrimFloat.add (Double.cash l')
                      (PrimFloat.mul (Double.shares l') price)] /\
  Double.positions_l l' = Double.positions_l l ++ [Double.position l'].
Proof.
  unfold Double.tick. intros H Hok.
  destruct (loc signals d) as [|signal [|s2 rest]]; try discriminate.
  destruct (Double.trade_step signal d price l log) as [[l1|e] log1] eqn:Hs;
    [|discriminate].
  injection H as <- <-.
  destruct (double_trade_step_ok _ _ _ _ _ _ _ Hs Hok) as (Hok1 & Ev & Ep).
  simpl. rewrite Ev, Ep. split; [exact Hok1|]. split; reflexivity.
Qed.

Lemma double_tick_total signals l d price log signal :
  loc signals d = [signal] ->
  PrimFloat.eqb price PrimFloat.zero = false ->
  exists l' log', Double.tick signals l (d, price) log = (Ok l', log').
Proof.
  intros Hloc Hp. unfold Double.tick. rewrite Hloc.
  unfold Double.trade_step.
  destruct ((signal =? 1)%Z && (Double.position l =? 0)%Z)%bool.
  - destruct (Double.floordiv (Double.cash l) price) as [q|e] eqn:Hq.
    + eexists. eexists. reflexivity.
    + assert (PrimFloat.eqb price PrimFloat.zero = true) as Hz
        by (apply (double_floordiv_raises (Double.cash l)); now exists e).
      congruence.
  - destruct ((signal =? -1)%Z && (Double.position l =? 1)%Z)%bool;
      eexists; eexists; reflexivity.
Qed.

Lemma double_loop_total signals items : forall l log,
  (forall d p, In (d, p) items ->
     (exists signal, loc signals d = [signal]) /\
     PrimFloat.eqb p PrimFloat.zero = false) ->
  exists l' log', Double.loop signals l items log = (Ok l', log').
Proof.
  induction items as [|[d price] items IH]; intros l log H;
    cbn [Double.loop].
  - exists l, log. reflexivity.
  - destruct (H d price (or_introl eq_refl)) as [[signal Hloc] Hp].
    destruct (double_tick_total signals l d price log signal Hloc Hp)
      as (l1 & log1 & Ht).
    rewrite Ht. apply IH. intros d' p' Hin. apply H. now right.
Qed.

Lemma double_loop_app signals items1 items2 : forall l log,
  Double.loop signals l (items1 ++ items2) log =
  match Double.loop signals l items1 log with
  | (Ok l1, log1) => Double.loop signals l1 items2 log1
  | (Raise e, log1) => (Raise e, log1)
  end.
Proof.
  induction items1 as [|it items1 IH]; intros l log; simpl.
  - reflexivity.
  - destruct (Double.tick signals l it log) as [[l1|e] log1].
    + apply IH.
    + reflexivity.
Qed.

Lemma double_loop_outputs signals items : forall l log l' log',
  Double.loop signals l items log = (Ok l', log') ->
  Double.account_ok l ->
  Double.account_ok l' /\
  exists pv ps,
    Double.portfolio_values l' = Double.portfolio_values l ++ pv /\
    Double.positions_l l' = Double.positions_l l ++ ps /\
    List.length pv = List.length items /\
    List.length ps = List.length items.
Proof.
  induction items as [|[d price] items IH]; intros l log l' log' H Hok;
    cbn [Double.loop] in H.
  - injection H as <- <-. split; [exact Hok|].
    exists [], []. now rewrite !app_nil_r.
  - destruct (Double.tick signals l (d, price) log) as [[l1|e] log1] eqn:Ht;
      [|discriminate].
    destruct (double_tick_ok _ _ _ _ _ _ _ Ht Hok) as (Hok1 & Tv & Tp).
    destruct (IH _ _ _ _ H Hok1) as (Hok' & pv & ps & Hpv & Hps & Lpv & Lps).
    split; [exact Hok'|].
    rewrite Tv in Hpv. rewrite Tp in Hps. rewrite <- app_assoc in Hpv, Hps.
    eexists. eexists. split; [exact Hpv|]. split; [exact Hps|].
    simpl. split; congruence.
Qed.

Lemma double_loop_prefix signals prices l log lf logf t d p :
  Double.loop signals l prices log = (Ok lf, logf) ->
  Double.account_ok l ->
  nth_error prices t = Some (d, p) ->
  exists lt logt,
    Double.loop signals l (firstn (S t) prices) log = (Ok lt, logt) /\
    Double.account_ok lt /\
    nth_error (Double.portfolio_values lf)
              (List.length (Double.portfolio_values l) + t)
    = Some (PrimFloat.add (Double.cash lt)
                          (PrimFloat.mul (Double.shares lt) p)) /\
    nth_error (Double.positions_l lf)
              (List.length (Double.positions_l l) + t)
    = Some (Double.position lt).
Proof.
  intros Hloop Hok Hnth.
  destruct (nth_error_split _ _ Hnth) as (before & after & -> & Hlen).
  assert (firstn (S t) (before ++ (d, p) :: after) = before ++ [(d, p)]) as E.
  { rewrite firstn_app, Hlen, firstn_all2 by lia.
    replace (S t - t)%nat with 1%nat by lia. reflexivity. }
  rewrite E. rewrite double_loop_app in Hloop. rewrite double_loop_app.
  destruct (Double.loop signals l before log) as [[la|e] loga] eqn:Ha;
    [|discriminate].
  cbn [Double.loop] in *.
  destruct (Double.tick signals la (d, p) loga) as [[lt|e] logt] eqn:Ht;
    [|discriminate].
  exists lt, logt. split; [reflexivity|].
  destruct (double_loop_outputs _ _ _ _ _ _ Ha Hok)
    as (Hoka & pv & ps & Hpv & Hps & Lpv & Lps).
  destruct (double_tick_ok _ _ _ _ _ _ _ Ht Hoka) as (Hokt & Tv & Tp).
  destruct (double_loop_outputs _ _ _ _ _ _ Hloop Hokt)
    as (_ & pv' & ps' & Hpv' & Hps' & _ & _).
  split; [exact Hokt|].
  rewrite Hpv', Tv, Hpv, Hps', Tp, Hps. rewrite <- !app_assoc.
  assert (List.length pv = t) as Ev by lia.
  assert (List.length ps = t) as Ep by lia.
  split.
  - rewrite 2 nth_error_app2 by lia.
    replace (_ + t - _ - _)%nat with 0%nat by lia. reflexivity.
  - rewrite 2 nth_error_app2 by lia.
    replace (_ + t - _ - _)%nat with 0%nat by lia. reflexivity.
Qed.

(** The account invariant on floats, without the bound on the cash:
    over aligned series with unique labels and no zero price the run
    returns; and whenever it returns, the two series carry the index of
    the prices, the value recorded at a tick is [cash + shares * price]
    of the account after that tick, and the position recorded is 1
    whenever the shares are positive. *)
Lemma double_run_account (capital : PrimFloat.float)
                         (prices : Series PrimFloat.float)
                         (signals : Series Z) (log : list Double.Trade) :
  (aligned prices signals -> NoDup (index prices) ->
   (forall d p, In (d, p) prices ->
                PrimFloat.eqb p PrimFloat.zero = false) ->
   exists pv ps log',
     Double.run capital prices signals log = (Ok (pv, ps), log')) /\
  (forall pv ps log',
     Double.run capital prices signals log = (Ok (pv, ps), log') ->
     index pv = index prices /\
     index ps = index prices /\
     forall t d p, nth_error prices t = Some (d, p) ->
       exists l logt,
         Double.loop signals (Double.init_locals capital)
                     (firstn (S t) prices) log = (Ok l, logt) /\
         nth_error pv t
         = Some (d, PrimFloat.add (Double.cash l)
                                  (PrimFloat.mul (Double.shares l) p)) /\
         nth_error ps t = Some (d, Double.position l) /\
         (PrimFloat.ltb PrimFloat.zero (Double.shares l) = true ->
          Double.position l = 1%Z)).
Proof.
  assert (Double.account_ok (Double.init_locals capital)) as Hok0
    by (split; [now left|reflexivity]).
  split.
  - intros [Hlen Hidx] Hnd Hnz. unfold Double.run.
    rewrite Hlen, Nat.eqb_refl. simpl.
    rewrite (proj2 (index_equals_eq _ _) Hidx). simpl.
    destruct (double_loop_total signals prices (Double.init_locals capital) log)
      as (lf & logf & Hloop).
    { intros d p Hin. split; [|now apply (Hnz d)].
      apply loc_unique.
      - now rewrite <- Hidx.
      - rewrite <- Hidx. unfold index. apply (in_map fst) in Hin. exact Hin. }
    rewrite Hloop. eexists. eexists. eexists. reflexivity.
  - intros pv ps log' Hrun. unfold Double.run in Hrun.
    destruct (List.length prices =? List.length signals)%nat; [|discriminate].
    destruct (index_equals (index prices) (index signals)); [|discriminate].
    simpl in Hrun.
    destruct (Double.loop signals (Double.init_locals capital) prices log)
      as [[lf|e] logf] eqn:Hloop; [|discriminate].
    injection Hrun as <- <- _.
    destruct (double_loop_outputs _ _ _ _ _ _ Hloop Hok0)
      as (_ & vs & zs & Hvs & Hzs & Lvs & Lzs).
    simpl in Hvs, Hzs. subst vs zs.
    assert (List.length (index prices) = List.length prices) as Li
      by (unfold index; apply length_map).
    split; [apply index_mkSeries; congruence|].
    split; [apply index_mkSeries; congruence|].
    intros t d p Hnth.
    destruct (double_loop_prefix _ _ _ _ _ _ _ _ _ Hloop Hok0 Hnth)
      as (lt & logt & Hpre & [Hpos Hflat] & Hv & Hp).
    simpl in Hv, Hp.
    exists lt, logt. split; [exact Hpre|].
    assert (nth_error (index prices) t = Some d) as Hd.
    { unfold index. rewrite nth_error_map, Hnth. reflexivity. }
    split; [now apply nth_error_mkSeries|].
    split; [now apply nth_error_mkSeries|].
    intros Hsh. destruct Hpos as [H0|H1]; [|exact H1].
    rewrite (Hflat H0) in Hsh. discriminate.
Qed.

(** The constants of [Double] are the doubles that Python reads from the
    decimal numbers they stand for: each is within half a unit in the
    last place of its decimal. *)
Lemma double_constants :
  let within (x d h : Q) := d - h <= x /\ x <= d + h in
  Double.exact Double.capital_8e8 = 873473495 /\
  within (Double.exact Double.price_8e_8) (882 / 10 ^ 10) ((1 # 2) ^ 77) /\
  Double.exact Double.capital_2e11 = 234102747597 /\
  within (Double.exact Double.price_5e_6) (5 / 10 ^ 6) ((1 # 2) ^ 71) /\
  within (Double.exact Double.capital_1e308) (10 ^ 308) (2 ^ 970) /\
  within (Double.exact Double.price_1e_10) (1 / 10 ^ 10) ((1 # 2) ^ 87).
Proof.
  cbv zeta.
  split; [vm_compute; reflexivity|].
  split; [split; vm_compute; discriminate|].
  split; [vm_compute; reflexivity|].
  split; [split; vm_compute; discriminate|].
  split; split; vm_compute; discriminate.
Qed.

(** C4, as the code has it.  On exact numbers, for every run over
    strictly positive prices (and a capital that is not negative): when
    the series are aligned and the labels unique the run returns; and
    whenever it returns, the value and position series carry the index of
    the price series and, with [l] the account after the tick with label
    [d] at place [t], the value recorded at [t] is
    [cash l + shares l * price] and the position recorded at [t] is 1
    (Long) whenever [shares l] is positive.  When the capital and the
    prices are whole numbers (Python ints, on which the program computes
    exactly), cash and shares stay whole numbers and [cash l] is not
    negative.  On floats the same holds for every run over prices that
    are not zero, except the bound on the cash. *)
Theorem run_account_invariant :
  (forall (b : Backtester) (prices : Series Q) (signals : Series Z),
   0 <= initial_capital b ->
   (forall d p, In (d, p) prices -> 0 < p) ->
   (aligned prices signals -> NoDup (index prices) ->
    exists r b', run prices signals b = (Ok r, b')) /\
   (forall r b', run prices signals b = (Ok r, b') ->
      index (r_portfolio_value r) = index prices /\
      index (r_positions r) = index prices /\
      forall t d p, nth_error prices t = Some (d, p) ->
        exists l bt,
          loop signals (init_locals (initial_capital b))
               (firstn (S t) prices) b = (Ok l, bt) /\
          nth_error (r_portfolio_value r) t = Some (d, cash l + shares l * p) /\
          nth_error (r_positions r) t = Some (d, position l) /\
          (0 < shares l -> position l = 1%Z) /\
          (whole (initial_capital b) ->
           (forall d' p', In (d', p') prices -> whole p') ->
           whole (cash l) /\ whole (shares l) /\ 0 <= cash l))) /\
  (forall (capital : PrimFloat.float) (prices : Series PrimFloat.float)
          (signals : Series Z) (log : list Double.Trade),
   (aligned prices signals -> NoDup (index prices) ->
    (forall d p, In (d, p) prices ->
                 PrimFloat.eqb p PrimFloat.zero = false) ->
    exists pv ps log',
      Double.run capital prices signals log = (Ok (pv, ps), log')) /\
   (forall pv ps log',
      Double.run capital prices signals log = (Ok (pv, ps), log') ->
      index pv = index prices /\
      index ps = index prices /\
      forall t d p, nth_error prices t = Some (d, p) ->
        exists l logt,
          Double.loop signals (Double.init_locals capital)
                      (firstn (S t) prices) log = (Ok l, logt) /\
          nth_error pv t
          = Some (d, PrimFloat.add (Double.cash l)
                                   (PrimFloat.mul (Double.shares l) p)) /\
          nth_error ps t = Some (d, Double.position l) /\
          (PrimFloat.ltb PrimFloat.zero (Double.shares l) = true ->
           Double.position l = 1%Z))).
Proof.
  split; [|intros capital prices signals log; apply double_run_account].
  intros b prices signals Hcap Hpos. split.
  - intros Hal Hnd. rewrite (run_aligned _ _ _ Hal).
    destruct (loop_total signals prices (init_locals (initial_capital b)) b)
      as (lf & bf & Hloop).
    { intros d p Hin. split.
      - apply (aligned_loc prices signals Hal Hnd d p Hin).
      - intros E. specialize (Hpos d p Hin). rewrite E in Hpos.
        discriminate. }
    rewrite Hloop. unfold finish_run. eexists. eexists. reflexivity.
  - intros r b' Hrun.
    pose proof (run_ok_aligned _ _ _ _ _ Hrun) as Hal.
    rewrite (run_aligned _ _ _ Hal) in Hrun.
    destruct (loop signals (init_locals (initial_capital b)) prices b)
      as [[lf|e] bf] eqn:Hloop; [|discriminate].
    unfold finish_run in Hrun. injection Hrun as <- _.
    destruct (loop_outputs _ _ _ _ _ _ Hloop)
      as (pv & ps & Hpv & Hps & Lpv & Lps).
    simpl in Hpv, Hps. subst pv ps.
    assert (List.length (index prices) = List.length prices) as Li
      by (unfold index; apply length_map).
    simpl.
    split; [apply index_mkSeries; congruence|].
    split; [apply index_mkSeries; congruence|].
    intros t d p Hnth.
    destruct (loop_prefix _ _ _ _ _ _ _ _ _ Hloop Hnth)
      as (lt & bt & Hpre & Hv & Hp).
    simpl in Hv, Hp.
    exists lt, bt. split; [exact Hpre|].
    assert (nth_error (index prices) t = Some d) as Hd.
    { unfold index. rewrite nth_error_map, Hnth. reflexivity. }
    split; [now apply nth_error_mkSeries|].
    split; [now apply nth_error_mkSeries|].
    assert (account_ok lt) as [Hposn Hcash _ Hflat].
    { apply (loop_account_ok _ _ _ _ _ _ Hpre).
      - intros d' p' Hin. apply (Hpos d').
        rewrite <- (firstn_skipn (S t) prices). apply in_or_app. now left.
      - now apply init_locals_ok. }
    split.
    { intros Hsh. destruct Hposn as [H0|H1]; [|exact H1].
      apply Hflat in H0. rewrite H0 in Hsh. discriminate. }
    intros Hwc Hwp.
    destruct (loop_whole_account _ _ _ _ _ _ Hpre) as [Hc Hs].
    { intros d' p' Hin. apply (Hwp d').
      rewrite <- (firstn_skipn (S t) prices). apply in_or_app. now left. }
    { split; [exact Hwc|exists 0%Z; apply Qeq_refl]. }
    split; [exact Hc|]. split; [exact Hs|exact Hcash].
Qed.

Lemma scenario_run_eq :
  run scenario_prices scenario_signals (fresh 100)
  = (Ok scenario_result, scenario_after).
Proof. vm_compute. reflexivity. Qed.

Lemma run_account_invariant_witness :
  exists r b', run scenario_prices scenario_signals (fresh 100) = (Ok r, b').
Proof.
  destruct (proj1 run_account_invariant (fresh 100) scenario_prices
                  scenario_signals) as (Hreturns & _).
  - discriminate.
  - intros d p Hin. each_item Hin.
  - apply Hreturns.
    + split; reflexivity.
    + repeat constructor; simpl; intuition discriminate.
Defined.

(** C4 as stated fails on floats: with capital 873473495.0, one price
    8.82e-08 and a Buy signal, the run returns, [cash // price] is
    9903327607709752, and the tick leaves the cash at -2^-23 (about
    -1.19e-07), below zero.  The floor of the exact quotient is
    9903327607709751, which would leave the cash at or above zero. *)
Lemma cash_negative_on_doubles :
  let capital := Double.capital_8e8 in
  let price := Double.price_8e_8 in
  let prices := [(1%Z, price)] in
  let signals := [(1%Z, 1%Z)] in
  PrimFloat.ltb PrimFloat.zero capital = true /\
  PrimFloat.ltb PrimFloat.zero price = true /\
  aligned prices signals /\
  (exists pv ps log,
     Double.run capital prices signals [] = (Ok (pv, ps), log)) /\
  (exists l log,
     Double.loop signals (Double.init_locals capital) prices []
     = (Ok l, log) /\
     Double.to_Q (Double.shares l) = Some 9903327607709752 /\
     Double.to_Q (Double.cash l) = Some (-1 # 8388608) /\
     PrimFloat.ltb (Double.cash l) PrimFloat.zero = true) /\
  floordiv (Double.exact capital) (Double.exact price) = 9903327607709751 /\
  0 <= Double.exact capital
       - floordiv (Double.exact capital) (Double.exact price)
         * Double.exact price.
Proof.
  cbv zeta.
  split; [reflexivity|]. split; [reflexivity|].
  split; [split; reflexivity|].
  split.
  { eexists. eexists. eexists. vm_compute. reflexivity. }
  split.
  { eexists. eexists. split; [vm_compute; reflexivity|].
    split; [vm_compute; reflexivity|].
    split; vm_compute; reflexivity. }
  split; [vm_compute; reflexivity|].
  vm_compute. discriminate.
Qed.

(** On the scenario of the tests, where every number is a small whole
    number, the loop on floats and the exact loop agree. *)
Lemma scenario_on_doubles :
  exists pv ps log,
    Double.run Double.scenario_capital Double.scenario_prices scenario_signals []
    = (Ok (pv, ps), log) /\
    map (fun e => (fst e, Double.to_Q (snd e))) pv
    = map (fun e => (fst e, Some (snd e))) scenario_values /\
    ps = scenario_positions /\
    map (fun t => (Double.t_date t, Double.t_type t,
                   Double.to_Q (Double.t_price t),
                   Double.to_Q (Double.t_shares t))) log
    = map (fun t => (t_date t, t_type t, Some (t_price t), Some (t_shares t)))
          scenario_trades.
Proof.
  eexists. eexists. eexists. split; [vm_compute; reflexivity|].
  split; [vm_compute; reflexivity|]. split; vm_compute; reflexivity.
Qed.

(** C1, as the code has it.  In state Flat, on a Buy signal at a tick where
    [0 <= cash < price], [cash // price] is 0: cash is unchanged and no
    share is held, but the tick is not a no-op: the position becomes Long
    (and is recorded as 1) and a Buy trade of 0 shares is appended to the
    trade log. *)
Theorem buy_without_cash (signals : Series Z) (l : locals) (d : timestamp)
                         (price : Q) (b : Backtester) :
  position l = 0%Z ->
  loc signals d = [1%Z] ->
  0 <= cash l -> cash l < price ->
  exists l' b',
    tick signals l (d, price) b = (Ok l', b') /\
    position l' = 1%Z /\
    shares l' = 0 /\
    cash l' == cash l /\
    positions_l l' = positions_l l ++ [1%Z] /\
    trades b' = trades b ++ [mkTrade d buy price 0].
Proof.
  intros Hflat Hloc Hc Hlt.
  assert (0 < price) as Hp by (eapply Qle_lt_trans; eassumption).
  pose proof (Qeq_bool_false_pos price Hp) as Hz.
  unfold tick, bind, loc_scalar. rewrite Hloc. simpl.
  unfold trade_step. rewrite Hflat, Hz. simpl.
  rewrite (floordiv_small _ _ Hc Hlt).
  eexists. eexists. split; [reflexivity|]. simpl.
  repeat split. ring.
Qed.

Lemma buy_without_cash_witness :
  exists l' b',
    tick [(1%Z, 1%Z)] (init_locals 5) (1%Z, 10) (fresh 5) = (Ok l', b') /\
    position l' = 1%Z /\ trades b' = [mkTrade 1%Z buy 10 0].
Proof.
  destruct (buy_without_cash [(1%Z, 1%Z)] (init_locals 5) 1%Z 10 (fresh 5))
    as (l' & b' & Ht & Hp & _ & _ & _ & Htr).
  - reflexivity.
  - reflexivity.
  - discriminate.
  - reflexivity.
  - exists l', b'. repeat split; assumption.
Defined.

(** C1 as stated fails: with capital 5, one price 10 and a Buy signal, the
    simulator is Flat and cannot buy one share, yet the tick leaves it Long
    and appends a trade; the run returns the position 1 and a log of one
    Buy of 0 shares. *)
Lemma buy_without_cash_not_noop :
  let l := init_locals 5 in
  let b := fresh 5 in
  position l = 0%Z /\ cash l < 10 /\
  floordiv (cash l) 10 = 0 /\
  (exists l' b',
     tick [(1%Z, 1%Z)] l (1%Z, 10) b = (Ok l', b') /\
     ~ (position l' = 0%Z /\ trades b' = trades b)) /\
  exists r b',
    run [(1%Z, 10)] [(1%Z, 1%Z)] b = (Ok r, b') /\
    values (r_positions r) = [1%Z] /\
    r_trades r = [mkTrade 1%Z buy 10 0].
Proof.
  simpl. split; [reflexivity|]. split; [reflexivity|].
  split; [reflexivity|]. split.
  - eexists. eexists. split; [reflexivity|].
    simpl. intros [H _]. discriminate.
  - exists {| r_portfolio_value := [(1%Z, 5)];
              r_positions := [(1%Z, 1%Z)];
              r_trades := [mkTrade 1%Z buy 10 0] |},
           {| initial_capital := 5;
              positions := Some [(1%Z, 1%Z)];
              portfolio_value := Some [(1%Z, 5)];
              trades := [mkTrade 1%Z buy 10 0] |}.
    split; [vm_compute; reflexivity|]. split; reflexivity.
Qed.

(** C5. For a run on a freshly constructed simulator, the returned trade
    log alternates Buy, Sell, Buy, Sell, ... starting with Buy; and no tick
    of the loop appends a Sell while Flat or a Buy while Long. *)
Theorem trade_log_alternates (capital : Q) (b : Backtester)
                             (prices : Series Q) (signals : Series Z)
                             (r : Result) (b' : Backtester) :
  init capital = Ok b ->
  run prices signals b = (Ok r, b') ->
  alternates buy (r_trades r) = true /\
  forall l item b0 l1 b1,
    tick signals l item b0 = (Ok l1, b1) ->
    trades b1 = trades b0 \/
    exists t, trades b1 = trades b0 ++ [t] /\
              (t_type t = buy -> position l = 0%Z) /\
              (t_type t = sell -> position l = 1%Z).
Proof.
  intros Hinit Hrun. split.
  - pose proof (run_ok_aligned _ _ _ _ _ Hrun) as Hal.
    rewrite (run_aligned _ _ _ Hal) in Hrun.
    destruct (loop signals (init_locals (initial_capital b)) prices b)
      as [[l|e] b1] eqn:Hloop; [|discriminate].
    unfold finish_run in Hrun. injection Hrun as <- _. simpl.
    apply (loop_log_ok _ _ _ _ _ _ Hloop).
    unfold init in Hinit. destruct (Qle_bool capital 0); [discriminate|].
    injection Hinit as <-. split; reflexivity.
  - intros l [d price] b0 l1 b1 Ht.
    apply tick_ok_inv in Ht as (signal & l0 & _ & Hs & _).
    apply trade_step_cases in Hs.
    destruct Hs as [Hflat _ | Hlong | ]; simpl.
    + right. eexists. split; [reflexivity|]. simpl.
      split; [intros _; exact Hflat|discriminate].
    + right. eexists. split; [reflexivity|]. simpl.
      split; [discriminate|intros _; exact Hlong].
    + now left.
Qed.

Lemma trade_log_alternates_witness :
  exists r b',
    run scenario_prices scenario_signals (fresh 100) = (Ok r, b') /\
    alternates buy (r_trades r) = true.
Proof.
  exists scenario_result, scenario_after. split; [apply scenario_run_eq|].
  apply (trade_log_alternates 100 (fresh 100) scenario_prices
                              scenario_signals scenario_result scenario_after).
  - reflexivity.
  - apply scenario_run_eq.
Defined.

(** ** Division by zero *)

Lemma tick_no_zero_division signals l d price b b' :
  ~ price == 0 -> tick signals l (d, price) b <> (Raise ZeroDivisionError, b').
Proof.
  intros Hp. unfold tick, bind, loc_scalar.
  destruct (loc signals d) as [|signal [|? ?]]; cbv beta iota;
    try (unfold raise; discriminate).
  unfold ret at 1. unfold trade_step.
  rewrite (Qeq_bool_nonzero price Hp).
  destruct ((signal =? 1)%Z && (position l =? 0)%Z)%bool;
    [|destruct ((signal =? -1)%Z && (position l =? 1)%Z)%bool];
    simpl; discriminate.
Qed.

Lemma loop_no_zero_division signals items : forall l b b',
  (forall d p, In (d, p) items -> ~ p == 0) ->
  loop signals l items b <> (Raise ZeroDivisionError, b').
Proof.
  induction items as [|[d price] items IH]; intros l b b' Hnz; cbn [loop].
  - discriminate.
  - unfold bind.
    destruct (tick signals l (d, price) b) as [[l1|e] b1] eqn:Ht.
    + apply IH. intros d' p' Hin. apply (Hnz d'). now right.
    + intros [= -> ->].
      apply (tick_no_zero_division signals l d price b b'); [|exact Ht].
      apply (Hnz d). now left.
Qed.

Lemma run_no_zero_division prices signals b b' :
  (forall d p, In (d, p) prices -> ~ p == 0) ->
  run prices signals b <> (Raise ZeroDivisionError, b').
Proof.
  intros Hnz. unfold run.
  destruct (List.length prices =? List.length signals)%nat; simpl;
    [|discriminate].
  destruct (index_equals (index prices) (index signals)); simpl;
    [|discriminate].
  unfold bind at 1. unfold get. unfold bind at 1.
  destruct (loop signals (init_locals (initial_capital b)) prices b)
    as [[l|e] b1] eqn:Hloop.
  - discriminate.
  - intros [= -> ->].
    now apply (loop_no_zero_division signals prices
                 (init_locals (initial_capital b)) b b').
Qed.

(** C10, as the code has it.  A Buy tick in state Flat returns when the
    price is not zero and raises [ZeroDivisionError] when it is; a run
    over strictly positive prices never raises [ZeroDivisionError]; and a
    run over aligned series with non-negative prices can.  When capital
    and prices are whole numbers (Python ints, on which [//] is the floor
    of the exact quotient), the Buy tick takes
    [shares = floor(cash / price)], and after every tick of a run the
    shares held and the cash are whole numbers.  On floats too, [//]
    raises exactly when the price is zero. *)
Theorem whole_shares_and_zero_price :
  (forall signals l d price b,
     position l = 0%Z -> loc signals d = [1%Z] ->
     (~ price == 0 ->
      exists l' b', tick signals l (d, price) b = (Ok l', b') /\
                    position l' = 1%Z /\
                    (whole (cash l) -> whole price ->
                     shares l' = inject_Z (Qfloor (cash l / price)) /\
                     whole (cash l'))) /\
     (price == 0 ->
      tick signals l (d, price) b = (Raise ZeroDivisionError, b))) /\
  (forall b prices signals t l bt,
     whole (initial_capital b) ->
     (forall d p, In (d, p) prices -> whole p) ->
     loop signals (init_locals (initial_capital b)) (firstn t prices) b
       = (Ok l, bt) ->
     whole (shares l) /\ whole (cash l)) /\
  (forall b prices signals b',
     (forall d p, In (d, p) prices -> 0 < p) ->
     run prices signals b <> (Raise ZeroDivisionError, b')) /\
  (exists prices signals b b',
     (forall d p, In (d, p) prices -> 0 <= p) /\
     aligned prices signals /\
     init 5 = Ok b /\
     run prices signals b = (Raise ZeroDivisionError, b')) /\
  (forall cash price : PrimFloat.float,
     (exists e, Double.floordiv cash price = Raise e) <->
     PrimFloat.eqb price PrimFloat.zero = true).
Proof.
  split; [|split; [|split; [|split; [|exact double_floordiv_raises]]]].
  - intros signals l d price b Hflat Hloc. split.
    + intros Hnz.
      pose proof (Qeq_bool_nonzero price Hnz) as Hz.
      unfold tick, bind, loc_scalar. rewrite Hloc. simpl.
      unfold trade_step. rewrite Hflat, Hz. simpl.
      eexists. eexists. split; [reflexivity|]. simpl.
      split; [reflexivity|]. intros Hwc Hwp.
      split; [reflexivity|].
      apply whole_minus; [exact Hwc|].
      apply whole_mult; [apply whole_floordiv|exact Hwp].
    + intros Hz. apply Qeq_bool_iff in Hz.
      unfold tick, bind, loc_scalar. rewrite Hloc. simpl.
      unfold trade_step. rewrite Hflat, Hz. reflexivity.
  - intros b prices signals t l bt Hwc Hwp Hloop.
    destruct (loop_whole_account _ _ _ _ _ _ Hloop) as [Hc Hs].
    + intros d p Hin. apply (Hwp d).
      rewrite <- (firstn_skipn t prices). apply in_or_app. now left.
    + split; [exact Hwc|exists 0%Z; apply Qeq_refl].
    + now split.
  - intros b prices signals b' Hpos.
    apply run_no_zero_division. intros d p Hin E.
    specialize (Hpos d p Hin). rewrite E in Hpos. discriminate.
  - exists [(1%Z, 0)], [(1%Z, 1%Z)], (fresh 5), (fresh 5).
    split; [|split; [split; reflexivity|split; reflexivity]].
    intros d p [[= <- <-]|[]]. discriminate.
Qed.

Lemma whole_shares_and_zero_price_witness :
  (whole 8 /\ whole 4) /\
  run scenario_prices scenario_signals (fresh 100)
    <> (Raise ZeroDivisionError, fresh 100).
Proof.
  destruct whole_shares_and_zero_price as (_ & Hwhole & Hrun & _).
  split.
  - apply (Hwhole (fresh 100) scenario_prices scenario_signals 2%nat
                  {| position := 1; cash := 4; shares := 8;
                     portfolio_values := [100; 100];
                     positions_l := [0; 1]%Z |}
                  {| initial_capital := 100; positions := None;
                     portfolio_value := None;
                     trades := [mkTrade 2%Z buy 12 8] |}).
    + exists 100%Z. reflexivity.
    + intros d p Hin. simpl in Hin.
      repeat (destruct Hin as [Hin|Hin];
              [injection Hin as <- <-; eexists; reflexivity|]).
      destruct Hin.
    + reflexivity.
  - apply Hrun. intros d p Hin. each_item Hin.
Defined.

(** C10 as stated fails on floats.  With capital 1e308, one price 1e-10
    and a Buy signal the run returns and the quotient overflows: the
    shares held after the tick are infinite, not a whole number.  And
    where the quotient stays finite it need not be the floor:
    234102747597.0 // 5e-06 is 46820549519400000, the floor of the exact
    quotient is 46820549519399996. *)
Lemma shares_on_doubles_not_floor :
  let capital := Double.capital_1e308 in
  let price := Double.price_1e_10 in
  let prices := [(1%Z, price)] in
  let signals := [(1%Z, 1%Z)] in
  PrimFloat.ltb PrimFloat.zero capital = true /\
  PrimFloat.ltb PrimFloat.zero price = true /\
  aligned prices signals /\
  (exists pv ps log,
     Double.run capital prices signals [] = (Ok (pv, ps), log)) /\
  (exists l log,
     Double.loop signals (Double.init_locals capital) prices []
     = (Ok l, log) /\
     Double.shares l = PrimFloat.infinity /\
     Double.is_whole (Double.shares l) = false) /\
  (exists q,
     Double.floordiv Double.capital_2e11 Double.price_5e_6 = Ok q /\
     Double.to_Q q = Some 46820549519400000) /\
  floordiv (Double.exact Double.capital_2e11) (Double.exact Double.price_5e_6)
  = 46820549519399996.
Proof.
  cbv zeta.
  split; [reflexivity|]. split; [reflexivity|].
  split; [split; reflexivity|].
  split.
  { eexists. eexists. eexists. vm_compute. reflexivity. }
  split.
  { eexists. eexists. split; [vm_compute; reflexivity|].
    split; vm_compute; reflexivity. }
  split.
  { eexists. split; vm_compute; reflexivity. }
  vm_compute. reflexivity.
Qed.

(* ===================================================================== *)
(** ** The metrics *)
(* ===================================================================== *)

Lemma calculate_metrics_ok rf b pv t log last_value rest :
  portfolio_value b = Some pv ->
  trades b = t :: log ->
  lt0 rf = false ->
  rev (values pv) = last_value :: rest ->
  calculate_metrics rf b
  = (Ok (metrics_of rf (values pv) (t :: log) last_value), b).
Proof.
  intros Hpv Htr Hrf Hlast. unfold calculate_metrics, bind, get.
  rewrite Hpv, Htr, Hrf, Hlast. reflexivity.
Qed.

(** A call that returned was made on a ready simulator with an admissible
    rate. *)
Lemma calculate_metrics_inv rf b m b' :
  calculate_metrics rf b = (Ok m, b') ->
  b' = b /\ 0 <= rf /\
  exists pv t log last_value rest,
    portfolio_value b = Some pv /\ trades b = t :: log /\
    rev (values pv) = last_value :: rest /\
    m = metrics_of rf (values pv) (t :: log) last_value.
Proof.
  unfold calculate_metrics, bind, get.
  destruct (portfolio_value b) as [pv|] eqn:Hpv; [|discriminate].
  destruct (trades b) as [|t log] eqn:Htr; [discriminate|].
  destruct (lt0 rf) eqn:Hrf; [discriminate|].
  destruct (rev (values pv)) as [|last_value rest] eqn:Hlast; [discriminate|].
  unfold ret. intros [= <- <-]. split; [reflexivity|]. split.
  - unfold lt0 in Hrf. apply negb_false_iff in Hrf.
    now apply Qle_bool_iff.
  - exists pv, t, log, last_value, rest. repeat split; assumption.
Qed.

Lemma sharpe_divisor_pos (v : Q) : (0 < sqrt (Q2R v) + Q2R epsilon)%R.
Proof.
  pose proof (sqrt_pos (Q2R v)) as H.
  assert (0 < Q2R epsilon)%R as He.
  { rewrite <- RMicromega.Q2R_0. apply Qlt_Rlt. reflexivity. }
  lra.
Qed.

(** C3. The scenario of the tests: a fresh simulator with capital 100 buys
    8 shares at 12 (cash 4), sells them at 13 (cash 108), returns the
    positions 0,1,1,0,0 and the final value 108; the metrics then report a
    win rate of 1, a maximum drawdown that is at most 0, and a Sharpe ratio
    that is a number (its divisor is positive). *)
Theorem scenario_outcome :
  init 100 = Ok (fresh 100) /\
  loop scenario_signals (init_locals 100) (firstn 2 scenario_prices)
       (fresh 100)
  = (Ok {| position := 1; cash := 4; shares := 8;
           portfolio_values := [100; 100]; positions_l := [0; 1]%Z |},
     {| initial_capital := 100; positions := None; portfolio_value := None;
        trades := [mkTrade 2%Z buy 12 8] |}) /\
  loop scenario_signals (init_locals 100) (firstn 4 scenario_prices)
       (fresh 100)
  = (Ok {| position := 0; cash := 108; shares := 0;
           portfolio_values := [100; 100; 116; 108];
           positions_l := [0; 1; 1; 0]%Z |},
     {| initial_capital := 100; positions := None; portfolio_value := None;
        trades := [mkTrade 2%Z buy 12 8; mkTrade 4%Z sell 13 8] |}) /\
  run scenario_prices scenario_signals (fresh 100)
  = (Ok scenario_result, scenario_after) /\
  values (r_positions scenario_result) = [0; 1; 1; 0; 0]%Z /\
  last (values (r_portfolio_value scenario_result)) 0 = 108 /\
  exists m,
    calculate_metrics 0 scenario_after = (Ok m, scenario_after) /\
    final_value m = 108 /\
    win_rate m == 1 /\
    total_trades m = 1%Z /\
    (exists dd, max_drawdown m = Fin dd /\ dd <= 0) /\
    (exists mu var,
       sharpe_ratio m
       = Some (sqrt 252 * Q2R mu / (sqrt (Q2R var) + Q2R epsilon))%R /\
       (0 < sqrt (Q2R var) + Q2R epsilon)%R).
Proof.
  split; [reflexivity|].
  split; [vm_compute; reflexivity|].
  split; [vm_compute; reflexivity|].
  split; [apply scenario_run_eq|].
  split; [reflexivity|].
  split; [reflexivity|].
  eexists. split.
  - apply (calculate_metrics_ok 0 scenario_after scenario_values
             (mkTrade 2%Z buy 12 8) [mkTrade 4%Z sell 13 8]
             108 [108; 116; 100; 100]); reflexivity.
  - unfold metrics_of. cbn [final_value win_rate total_trades max_drawdown
                             sharpe_ratio].
    split; [reflexivity|].
    split; [vm_compute; reflexivity|].
    split; [vm_compute; reflexivity|].
    split.
    + eexists. split; [vm_compute; reflexivity|]. vm_compute. discriminate.
    + unfold sharpe_of.
      match goal with
      | |- context [all_finite ?e] =>
          let r := eval vm_compute in (all_finite e) in
          change (all_finite e) with r
      end.
      cbv beta iota.
      match goal with
      | |- context [mean ?e] =>
          let r := eval vm_compute in (mean e) in
          change (mean e) with r
      end.
      match goal with
      | |- context [variance ?e] =>
          let r := eval vm_compute in (variance e) in
          change (variance e) with r
      end.
      cbv beta iota.
      eexists. eexists. split; [reflexivity|]. apply sharpe_divisor_pos.
Qed.

(* ===================================================================== *)
(** ** Rejected parameters *)
(* ===================================================================== *)

(** C9, as the code has it.  A capital [<= 0] makes the constructor fail,
    a period [< 1] makes both moving averages fail, each with
    [InvalidParameter]; a rate [< 0] makes [calculate_metrics] fail and
    leaves the simulator as it was, with [InvalidParameter] when the
    simulator is ready and with [NotReady] when it is not (that guard
    comes first). *)
Theorem invalid_parameters_rejected :
  (forall capital, capital <= 0 ->
     exists e, init capital = Raise e /\ kind_of e = Some InvalidParameter) /\
  (forall prices period, (period < 1)%Z ->
     exists e, calculate_sma prices period = Raise e /\
               calculate_ema prices period = Raise e /\
               kind_of e = Some InvalidParameter) /\
  (forall rf b, rf < 0 ->
     exists e, calculate_metrics rf b = (Raise e, b) /\
               kind_of e = Some (if is_ready b then InvalidParameter
                                 else NotReady)).
Proof.
  split; [|split].
  - intros capital Hc. exists (ValueError msg_capital).
    unfold init. apply Qle_bool_iff in Hc. rewrite Hc. split; reflexivity.
  - intros prices period Hp. exists (ValueError msg_period).
    unfold calculate_sma, calculate_ema.
    apply Z.ltb_lt in Hp. rewrite Hp. repeat split; reflexivity.
  - intros rf b Hrf.
    assert (lt0 rf = true) as Hlt.
    { unfold lt0. apply negb_true_iff.
      destruct (Qle_bool 0 rf) eqn:E; [|reflexivity].
      apply Qle_bool_iff in E. exfalso. apply (Qlt_not_le _ _ Hrf E). }
    unfold calculate_metrics, bind, get, is_ready.
    destruct (portfolio_value b) as [pv|].
    + destruct (trades b) as [|t log].
      * exists (ValueError msg_not_run). split; reflexivity.
      * rewrite Hlt. exists (ValueError msg_rate). split; reflexivity.
    + exists (ValueError msg_not_run). split; reflexivity.
Qed.

Lemma invalid_parameters_rejected_witness :
  (exists e, init (-1000) = Raise e /\ kind_of e = Some InvalidParameter) /\
  (exists e, calculate_sma [(1%Z, 100); (2%Z, 101); (3%Z, 102)] 0 = Raise e /\
             calculate_ema [(1%Z, 100); (2%Z, 101); (3%Z, 102)] 0 = Raise e /\
             kind_of e = Some InvalidParameter) /\
  (exists e, calculate_metrics (-1 # 10) scenario_after
             = (Raise e, scenario_after) /\
             kind_of e = Some InvalidParameter).
Proof.
  destruct invalid_parameters_rejected as (Hinit & Hma & Hrate).
  split; [|split].
  - apply Hinit. discriminate.
  - apply Hma. reflexivity.
  - apply (Hrate (-1 # 10) scenario_after). reflexivity.
Defined.

(** C9 as stated fails for [calculate_metrics]: on a simulator that has
    not run, a negative rate is answered by the not-ready error, not by
    [InvalidParameter]. *)
Lemma negative_rate_not_ready :
  calculate_metrics (-1 # 10) (fresh 100000)
  = (Raise (ValueError msg_not_run), fresh 100000) /\
  (-1 # 10) < 0 /\
  kind_of (ValueError msg_not_run) = Some NotReady /\
  kind_of (ValueError msg_not_run) <> Some InvalidParameter.
Proof. repeat split. discriminate. Qed.

(* ===================================================================== *)
(** ** Win rate: pairing the trade log *)
(* ===================================================================== *)

Lemma list_pair_ind {A} (P : list A -> Prop) :
  P [] -> (forall x, P [x]) -> (forall x y r, P r -> P (x :: y :: r)) ->
  forall l, P l.
Proof.
  intros H0 H1 H2 l.
  enough (P l /\ forall x, P (x :: l)) as [H _] by exact H.
  induction l as [|y l [IH1 IH2]]; split; auto.
Qed.

Lemma range_odd_SS (n : nat) :
  range_odd (S (S n)) = 1%nat :: map (fun i => S (S i)) (range_odd n).
Proof.
  unfold range_odd.
  replace (S (S n)) with (n + 1 * 2)%nat by lia.
  rewrite Nat.div_add by discriminate. rewrite Nat.add_1_r.
  rewrite <- cons_seq, <- seq_shift. simpl. f_equal.
  rewrite !map_map. apply map_ext. intros k. lia.
Qed.

Lemma range_odd_pos (n i : nat) : In i (range_odd n) -> (1 <= i)%nat.
Proof.
  unfold range_odd. intros H. apply in_map_iff in H as (k & <- & _). lia.
Qed.

Lemma pair_step_first t1 t2 rest acc :
  pair_step (t1 :: t2 :: rest) acc 1 = pair_acc acc (t1, t2).
Proof.
  unfold pair_step, pair_acc, is_round_trip, is_win, profit_of. simpl.
  destruct (t_type t1), (t_type t2); reflexivity.
Qed.

Lemma pair_step_shift t1 t2 rest acc i :
  (1 <= i)%nat ->
  pair_step (t1 :: t2 :: rest) acc (S (S i)) = pair_step rest acc i.
Proof.
  intros Hi. unfold pair_step.
  replace (S (S i) - 1)%nat with (S (S (i - 1))) by lia. reflexivity.
Qed.

Lemma fold_pair_step_shift t1 t2 rest (ixs : list nat) : forall acc,
  (forall i, In i ixs -> (1 <= i)%nat) ->
  fold_left (pair_step (t1 :: t2 :: rest)) (map (fun i => S (S i)) ixs) acc
  = fold_left (pair_step rest) ixs acc.
Proof.
  induction ixs as [|i ixs IH]; intros acc Hpos; simpl; [reflexivity|].
  rewrite pair_step_shift by (apply Hpos; now left).
  apply IH. intros j Hj. apply Hpos. now right.
Qed.

(** The index loop of the program visits exactly the pairs. *)
Lemma count_trades_pairs (log : list Trade) : forall acc,
  fold_left (pair_step log) (range_odd (List.length log)) acc
  = fold_left pair_acc (pairs log) acc.
Proof.
  induction log as [| t | t1 t2 rest IH] using list_pair_ind; intros acc.
  - reflexivity.
  - reflexivity.
  - cbn [List.length pairs]. rewrite range_odd_SS.
    cbn [fold_left]. rewrite pair_step_first.
    rewrite fold_pair_step_shift by apply range_odd_pos.
    apply IH.
Qed.

Lemma fold_pair_acc (ps : list (Trade * Trade)) : forall acc,
  fold_left pair_acc ps acc
  = ((fst acc + Z.of_nat (List.length
                            (filter is_win (filter is_round_trip ps))))%Z,
     (snd acc + Z.of_nat (List.length (filter is_round_trip ps)))%Z).
Proof.
  induction ps as [|p ps IH]; intros [w n]; simpl.
  - now rewrite !Z.add_0_r.
  - rewrite IH. unfold pair_acc.
    destruct (is_round_trip p); simpl; [|reflexivity].
    destruct (is_win p); simpl; f_equal; lia.
Qed.

Lemma count_trades_spec (log : list Trade) :
  count_trades log
  = (Z.of_nat (List.length (winning_trips log)),
     Z.of_nat (List.length (round_trips log))).
Proof.
  unfold count_trades. rewrite count_trades_pairs, fold_pair_acc.
  reflexivity.
Qed.

Lemma pairs_trailing (log : list Trade) (t : Trade) :
  Nat.even (List.length log) = true -> pairs (log ++ [t]) = pairs log.
Proof.
  induction log as [| x | t1 t2 rest IH] using list_pair_ind; intros He.
  - reflexivity.
  - discriminate.
  - cbn [app pairs]. f_equal. apply IH. exact He.
Qed.

Lemma nth_error_pairs (k : nat) : forall (log : list Trade) t1 t2,
  nth_error (pairs log) k = Some (t1, t2) <->
  nth_error log (2 * k) = Some t1 /\ nth_error log (2 * k + 1) = Some t2.
Proof.
  induction k as [|k IH]; intros [|x [|y rest]] t1 t2; simpl;
    try (split; [discriminate|intros [H1 H2]; discriminate]).
  - split.
    + now intros [= -> ->].
    + now intros [[= ->] [= ->]].
  - destruct k; simpl; split; try discriminate; intros [H1 H2]; discriminate.
  - replace (k + S (k + 0))%nat with (S (2 * k)) by lia. simpl.
    replace (k + (k + 0) + 1)%nat with (2 * k + 1)%nat by lia.
    replace (k + (k + 0))%nat with (2 * k)%nat by lia.
    apply IH.
Qed.

Lemma gt0_iff (q : Q) : gt0 q = true <-> 0 < q.
Proof.
  unfold gt0. rewrite negb_true_iff. split.
  - intros H. apply Qnot_le_lt. intros Hle.
    apply Qle_bool_iff in Hle. congruence.
  - intros H. destruct (Qle_bool q 0) eqn:E; [|reflexivity].
    apply Qle_bool_iff in E. exfalso. apply (Qlt_not_le _ _ H E).
Qed.

Lemma win_rate_of_bounds (w n : nat) :
  (w <= n)%nat ->
  0 <= win_rate_of (Z.of_nat w) (Z.of_nat n) /\
  win_rate_of (Z.of_nat w) (Z.of_nat n) <= 1.
Proof.
  intros Hle. unfold win_rate_of.
  destruct (Z.of_nat n >? 0)%Z eqn:Hn.
  - assert (0 < inject_Z (Z.of_nat n)) as Hpos.
    { change 0 with (inject_Z 0). rewrite <- Zlt_Qlt. lia. }
    split.
    + apply Qle_shift_div_l; [exact Hpos|]. rewrite Qmult_0_l.
      change 0 with (inject_Z 0). rewrite <- Zle_Qle. lia.
    + apply Qle_shift_div_r; [exact Hpos|]. rewrite Qmult_1_l.
      rewrite <- Zle_Qle. lia.
  - split; discriminate.
Qed.

(** C8. For every trade log on which [calculate_metrics] returns: the
    trades are paired by consecutive places (2k, 2k+1); a pair is a round
    trip only when it reads Buy then Sell; a round trip is a win exactly
    when [(sell.price - buy.price) * buy.shares > 0]; [total_trades] is
    the number of round trips and [win_rate] is wins / round trips, within
    [0, 1], and 0 when there is no round trip; a trailing single trade
    changes neither the pairs nor the counts. *)
Theorem win_rate_pairing (rf : Q) (b : Backtester) (m : Metrics)
                         (b' : Backtester) :
  calculate_metrics rf b = (Ok m, b') ->
  let log := trades b in
  (forall k t1 t2,
     nth_error (pairs log) k = Some (t1, t2) <->
     nth_error log (2 * k) = Some t1 /\ nth_error log (2 * k + 1) = Some t2) /\
  (forall p, In p (round_trips log) <->
             In p (pairs log) /\ t_type (fst p) = buy /\ t_type (snd p) = sell) /\
  (forall p, In p (winning_trips log) <->
             In p (round_trips log) /\
             0 < (t_price (snd p) - t_price (fst p)) * t_shares (fst p)) /\
  total_trades m = Z.of_nat (List.length (round_trips log)) /\
  win_rate m = match List.length (round_trips log) with
               | O => 0
               | S _ => Qnat (List.length (winning_trips log))
                        / Qnat (List.length (round_trips log))
               end /\
  0 <= win_rate m /\ win_rate m <= 1 /\
  (forall t, Nat.even (List.length log) = true ->
             pairs (log ++ [t]) = pairs log /\
             count_trades (log ++ [t]) = count_trades log).
Proof.
  intros Hm log.
  apply calculate_metrics_inv in Hm
    as (_ & _ & pv & t & rest & lastv & tl & _ & Hlog & _ & ->).
  fold log in Hlog. rewrite <- Hlog.
  unfold metrics_of. cbn [total_trades win_rate].
  rewrite count_trades_spec. cbn [fst snd].
  assert (List.length (winning_trips log) <= List.length (round_trips log))%nat
    as Hle by apply filter_length_le.
  split; [intros k t1 t2; apply nth_error_pairs|].
  split.
  { intros p. unfold round_trips. rewrite filter_In.
    unfold is_round_trip.
    destruct (t_type (fst p)), (t_type (snd p)); simpl;
      intuition congruence. }
  split.
  { intros p. unfold winning_trips. rewrite filter_In.
    unfold is_win, profit_of. now rewrite gt0_iff. }
  split; [reflexivity|].
  split.
  { unfold win_rate_of.
    destruct (List.length (round_trips log)) as [|n] eqn:E; reflexivity. }
  split; [apply win_rate_of_bounds, Hle|].
  split; [apply win_rate_of_bounds, Hle|].
  intros t0 He. split.
  - now apply pairs_trailing.
  - rewrite !count_trades_spec. unfold winning_trips, round_trips.
    now rewrite pairs_trailing.
Qed.

Lemma win_rate_pairing_witness :
  exists m,
    calculate_metrics 0 scenario_after = (Ok m, scenario_after) /\
    total_trades m = 1%Z /\ 0 <= win_rate m /\ win_rate m <= 1.
Proof.
  exists (metrics_of 0 (values scenario_values) scenario_trades 108).
  assert (calculate_metrics 0 scenario_after
          = (Ok (metrics_of 0 (values scenario_values) scenario_trades 108),
             scenario_after)) as H.
  { apply (calculate_metrics_ok 0 scenario_after scenario_values
             (mkTrade 2%Z buy 12 8) [mkTrade 4%Z sell 13 8]
             108 [108; 116; 100; 100]); reflexivity. }
  split; [exact H|].
  destruct (win_rate_pairing 0 scenario_after _ scenario_after H)
    as (_ & _ & _ & Ht & _ & H0 & H1 & _).
  repeat split; assumption.
Defined.

(* ===================================================================== *)
(** ** Maximum drawdown *)
(* ===================================================================== *)

Lemma nondecreasing_head (x y : Q) (r : list Q) :
  x == y -> nondecreasing (x :: r) <-> nondecreasing (y :: r).
Proof.
  intros E. destruct r as [|z r]; simpl; [tauto|]. now rewrite E.
Qed.

Lemma drawdown_entry (x m : Q) :
  0 < m -> x <= m ->
  (x - m) / m <= 0 /\ ((x - m) / m == 0 <-> m <= x).
Proof.
  intros Hm Hx. split.
  - apply Qle_shift_div_r; [exact Hm|]. rewrite Qmult_0_l. Lqa.lra.
  - split.
    + intros E.
      assert ((x - m) / m * m == x - m) as F.
      { field. intros Z0. rewrite Z0 in Hm. discriminate. }
      rewrite E, Qmult_0_l in F. Lqa.lra.
    + intros Hle. assert (x - m == 0) as Z0 by Lqa.lra.
      rewrite Z0. unfold Qdiv. apply Qmult_0_l.
Qed.

Lemma Qmin_nonpos_zero (a b : Q) :
  a <= 0 -> b <= 0 -> Qmin a b <= 0 /\ (Qmin a b == 0 <-> a == 0 /\ b == 0).
Proof.
  intros Ha Hb.
  destruct (Q.min_spec a b) as [[Hlt E]|[Hle E]]; rewrite E; split;
    try assumption; split; try tauto; intros Z0; split; Lqa.lra.
Qed.

(** The minimum of the drawdowns that follow a first finite one [q]. *)
Lemma xmin_drawdown_from (v : list Q) : forall m q,
  0 < m -> (forall x, In x v -> 0 < x) -> q <= 0 ->
  exists dd,
    xmin (Fin q :: drawdown_from m v) = Fin dd /\
    dd <= 0 /\
    (dd == 0 <-> q == 0 /\ nondecreasing (m :: v)).
Proof.
  induction v as [|x r IH]; intros m q Hm Hpos Hq.
  - exists q. simpl. repeat split; try assumption; tauto.
  - unfold drawdown_from. cbn [cummax_from combine map fst snd].
    set (m' := Qmax m x).
    assert (m <= m') as Hmm by apply Q.le_max_l.
    assert (x <= m') as Hxm by apply Q.le_max_r.
    assert (0 < m') as Hm' by Lqa.lra.
    unfold xdiv at 1. rewrite (Qeq_bool_false_pos m' Hm').
    destruct (drawdown_entry x m' Hm' Hxm) as [Hq' Hz'].
    destruct (IH m' ((x - m') / m') Hm'
                 (fun y Hy => Hpos y (or_intror Hy)) Hq')
      as (dd' & Hmin & Hdd' & Hiff).
    fold (drawdown_from m' r).
    exists (Qmin q dd').
    change (xmin (Fin q :: Fin ((x - m') / m') :: drawdown_from m' r))
      with (match xmin (Fin ((x - m') / m') :: drawdown_from m' r) with
            | Inf => Inf
            | NaN => Fin q
            | Fin d => Fin (Qmin q d)
            end).
    rewrite Hmin.
    destruct (Qmin_nonpos_zero q dd' Hq Hdd') as [Hle Hz].
    split; [reflexivity|]. split; [exact Hle|].
    rewrite Hz, Hiff, Hz'.
    cbn [nondecreasing].
    split.
    + intros (Hq0 & Hmx & Hnd).
      assert (m' == x) as E by (unfold m'; apply Q.max_r; Lqa.lra).
      split; [exact Hq0|]. split; [Lqa.lra|].
      now apply (nondecreasing_head m' x r E).
    + intros (Hq0 & Hmx & Hnd).
      assert (m' == x) as E by (unfold m'; apply Q.max_r; exact Hmx).
      split; [exact Hq0|]. split; [Lqa.lra|].
      now apply (nondecreasing_head m' x r E).
Qed.

Lemma max_drawdown_spec (v : list Q) :
  v <> [] -> (forall x, In x v -> 0 < x) ->
  exists dd,
    xmin (drawdown v) = Fin dd /\ dd <= 0 /\ (dd == 0 <-> nondecreasing v).
Proof.
  destruct v as [|x r]; [congruence|]. intros _ Hpos.
  assert (0 < x) as Hx by (apply Hpos; now left).
  unfold drawdown. cbn [cummax combine map fst snd].
  unfold xdiv at 1. rewrite (Qeq_bool_false_pos x Hx).
  fold (drawdown_from x r).
  destruct (xmin_drawdown_from r x ((x - x) / x) Hx
              (fun y Hy => Hpos y (or_intror Hy)))
    as (dd & Hmin & Hle & Hiff).
  { apply (proj1 (drawdown_entry x x Hx (Qle_refl x))). }
  exists dd. split; [exact Hmin|]. split; [exact Hle|].
  rewrite Hiff. split; [tauto|]. intros Hnd. split; [|exact Hnd].
  apply (proj2 (drawdown_entry x x Hx (Qle_refl x))), Qle_refl.
Qed.

(** C7. For a stored value series that is not empty and strictly
    positive, [calculate_metrics] returns, and its [max_drawdown] is a
    number [dd <= 0], with [dd == 0] exactly when the value series never
    decreases. *)
Theorem max_drawdown_nonpositive (rf : Q) (b : Backtester) (pv : Series Q) :
  portfolio_value b = Some pv ->
  pv <> [] ->
  (forall d x, In (d, x) pv -> 0 < x) ->
  trades b <> [] ->
  0 <= rf ->
  exists m dd,
    calculate_metrics rf b = (Ok m, b) /\
    max_drawdown m = Fin dd /\
    dd <= 0 /\
    (dd == 0 <-> nondecreasing (values pv)).
Proof.
  intros Hpv Hne Hpos Htr Hrf.
  destruct (trades b) as [|t log] eqn:Hlog; [congruence|].
  assert (values pv <> []) as Hv.
  { destruct pv; [congruence|discriminate]. }
  destruct (rev (values pv)) as [|lastv rest] eqn:Hlast.
  { exfalso. apply Hv. rewrite <- (rev_involutive (values pv)), Hlast.
    reflexivity. }
  assert (lt0 rf = false) as Hlt.
  { unfold lt0. apply negb_false_iff. now apply Qle_bool_iff. }
  destruct (max_drawdown_spec (values pv) Hv) as (dd & Hmin & Hle & Hiff).
  { intros x Hin. unfold values in Hin.
    apply in_map_iff in Hin as ([d y] & <- & Hin). now apply (Hpos d). }
  exists (metrics_of rf (values pv) (t :: log) lastv), dd.
  split; [now apply (calculate_metrics_ok rf b pv t log lastv rest)|].
  repeat split; try assumption; now apply Hiff.
Qed.

Lemma max_drawdown_nonpositive_witness :
  exists m dd,
    calculate_metrics 0 scenario_after = (Ok m, scenario_after) /\
    max_drawdown m = Fin dd /\ dd <= 0.
Proof.
  destruct (max_drawdown_nonpositive 0 scenario_after scenario_values)
    as (m & dd & Hm & Hdd & Hle & _).
  - reflexivity.
  - discriminate.
  - intros d x Hin. each_item Hin.
  - discriminate.
  - discriminate.
  - exists m, dd. repeat split; assumption.
Defined.

(* ===================================================================== *)
(** ** Crossover signals *)
(* ===================================================================== *)

Lemma nth_error_combine {A B} (a : list A) : forall (b : list B) i,
  nth_error (combine a b) i =
  match nth_error a i, nth_error b i with
  | Some x, Some y => Some (x, y)
  | _, _ => None
  end.
Proof.
  induction a as [|x a IH]; intros [|y b] [|i]; simpl; try reflexivity.
  - now destruct (nth_error a i).
  - apply IH.
Qed.

Lemma nth_error_shift1 {A} (xs : list A) (i : nat) :
  (i < List.length xs)%nat ->
  nth_error (shift1 xs) i =
  Some (match i with O => None | S j => nth_error xs j end).
Proof.
  intros Hi. unfold shift1. rewrite nth_error_firstn.
  apply Nat.ltb_lt in Hi. rewrite Hi.
  destruct i as [|j]; simpl; [reflexivity|].
  rewrite nth_error_map.
  apply Nat.ltb_lt in Hi.
  destruct (nth_error xs j) eqn:E; [reflexivity|].
  apply nth_error_None in E. lia.
Qed.

Lemma length_series_sub (a b : list Q) :
  List.length a = List.length b ->
  List.length (series_sub a b) = List.length a.
Proof.
  intros H. unfold series_sub. rewrite length_map, length_combine. lia.
Qed.

Lemma nth_error_series_sub (a b : list Q) (i : nat) :
  nth_error (series_sub a b) i =
  match nth_error a i, nth_error b i with
  | Some x, Some y => Some (x - y)
  | _, _ => None
  end.
Proof.
  unfold series_sub. rewrite nth_error_map, nth_error_combine.
  destruct (nth_error a i), (nth_error b i); reflexivity.
Qed.

Lemma lt0_iff (q : Q) : lt0 q = true <-> q < 0.
Proof.
  unfold lt0. rewrite negb_true_iff. split.
  - intros H. apply Qnot_le_lt. intros Hle.
    apply Qle_bool_iff in Hle. congruence.
  - intros H. destruct (Qle_bool 0 q) eqn:E; [|reflexivity].
    apply Qle_bool_iff in E. exfalso. apply (Qlt_not_le _ _ H E).
Qed.

Lemma nth_error_mask_and (a b : list bool) (i : nat) :
  nth_error (mask_and a b) i =
  match nth_error a i, nth_error b i with
  | Some x, Some y => Some (x && y)
  | _, _ => None
  end.
Proof.
  unfold mask_and. rewrite nth_error_map, nth_error_combine.
  destruct (nth_error a i), (nth_error b i); reflexivity.
Qed.

Lemma nth_error_mask_set (mask : list bool) (v : Z) (signals : list Z) i :
  nth_error (mask_set mask v signals) i =
  match nth_error mask i, nth_error signals i with
  | Some m, Some x => Some (if m then v else x)
  | _, _ => None
  end.
Proof.
  unfold mask_set. rewrite nth_error_map, nth_error_combine.
  destruct (nth_error mask i), (nth_error signals i); reflexivity.
Qed.

(** One place of the output of [generate_signals]. *)
Lemma generate_signals_at (fast slow : Series Q) (i : nat) d f d' s :
  List.length fast = List.length slow ->
  nth_error fast i = Some (d, f) ->
  nth_error slow i = Some (d', s) ->
  let diff := series_sub (values fast) (values slow) in
  let signals0 := map (fun _ => 0%Z) (index fast) in
  let signals1 := mask_set (mask_and (map le0 (shift1 diff)) (map gt0 diff))
                           1%Z signals0 in
  let signals2 := mask_set (mask_and (map ge0 (shift1 diff)) (map lt0 diff))
                           (-1)%Z signals1 in
  nth_error (mkSeries signals2 (index fast)) i
  = Some (d, signal_at (match i with
                        | O => None
                        | S j => diff_at fast slow j
                        end) (f - s)).
Proof.
  intros Hlen Hf Hs diff signals0 signals1 signals2.
  assert (nth_error (values fast) i = Some f) as Hvf
    by (unfold values; now rewrite nth_error_map, Hf).
  assert (nth_error (values slow) i = Some s) as Hvs
    by (unfold values; now rewrite nth_error_map, Hs).
  assert (nth_error (index fast) i = Some d) as Hd
    by (unfold index; now rewrite nth_error_map, Hf).
  assert (nth_error diff i = Some (f - s)) as Hdiff
    by (unfold diff; now rewrite nth_error_series_sub, Hvf, Hvs).
  assert (i < List.length diff)%nat as Hi
    by (apply nth_error_Some; congruence).
  assert (nth_error (shift1 diff) i
          = Some (match i with O => None | S j => diff_at fast slow j end))
    as Hprev.
  { rewrite (nth_error_shift1 diff i Hi). f_equal.
    destruct i as [|j]; [reflexivity|].
    unfold diff. now rewrite nth_error_series_sub. }
  set (prev := match i with O => None | S j => diff_at fast slow j end) in *.
  assert (nth_error signals0 i = Some 0%Z) as H0
    by (unfold signals0; now rewrite nth_error_map, Hd).
  assert (nth_error signals1 i
          = Some (if le0 prev && gt0 (f - s) then 1%Z else 0%Z)) as H1.
  { unfold signals1. rewrite nth_error_mask_set, nth_error_mask_and.
    now rewrite !nth_error_map, Hprev, Hdiff, H0. }
  assert (nth_error signals2 i = Some (signal_at prev (f - s))) as H2.
  { unfold signals2. rewrite nth_error_mask_set, nth_error_mask_and.
    now rewrite !nth_error_map, Hprev, Hdiff, H1. }
  unfold mkSeries. now rewrite nth_error_combine, Hd, H2.
Qed.

Lemma le0_Some (p : Q) : le0 (Some p) = true <-> p <= 0.
Proof. apply Qle_bool_iff. Qed.

Lemma ge0_Some (p : Q) : ge0 (Some p) = true <-> 0 <= p.
Proof. apply Qle_bool_iff. Qed.

Lemma not_up_and_down (fast slow : Series Q) (i : nat) :
  ~ (crosses_up fast slow i /\ crosses_down fast slow i).
Proof.
  intros [(j & p & c & _ & _ & Hc & _ & Hpos)
          (j' & p' & c' & _ & _ & Hc' & _ & Hneg)].
  rewrite Hc in Hc'. injection Hc' as <-. Lqa.lra.
Qed.

(** What [signal_at] says, read on the series. *)
Lemma signal_at_spec (fast slow : Series Q) (i : nat) (c : Q) :
  diff_at fast slow i = Some c ->
  (forall j, i = S j -> exists p, diff_at fast slow j = Some p) ->
  let z := signal_at (match i with
                      | O => None
                      | S j => diff_at fast slow j
                      end) c in
  (z = 1%Z <-> crosses_up fast slow i) /\
  (z = (-1)%Z <-> crosses_down fast slow i) /\
  (z = 0%Z <-> ~ crosses_up fast slow i /\ ~ crosses_down fast slow i).
Proof.
  intros Hc Hprev z.
  assert (crosses_up fast slow i <->
          exists j p, i = S j /\ diff_at fast slow j = Some p /\
                      p <= 0 /\ 0 < c) as Hup.
  { split.
    - intros (j & p & c' & Hi & Hp & Hc' & H1 & H2).
      rewrite Hc in Hc'. injection Hc' as <-. now exists j, p.
    - intros (j & p & Hi & Hp & H1 & H2). now exists j, p, c. }
  assert (crosses_down fast slow i <->
          exists j p, i = S j /\ diff_at fast slow j = Some p /\
                      0 <= p /\ c < 0) as Hdown.
  { split.
    - intros (j & p & c' & Hi & Hp & Hc' & H1 & H2).
      rewrite Hc in Hc'. injection Hc' as <-. now exists j, p.
    - intros (j & p & Hi & Hp & H1 & H2). now exists j, p, c. }
  rewrite Hup, Hdown. clear Hup Hdown. subst z.
  destruct i as [|j].
  - unfold signal_at. simpl.
    repeat split; try discriminate; try reflexivity;
      try (intros (j & p & Hj & _); discriminate);
      try (intros _ (j & p & Hj & _); discriminate).
  - destruct (Hprev j eq_refl) as [p Hp]. rewrite Hp.
    unfold signal_at.
    destruct (ge0 (Some p) && lt0 c) eqn:Hd;
      [|destruct (le0 (Some p) && gt0 c) eqn:Hu].
    + apply andb_true_iff in Hd as [Hd1 Hd2].
      apply ge0_Some in Hd1. apply lt0_iff in Hd2.
      repeat split; try discriminate.
      * intros (j' & p' & _ & _ & _ & Hpos). Lqa.lra.
      * intros _. now exists j, p.
      * intros [_ Hn]. exfalso. apply Hn. now exists j, p.
    + apply andb_true_iff in Hu as [Hu1 Hu2].
      apply le0_Some in Hu1. apply gt0_iff in Hu2.
      repeat split; try discriminate.
      * intros _. now exists j, p.
      * intros (j' & p' & _ & _ & _ & Hneg). Lqa.lra.
      * intros [Hn _]. exfalso. apply Hn. now exists j, p.
    + repeat split; try discriminate.
      * intros (j' & p' & [= <-] & Hp' & H1 & H2).
        rewrite Hp in Hp'. injection Hp' as <-.
        apply le0_Some in H1. apply gt0_iff in H2.
        rewrite H1, H2 in Hu. discriminate.
      * intros (j' & p' & [= <-] & Hp' & H1 & H2).
        rewrite Hp in Hp'. injection Hp' as <-.
        apply ge0_Some in H1. apply lt0_iff in H2.
        rewrite H1, H2 in Hd. discriminate.
      * intros (j' & p' & [= <-] & Hp' & H1 & H2).
        rewrite Hp in Hp'. injection Hp' as <-.
        apply le0_Some in H1. apply gt0_iff in H2.
        rewrite H1, H2 in Hu. discriminate.
      * intros (j' & p' & [= <-] & Hp' & H1 & H2).
        rewrite Hp in Hp'. injection Hp' as <-.
        apply ge0_Some in H1. apply lt0_iff in H2.
        rewrite H1, H2 in Hd. discriminate.
Qed.

Lemma diff_at_defined (fast slow : Series Q) (i : nat) :
  List.length fast = List.length slow -> (i < List.length fast)%nat ->
  exists c, diff_at fast slow i = Some c.
Proof.
  intros Hlen Hi. unfold diff_at, values. rewrite !nth_error_map.
  destruct (nth_error fast i) as [[d f]|] eqn:Ef.
  - destruct (nth_error slow i) as [[d' s]|] eqn:Es.
    + simpl. now exists (f - s).
    + apply nth_error_None in Es. lia.
  - apply nth_error_None in Ef. lia.
Qed.

(** C2. For aligned series, [generate_signals] returns a series on the
    index of its inputs whose value at place [i] is 1 (Buy) exactly when
    [diff[i-1] <= 0] and [diff[i] > 0], -1 (Sell) exactly when
    [diff[i-1] >= 0] and [diff[i] < 0], and 0 (Hold) exactly when neither
    holds; the value at place 0 is 0; no place is both a Buy and a
    Sell. *)
Theorem crossover_signals (fast slow : Series Q) :
  aligned fast slow ->
  exists signals,
    generate_signals fast slow = Ok signals /\
    index signals = index fast /\
    forall i, (i < List.length fast)%nat ->
      exists d z,
        nth_error signals i = Some (d, z) /\
        nth_error (index fast) i = Some d /\
        (z = 1%Z <-> crosses_up fast slow i) /\
        (z = (-1)%Z <-> crosses_down fast slow i) /\
        (z = 0%Z <-> ~ crosses_up fast slow i /\ ~ crosses_down fast slow i) /\
        (i = 0%nat -> z = 0%Z) /\
        ~ (crosses_up fast slow i /\ crosses_down fast slow i).
Proof.
  intros [Hlen Hidx]. unfold generate_signals.
  rewrite Hlen, Nat.eqb_refl. simpl.
  rewrite (proj2 (index_equals_eq _ _) Hidx). simpl.
  eexists. split; [reflexivity|]. split.
  - apply index_mkSeries. unfold mask_set, mask_and, shift1, series_sub.
    unfold index, values.
    repeat (rewrite ?length_map, ?length_combine, ?length_firstn;
            cbn [List.length]).
    lia.
  - intros i Hi.
    destruct (nth_error fast i) as [[d f]|] eqn:Ef;
      [|apply nth_error_None in Ef; lia].
    destruct (nth_error slow i) as [[d' s]|] eqn:Es;
      [|apply nth_error_None in Es; lia].
    exists d. eexists. split.
    + apply (generate_signals_at fast slow i d f d' s Hlen Ef Es).
    + split; [unfold index; now rewrite nth_error_map, Ef|].
      assert (diff_at fast slow i = Some (f - s)) as Hc.
      { unfold diff_at, values. now rewrite !nth_error_map, Ef, Es. }
      destruct (signal_at_spec fast slow i (f - s) Hc) as (H1 & H2 & H3).
      { intros j ->. apply diff_at_defined; [exact Hlen|lia]. }
      split; [exact H1|]. split; [exact H2|]. split; [exact H3|].
      split; [intros ->; reflexivity|apply not_up_and_down].
Qed.

Lemma crossover_signals_witness :
  exists signals,
    generate_signals [(0%Z, 1); (1%Z, 2); (2%Z, 3); (3%Z, 2); (4%Z, 1)]
                     [(0%Z, 2); (1%Z, 2); (2%Z, 2); (3%Z, 2); (4%Z, 2)]
    = Ok signals.
Proof.
  destruct (crossover_signals
              [(0%Z, 1); (1%Z, 2); (2%Z, 3); (3%Z, 2); (4%Z, 1)]
              [(0%Z, 2); (1%Z, 2); (2%Z, 2); (3%Z, 2); (4%Z, 2)])
    as (signals & H & _).
  - split; reflexivity.
  - exists signals. exact H.
Defined.

(** The scenario of [tests/test_strategy.py]. *)
Example generate_signals_scenario :
  generate_signals [(0%Z, 1); (1%Z, 2); (2%Z, 3); (3%Z, 2); (4%Z, 1)]
                   [(0%Z, 2); (1%Z, 2); (2%Z, 2); (3%Z, 2); (4%Z, 2)]
  = Ok [(0, 0); (1, 0); (2, 1); (3, 0); (4, -1)]%Z.
Proof. reflexivity. Qed.

(* ===================================================================== *)
(** ** Simple moving average *)
(* ===================================================================== *)

Lemma firstn_snoc {A} (l : list A) (d : A) : forall n,
  (n < List.length l)%nat -> firstn (S n) l = firstn n l ++ [nth n l d].
Proof.
  induction l as [|a l IH]; intros [|n] H; simpl in *; try lia.
  - reflexivity.
  - f_equal. apply IH. lia.
Qed.

Lemma skipn_nth_cons {A} (l : list A) (d : A) : forall n,
  (n < List.length l)%nat -> skipn n l = nth n l d :: skipn (S n) l.
Proof.
  induction l as [|a l IH]; intros [|n] H; simpl in *; try lia.
  - reflexivity.
  - apply IH. lia.
Qed.

Lemma Qsum_app (a b : list Q) : Qsum (a ++ b) == Qsum a + Qsum b.
Proof.
  induction a as [|x a IH]; simpl.
  - now rewrite Qplus_0_l.
  - rewrite IH. apply Qplus_assoc.
Qed.

Lemma Qsum_seg_right (lo hi : nat) (xs : list Q) :
  (lo <= hi)%nat -> (hi < List.length xs)%nat ->
  Qsum (seg lo (S hi) xs) == Qsum (seg lo hi xs) + nth hi xs 0.
Proof.
  intros H1 H2. unfold seg.
  replace (S hi - lo)%nat with (S (hi - lo)) by lia.
  rewrite (firstn_snoc _ 0) by (rewrite length_skipn; lia).
  rewrite Qsum_app, nth_skipn.
  replace (lo + (hi - lo))%nat with hi by lia.
  simpl. now rewrite Qplus_0_r.
Qed.

Lemma Qsum_seg_left (lo hi : nat) (xs : list Q) :
  (lo < hi)%nat -> (lo < List.length xs)%nat ->
  Qsum (seg lo hi xs) == nth lo xs 0 + Qsum (seg (S lo) hi xs).
Proof.
  intros H1 H2. unfold seg.
  rewrite (skipn_nth_cons xs 0 lo) by lia.
  replace (hi - lo)%nat with (S (hi - S lo)) by lia.
  rewrite firstn_cons. simpl. apply Qeq_refl.
Qed.

Lemma roll_mean_cons (w : nat) (data : list Q) i sum_x nobs x rest :
  roll_mean w data i sum_x nobs (x :: rest) =
  let fresh_window := ((i =? 0) || (w <=? 1))%nat in
  let leaving := (w <=? i)%nat in
  let sum1 := if leaving then sum_x - nth (i - w) data 0 else sum_x in
  let nobs1 := if leaving then pred nobs else nobs in
  let sum2 := if fresh_window then x else sum1 + x in
  let nobs2 := if fresh_window then 1%nat else S nobs1 in
  (sum2 / Qnat nobs2) :: roll_mean w data (S i) sum2 nobs2 rest.
Proof. reflexivity. Qed.

Lemma length_roll_mean (w : nat) (data rest : list Q) : forall i sum_x nobs,
  List.length (roll_mean w data i sum_x nobs rest) = List.length rest.
Proof.
  induction rest as [|x rest IH]; intros i sum_x nobs; simpl;
    [reflexivity|]. now rewrite IH.
Qed.

(** The running sum is the sum of the window that ends at the place being
    written, and the count is the size of that window. *)
Lemma roll_mean_nth (w : nat) (data : list Q) :
  (1 <= w)%nat ->
  forall rest i sum_x nobs,
    skipn i data = rest ->
    sum_x == Qsum (seg (i - w) i data) ->
    nobs = Nat.min i w ->
    forall k x, nth_error rest k = Some x ->
      exists y,
        nth_error (roll_mean w data i sum_x nobs rest) k = Some y /\
        y == Qsum (seg (i + k + 1 - w) (i + k + 1) data)
             / Qnat (Nat.min (i + k + 1) w).
Proof.
  intros Hw.
  induction rest as [|x0 rest IH]; intros i sum_x nobs Hskip Hsum Hn k x Hk.
  - destruct k; discriminate.
  - assert (i < List.length data)%nat as Hi.
    { apply (f_equal (@List.length Q)) in Hskip.
      rewrite length_skipn in Hskip. simpl in Hskip. lia. }
    assert (nth i data 0 = x0) as Hx0.
    { rewrite <- (Nat.add_0_r i), <- nth_skipn, Hskip. reflexivity. }
    assert (skipn (S i) data = rest) as Hskip'.
    { rewrite (skipn_nth_cons data 0 i Hi) in Hskip. now injection Hskip. }
    rewrite roll_mean_cons. cbv zeta.
    set (sum2 := if ((i =? 0) || (w <=? 1))%nat then x0
                 else (if (w <=? i)%nat
                       then sum_x - nth (i - w) data 0 else sum_x) + x0).
    set (nobs2 := if ((i =? 0) || (w <=? 1))%nat then 1%nat
                  else S (if (w <=? i)%nat then pred nobs else nobs)).
    assert (sum2 == Qsum (seg (S i - w) (S i) data)) as Hsum2.
    { unfold sum2.
      destruct (Nat.eqb_spec i 0) as [Hi0|Hi0];
        [|destruct (Nat.leb_spec w 1) as [Hw1|Hw1]]; cbn [orb].
      - subst i. replace (1 - w)%nat with 0%nat by lia.
        rewrite (Qsum_seg_right 0 0 data) by lia.
        unfold seg. simpl. rewrite Hx0. ring.
      - replace (S i - w)%nat with i by lia.
        rewrite (Qsum_seg_right i i data) by lia.
        unfold seg. rewrite Nat.sub_diag. simpl. rewrite Hx0. ring.
      - destruct (Nat.leb_spec w i) as [Hle|Hgt].
        + rewrite Hsum.
          replace (S i - w)%nat with (S (i - w)) by lia.
          rewrite (Qsum_seg_right (S (i - w)) i data) by lia.
          rewrite (Qsum_seg_left (i - w) i data) by lia.
          rewrite Hx0. ring.
        + rewrite Hsum.
          replace (S i - w)%nat with (i - w)%nat by lia.
          rewrite (Qsum_seg_right (i - w) i data) by lia.
          rewrite Hx0. reflexivity. }
    assert (nobs2 = Nat.min (S i) w) as Hn2.
    { unfold nobs2.
      destruct (Nat.eqb_spec i 0); destruct (Nat.leb_spec w 1);
        destruct (Nat.leb_spec w i); cbn [orb]; lia. }
    destruct k as [|k].
    + exists (sum2 / Qnat nobs2). split; [reflexivity|].
      rewrite Hsum2, Hn2.
      replace (i + 0 + 1)%nat with (S i) by lia. reflexivity.
    + destruct (IH (S i) sum2 nobs2 Hskip' Hsum2 Hn2 k x Hk) as (y & Hy & Ey).
      exists y. split; [exact Hy|].
      replace (i + S k + 1)%nat with (S i + k + 1)%nat by lia. exact Ey.
Qed.

Lemma window_seg (p : Z) (xs : list Q) (i : nat) :
  (1 <= p)%Z -> (i < List.length xs)%nat ->
  window p xs i = seg (i + 1 - Z.to_nat p) (i + 1) xs /\
  List.length (window p xs i) = Nat.min (i + 1) (Z.to_nat p).
Proof.
  intros Hp Hi. unfold window, seg.
  replace (Z.to_nat (Z.max 0 (Z.of_nat i - p + 1)))
    with (i + 1 - Z.to_nat p)%nat by lia.
  split; [reflexivity|].
  rewrite length_firstn, length_skipn. lia.
Qed.

(** C6. For every price series and every period [p >= 1],
    [calculate_sma] returns a series with the length and the index of the
    input whose value at place [i] is the mean of
    [prices[max(0, i - p + 1) .. i]]; for [p = 1] it is the input value. *)
Theorem sma_window_mean (prices : Series Q) (p : Z) :
  (1 <= p)%Z ->
  exists sma,
    calculate_sma prices p = Ok sma /\
    List.length sma = List.length prices /\
    index sma = index prices /\
    forall i d x, nth_error prices i = Some (d, x) ->
      exists y,
        nth_error sma i = Some (d, y) /\
        y == window_mean p (values prices) i /\
        (p = 1%Z -> y == x).
Proof.
  intros Hp. unfold calculate_sma.
  assert ((p <? 1)%Z = false) as Hlt by (apply Z.ltb_ge; lia).
  rewrite Hlt.
  set (v := values prices).
  set (out := roll_mean (Z.to_nat p) v 0 0 0 v).
  assert (List.length out = List.length (index prices)) as Hlen.
  { unfold out. rewrite length_roll_mean. unfold v, values, index.
    now rewrite !length_map. }
  exists (mkSeries out (index prices)).
  split; [reflexivity|].
  split.
  { unfold mkSeries. rewrite length_combine, Hlen.
    unfold index. rewrite length_map. lia. }
  split; [now apply index_mkSeries|].
  intros i d x Hnth.
  assert (nth_error v i = Some x) as Hv
    by (unfold v, values; now rewrite nth_error_map, Hnth).
  assert (nth_error (index prices) i = Some d) as Hd
    by (unfold index; now rewrite nth_error_map, Hnth).
  assert (i < List.length v)%nat as Hi by (apply nth_error_Some; congruence).
  destruct (roll_mean_nth (Z.to_nat p) v ltac:(lia) v 0%nat 0 0%nat
              eq_refl ltac:(reflexivity) eq_refl i x Hv)
    as (y & Hy & Ey).
  fold out in Hy. simpl in Ey.
  exists y. split; [now apply nth_error_mkSeries|].
  destruct (window_seg p v i Hp Hi) as [Ew El].
  split.
  - unfold window_mean. fold v. rewrite El, Ew. exact Ey.
  - intros ->. rewrite Ey.
    change (Z.to_nat 1) with 1%nat.
    replace (i + 1 - 1)%nat with i by lia.
    replace (Nat.min (i + 1) 1) with 1%nat by lia.
    replace (i + 1)%nat with (S i) by lia.
    rewrite (Qsum_seg_right i i v) by lia.
    unfold seg. rewrite Nat.sub_diag. simpl.
    rewrite (nth_error_nth v i 0 Hv). unfold Qnat. simpl.
    field.
Qed.

Lemma sma_window_mean_witness :
  exists sma,
    calculate_sma [(0%Z, 1); (1%Z, 2); (2%Z, 3); (3%Z, 4); (4%Z, 5)] 3
    = Ok sma.
Proof.
  destruct (sma_window_mean
              [(0%Z, 1); (1%Z, 2); (2%Z, 3); (3%Z, 4); (4%Z, 5)] 3)
    as (sma & H & _).
  - discriminate.
  - exists sma. exact H.
Defined.

(** The scenario of [tests/test_strategy.py]: 1, 1.5, 2, 3, 4. *)
Example calculate_sma_scenario :
  exists sma,
    calculate_sma [(0%Z, 1); (1%Z, 2); (2%Z, 3); (3%Z, 4); (4%Z, 5)] 3
    = Ok sma /\
    index sma = [0; 1; 2; 3; 4]%Z /\
    Forall2 Qeq (values sma) [1; 3 # 2; 2; 3; 4].
Proof.
  eexists. split; [reflexivity|]. split; [reflexivity|].
  repeat constructor.
Qed.

(* ===================================================================== *)
(** ** Outcomes of [run] *)
(* ===================================================================== *)

Lemma extends_refl (b : Backtester) : extends b b [].
Proof. unfold extends. now rewrite app_nil_r. Qed.

Lemma extends_trans b1 b2 b3 new1 new2 :
  extends b1 b2 new1 -> extends b2 b3 new2 -> extends b1 b3 (new1 ++ new2).
Proof.
  intros (A1 & A2 & A3 & A4) (B1 & B2 & B3 & B4). unfold extends.
  rewrite B1, B2, B3, B4, A1, A2, A3, A4. now rewrite app_assoc.
Qed.

Lemma tick_case_extends d p l b l1 b1 :
  tick_case d p l b l1 b1 ->
  exists new, extends b b1 new /\ (List.length new <= 1)%nat.
Proof.
  intros [Hflat Hnz | Hlong | ].
  - eexists. split; [repeat split|]; simpl; auto.
  - eexists. split; [repeat split|]; simpl; auto.
  - exists []. split; [apply extends_refl|simpl; lia].
Qed.

(** A tick that raises leaves the simulator as it was. *)
Lemma tick_raise signals l d p b e b' :
  tick signals l (d, p) b = (Raise e, b') ->
  b' = b /\ raise_reason signals [(d, p)] e.
Proof.
  unfold tick, bind, loc_scalar, raise_reason.
  destruct (loc signals d) as [|signal [|s2 rest]] eqn:Hloc; cbv beta iota.
  - unfold raise. intros [= <- <-]. split; [reflexivity|].
    left. split; [reflexivity|]. exists d, p. split; [now left|exact Hloc].
  - unfold ret at 1. unfold trade_step.
    destruct ((signal =? 1)%Z && (position l =? 0)%Z)%bool eqn:Hb.
    + apply andb_true_iff in Hb as [Hs _]. apply Z.eqb_eq in Hs. subst signal.
      destruct (Qeq_bool p 0) eqn:Hz.
      * unfold raise. intros [= <- <-]. split; [reflexivity|].
        right. right. split; [reflexivity|]. exists d, p.
        split; [now left|]. split; [now apply Qeq_bool_iff|exact Hloc].
      * simpl. discriminate.
    + destruct ((signal =? -1)%Z && (position l =? 1)%Z)%bool; simpl;
        discriminate.
  - unfold raise. intros [= <- <-]. split; [reflexivity|].
    right. left. split; [reflexivity|]. exists d, p.
    split; [now left|rewrite Hloc; simpl; lia].
Qed.

Lemma raise_reason_incl signals items items' e :
  (forall x, In x items -> In x items') ->
  raise_reason signals items e -> raise_reason signals items' e.
Proof.
  intros Hin [[E (d & p & H & R)]|[[E (d & p & H & R)]|[E (d & p & H & R)]]].
  - left. split; [exact E|]. exists d, p. auto.
  - right. left. split; [exact E|]. exists d, p. auto.
  - right. right. split; [exact E|]. exists d, p. auto.
Qed.

(** Whatever the loop does, it only appends to the log; when it raises,
    the reason lies in the items. *)
Lemma loop_outcome signals items : forall l b o b',
  loop signals l items b = (o, b') ->
  (exists new, extends b b' new /\
               (List.length new <= List.length items)%nat) /\
  (forall e, o = Raise e -> raise_reason signals items e).
Proof.
  induction items as [|[d p] items IH]; intros l b o b' H; cbn [loop] in H.
  - unfold ret in H. injection H as <- <-. split.
    + exists []. split; [apply extends_refl|simpl; lia].
    + discriminate.
  - unfold bind in H.
    destruct (tick signals l (d, p) b) as [[l1|e1] b1] eqn:Ht.
    + apply tick_ok_inv in Ht as (signal & l0 & _ & Hs & ->).
      apply trade_step_cases, tick_case_extends in Hs as (new1 & E1 & L1).
      destruct (IH _ _ _ _ H) as [(new2 & E2 & L2) Hr]. split.
      * exists (new1 ++ new2). split; [eapply extends_trans; eassumption|].
        rewrite length_app. simpl. lia.
      * intros e He. apply (raise_reason_incl signals items); [|now apply Hr].
        intros x Hx. now right.
    + injection H as <- <-.
      apply tick_raise in Ht as [-> Hr]. split.
      * exists []. split; [apply extends_refl|simpl; lia].
      * intros e [= <-]. apply (raise_reason_incl signals [(d, p)]); [|exact Hr].
        intros x [<-|[]]. now left.
Qed.

Lemma loc_present {A} (s : Series A) (d : timestamp) :
  In d (index s) -> loc s d <> [].
Proof.
  unfold loc, index. induction s as [|[k v] s IH]; simpl; [tauto|].
  destruct (Z.eqb_spec k d) as [->|Hkd]; simpl.
  - discriminate.
  - intros [Hk|Hin]; [contradiction|now apply IH].
Qed.

Lemma loc_NoDup_short {A} (s : Series A) (d : timestamp) :
  NoDup (index s) -> (List.length (loc s d) <= 1)%nat.
Proof.
  intros Hnd. destruct (in_dec Z.eq_dec d (index s)) as [Hin|Hnin].
  - destruct (loc_unique s d Hnd Hin) as [v ->]. simpl. lia.
  - rewrite (loc_absent s d Hnin). simpl. lia.
Qed.

Lemma loop_ok_loc signals items : forall l b l' b',
  loop signals l items b = (Ok l', b') ->
  forall d p, In (d, p) items -> exists signal, loc signals d = [signal].
Proof.
  induction items as [|[d0 p0] items IH]; intros l b l' b' H d p Hin;
    cbn [loop] in H; [destruct Hin|].
  unfold bind in H.
  destruct (tick signals l (d0, p0) b) as [[l1|e1] b1] eqn:Ht; [|discriminate].
  destruct Hin as [[= <- <-]|Hin].
  - apply tick_ok_inv in Ht as (signal & _ & Hloc & _). now exists signal.
  - apply (IH _ _ _ _ H d p Hin).
Qed.

Lemma loc_length_count {A} (s : Series A) (d : timestamp) :
  List.length (loc s d) = count_occ Z.eq_dec (index s) d.
Proof.
  unfold loc, index. induction s as [|[k v] s IH]; simpl; [reflexivity|].
  destruct (Z.eqb_spec k d) as [->|Hkd]; destruct (Z.eq_dec _ _);
    simpl; congruence.
Qed.

(** X1. A run that raises has only appended to the trade log (at most one
    trade per tick), and raises in one of four ways: the length check
    (simulator untouched), the index check (simulator untouched), a
    duplicated label met in the loop, or a Buy in state Flat at a price
    that is zero.  It never raises anything else. *)
Theorem run_failure_modes (b : Backtester) (prices : Series Q)
                          (signals : Series Z) (e : exn) (b' : Backtester) :
  run prices signals b = (Raise e, b') ->
  (exists new, extends b b' new /\
               (List.length new <= List.length prices)%nat) /\
  ((List.length prices <> List.length signals /\
    e = ValueError msg_run_length /\ b' = b) \/
   (List.length prices = List.length signals /\
    index prices <> index signals /\
    e = ValueError msg_run_index /\ b' = b) \/
   (aligned prices signals /\ e = ValueError msg_ambiguous /\
    ~ NoDup (index prices)) \/
   (aligned prices signals /\ e = ZeroDivisionError /\
    exists d p, In (d, p) prices /\ p == 0 /\ loc signals d = [1%Z])).
Proof.
  intros Hrun.
  destruct (Nat.eqb_spec (List.length prices) (List.length signals))
    as [Hlen|Hlen].
  - destruct (index_equals (index prices) (index signals)) eqn:Hidx.
    + assert (aligned prices signals) as Hal
        by (split; [exact Hlen|now apply index_equals_eq]).
      rewrite (run_aligned _ _ _ Hal) in Hrun.
      destruct (loop signals (init_locals (initial_capital b)) prices b)
        as [[lf|e1] b1] eqn:Hloop; [discriminate|].
      injection Hrun as <- <-.
      destruct (loop_outcome _ _ _ _ _ _ Hloop) as [Hext Hr].
      split; [exact Hext|].
      destruct (Hr e1 eq_refl)
        as [[E (d & p & Hin & R)]|[[E (d & p & Hin & R)]|[E (d & p & Hin & R)]]].
      * exfalso. apply (loc_present signals d); [|exact R].
        destruct Hal as [_ <-]. unfold index.
        apply (in_map fst) in Hin. exact Hin.
      * right. right. left. split; [exact Hal|]. split; [exact E|].
        intros Hnd. destruct Hal as [_ Hi]. rewrite Hi in Hnd.
        pose proof (loc_NoDup_short signals d Hnd). lia.
      * right. right. right. split; [exact Hal|]. split; [exact E|].
        now exists d, p.
    + unfold run in Hrun. rewrite Hlen, Nat.eqb_refl, Hidx in Hrun.
      simpl in Hrun. unfold raise in Hrun. injection Hrun as <- <-.
      split; [exists []; split; [apply extends_refl|simpl; lia]|].
      right. left. split; [exact Hlen|]. split; [|split; reflexivity].
      intros E. apply index_equals_eq in E. congruence.
  - unfold run in Hrun.
    apply Nat.eqb_neq in Hlen. rewrite Hlen in Hrun.
    simpl in Hrun. unfold raise in Hrun. injection Hrun as <- <-.
    split; [exists []; split; [apply extends_refl|simpl; lia]|].
    left. apply Nat.eqb_neq in Hlen. split; [exact Hlen|split; reflexivity].
Qed.

Lemma run_failure_modes_witness :
  exists new, extends (fresh 5) (fresh 5) new.
Proof.
  destruct (run_failure_modes (fresh 5) [(1%Z, 0)] [(1%Z, 1%Z)]
              ZeroDivisionError (fresh 5) eq_refl)
    as [(new & Hext & _) _].
  exists new. exact Hext.
Defined.

(** X2. With aligned series and no zero price, a label that occurs twice
    in the index makes [run] raise pandas' ambiguous-truth-value
    [ValueError] (the [.loc] lookup yields a sub-series). *)
Theorem run_duplicate_labels (b : Backtester) (prices : Series Q)
                             (signals : Series Z) :
  aligned prices signals ->
  ~ NoDup (index prices) ->
  (forall d p, In (d, p) prices -> ~ p == 0) ->
  exists b', run prices signals b = (Raise (ValueError msg_ambiguous), b').
Proof.
  intros Hal Hdup Hnz. rewrite (run_aligned _ _ _ Hal).
  destruct (loop signals (init_locals (initial_capital b)) prices b)
    as [[lf|e1] b1] eqn:Hloop.
  - exfalso. apply Hdup. apply (NoDup_count_occ' Z.eq_dec).
    intros d Hin. unfold index in Hin. apply in_map_iff in Hin as ([d0 p] & E & Hin).
    simpl in E. subst d0.
    destruct (loop_ok_loc _ _ _ _ _ _ Hloop d p Hin) as [signal Hloc].
    destruct Hal as [_ Hi]. rewrite Hi, <- loc_length_count, Hloc. reflexivity.
  - exists b1. f_equal. f_equal.
    destruct (loop_outcome _ _ _ _ _ _ Hloop) as [_ Hr].
    destruct (Hr e1 eq_refl)
      as [[E (d & p & Hin & R)]|[[E (d & p & Hin & R)]|[E (d & p & Hin & R)]]].
    + exfalso. apply (loc_present signals d); [|exact R].
      destruct Hal as [_ <-]. unfold index.
      apply (in_map fst) in Hin. exact Hin.
    + exact E.
    + exfalso. apply (Hnz d p Hin). apply R.
Qed.

Lemma run_duplicate_labels_witness :
  exists b',
    run [(1%Z, 10); (1%Z, 12)] [(1%Z, 0%Z); (1%Z, 1%Z)] (fresh 100)
    = (Raise (ValueError msg_ambiguous), b').
Proof.
  apply run_duplicate_labels.
  - split; reflexivity.
  - intros H. inversion H as [|x l Hn _]. apply Hn. now left.
  - intros d p Hin E. simpl in Hin.
    destruct Hin as [[= <- <-]|[[= <- <-]|[]]]; discriminate.
Defined.

(* ===================================================================== *)
(** ** Runs on a simulator that has run before *)
(* ===================================================================== *)

(** The loop never reads the simulator: on [graft b bz] it does what it
    does on [bz], in front of which the log of [b] stays. *)
Lemma tick_graft signals l item b bz :
  tick signals l item (graft b bz) =
  (fst (tick signals l item bz), graft b (snd (tick signals l item bz))).
Proof.
  destruct item as [d p]. unfold tick, bind, loc_scalar.
  destruct (loc signals d) as [|signal [|s2 rest]]; cbv beta iota;
    try reflexivity.
  unfold ret at 1 3 5. unfold trade_step.
  destruct ((signal =? 1)%Z && (position l =? 0)%Z)%bool.
  - destruct (Qeq_bool p 0); [reflexivity|].
    unfold bind, append_trade, ret, graft. simpl.
    now rewrite app_assoc.
  - destruct ((signal =? -1)%Z && (position l =? 1)%Z)%bool.
    + unfold bind, append_trade, ret, graft. simpl.
      now rewrite app_assoc.
    + reflexivity.
Qed.

Lemma loop_graft signals items : forall l b bz,
  loop signals l items (graft b bz) =
  (fst (loop signals l items bz), graft b (snd (loop signals l items bz))).
Proof.
  induction items as [|item items IH]; intros l b bz; cbn [loop].
  - reflexivity.
  - unfold bind. rewrite tick_graft.
    destruct (tick signals l item bz) as [[l1|e] b1]; simpl.
    + apply IH.
    + reflexivity.
Qed.

Lemma graft_fresh (b : Backtester) (c : Q) : graft b (fresh c) = b.
Proof. destruct b. unfold graft, fresh. simpl. now rewrite app_nil_r. Qed.

(** A run on a simulator whose log is [trades b] followed by the log of
    [bz] does what the run on [bz] does, with [trades b] in front. *)
Lemma run_graft (b bz : Backtester) (prices : Series Q) (signals : Series Z)
                (r : Result) (bz' : Backtester) :
  initial_capital bz = initial_capital b ->
  run prices signals bz = (Ok r, bz') ->
  run prices signals (graft b bz) =
  (Ok {| r_portfolio_value := r_portfolio_value r;
         r_positions := r_positions r;
         r_trades := trades b ++ r_trades r |},
   {| initial_capital := initial_capital b;
      positions := Some (r_positions r);
      portfolio_value := Some (r_portfolio_value r);
      trades := trades b ++ r_trades r |}).
Proof.
  intros Hc Hrun.
  pose proof (run_ok_aligned _ _ _ _ _ Hrun) as Hal.
  rewrite (run_aligned _ _ _ Hal) in Hrun. rewrite (run_aligned _ _ _ Hal).
  change (initial_capital (graft b bz)) with (initial_capital b).
  rewrite loop_graft. rewrite Hc in Hrun.
  destruct (loop signals (init_locals (initial_capital b)) prices bz)
    as [[lf|e] bz2]; [|discriminate].
  unfold finish_run in Hrun. injection Hrun as <- <-.
  reflexivity.
Qed.

(** X3. Trades accumulate across runs and nothing else carries over: a
    run on a simulator with capital [c] and any earlier log returns the
    value and position series that a fresh simulator with capital [c]
    returns, and the earlier log followed by the fresh run's trades. *)
Theorem run_accumulates (b : Backtester) (prices : Series Q)
                        (signals : Series Z) (r : Result) (b1 : Backtester) :
  run prices signals (fresh (initial_capital b)) = (Ok r, b1) ->
  run prices signals b =
  (Ok {| r_portfolio_value := r_portfolio_value r;
         r_positions := r_positions r;
         r_trades := trades b ++ r_trades r |},
   {| initial_capital := initial_capital b;
      positions := Some (r_positions r);
      portfolio_value := Some (r_portfolio_value r);
      trades := trades b ++ r_trades r |}).
Proof.
  intros Hrun.
  rewrite <- (graft_fresh b (initial_capital b)) at 1.
  apply (run_graft b (fresh (initial_capital b)) prices signals r b1
                   eq_refl Hrun).
Qed.

Lemma run_accumulates_witness :
  run scenario_prices scenario_signals scenario_after =
  (Ok {| r_portfolio_value := scenario_values;
         r_positions := scenario_positions;
         r_trades := scenario_trades ++ scenario_trades |},
   {| initial_capital := 100;
      positions := Some scenario_positions;
      portfolio_value := Some scenario_values;
      trades := scenario_trades ++ scenario_trades |}).
Proof.
  apply (run_accumulates scenario_after scenario_prices scenario_signals
                         scenario_result scenario_after).
  apply scenario_run_eq.
Defined.

Lemma alternates_app (a : list Trade) : forall (expect : side) (b : list Trade),
  alternates expect (a ++ b) =
  alternates expect a
  && alternates (if Nat.even (List.length a) then expect else flip expect) b.
Proof.
  induction a as [|x a IH]; intros expect b.
  - reflexivity.
  - cbn [alternates app List.length]. rewrite IH, Nat.even_succ.
    rewrite <- Nat.negb_even, flip_flip, andb_assoc.
    now destruct (Nat.even (List.length a)).
Qed.

Lemma fresh_run_log_ok capital b prices signals r b' :
  init capital = Ok b ->
  run prices signals b = (Ok r, b') ->
  b = fresh capital /\ alternates buy (r_trades r) = true.
Proof.
  intros Hinit Hrun.
  assert (b = fresh capital) as ->.
  { unfold init in Hinit. destruct (Qle_bool capital 0); [discriminate|].
    now injection Hinit as <-. }
  split; [reflexivity|].
  pose proof (run_ok_aligned _ _ _ _ _ Hrun) as Hal.
  rewrite (run_aligned _ _ _ Hal) in Hrun.
  destruct (loop signals (init_locals (initial_capital (fresh capital)))
                 prices (fresh capital)) as [[l|e] b1] eqn:Hloop;
    [|discriminate].
  unfold finish_run in Hrun. injection Hrun as <- _. simpl.
  apply (loop_log_ok _ _ _ _ _ _ Hloop). split; reflexivity.
Qed.

(** X4. Running the same input a second time on the same simulator
    returns the first log twice over; when the first run made an odd
    number of trades (it ended Long), the returned log no longer
    alternates Buy, Sell, ... *)
Theorem rerun_doubles_log (capital : Q) (b : Backtester)
                          (prices : Series Q) (signals : Series Z)
                          (r : Result) (b1 : Backtester) :
  init capital = Ok b ->
  run prices signals b = (Ok r, b1) ->
  exists r2 b2,
    run prices signals b1 = (Ok r2, b2) /\
    r_portfolio_value r2 = r_portfolio_value r /\
    r_positions r2 = r_positions r /\
    r_trades r2 = r_trades r ++ r_trades r /\
    (Nat.odd (List.length (r_trades r)) = true ->
     alternates buy (r_trades r2) = false).
Proof.
  intros Hinit Hrun.
  destruct (fresh_run_log_ok _ _ _ _ _ _ Hinit Hrun) as [-> Halt].
  assert (initial_capital b1 = capital /\ trades b1 = r_trades r) as [Hc Ht].
  { pose proof (run_ok_aligned _ _ _ _ _ Hrun) as Hal.
    rewrite (run_aligned _ _ _ Hal) in Hrun.
    destruct (loop signals (init_locals (initial_capital (fresh capital)))
                   prices (fresh capital)) as [[l|e] bz] eqn:Hloop;
      [|discriminate].
    destruct (loop_outcome _ _ _ _ _ _ Hloop) as [(new & (E1 & _) & _) _].
    unfold finish_run in Hrun. injection Hrun as <- <-. simpl.
    split; [exact E1|reflexivity]. }
  rewrite <- Hc in Hrun.
  pose proof (run_graft b1 (fresh (initial_capital b1)) prices signals r b1
                        eq_refl Hrun) as H2.
  rewrite graft_fresh in H2.
  rewrite Ht in H2.
  eexists. eexists. split; [exact H2|]. simpl.
  repeat split.
  intros Hodd. rewrite alternates_app, Halt.
  rewrite <- Nat.negb_odd, Hodd. simpl.
  destruct (r_trades r) as [|t log]; [discriminate|].
  simpl in Halt. apply andb_true_iff in Halt as [Hb _].
  simpl. destruct (t_type t); [reflexivity|discriminate].
Qed.

Lemma rerun_doubles_log_witness :
  exists r2 b2,
    run scenario_prices scenario_signals scenario_after = (Ok r2, b2) /\
    r_trades r2 = scenario_trades ++ scenario_trades.
Proof.
  destruct (rerun_doubles_log 100 (fresh 100) scenario_prices
              scenario_signals scenario_result scenario_after eq_refl
              scenario_run_eq)
    as (r2 & b2 & H & _ & _ & Ht & _).
  exists r2, b2. split; assumption.
Defined.

(* ===================================================================== *)
(** ** Portfolio value from tick to tick *)
(* ===================================================================== *)

Lemma tick_case_flat_ok d p l b l1 b1 :
  tick_case d p l b l1 b1 -> flat_ok l -> flat_ok l1.
Proof.
  intros Hc Hok. destruct Hc; unfold flat_ok; simpl.
  - split; [now right|discriminate].
  - split; [now left|reflexivity].
  - exact Hok.
Qed.

Lemma loop_flat_ok signals items l b l' b' :
  loop signals l items b = (Ok l', b') -> flat_ok l -> flat_ok l'.
Proof.
  apply (loop_invariant (fun l0 _ => flat_ok l0) signals items).
  intros d price l0 b0 l1 b1 _ Hok Hc.
  apply (tick_case_flat_ok _ _ _ _ _ _ Hc Hok).
Qed.

Lemma init_locals_flat_ok (c : Q) : flat_ok (init_locals c).
Proof. split; [now left|reflexivity]. Qed.

(** Trading at the tick's price is free: the account is worth after the
    trade what it was worth before, at that price. *)
Lemma tick_case_value d p l b l1 b1 :
  tick_case d p l b l1 b1 -> flat_ok l ->
  cash l1 + shares l1 * p == cash l + shares l * p.
Proof.
  intros Hc [_ Hflat]. destruct Hc as [H0 _ | _ | ]; simpl.
  - rewrite (Hflat H0). ring.
  - ring.
  - reflexivity.
Qed.

Lemma firstn_S_nth_error {A} (xs : list A) (t : nat) (x : A) :
  nth_error xs t = Some x -> firstn (S t) xs = firstn t xs ++ [x].
Proof.
  revert t. induction xs as [|a xs IH]; intros [|t] H; simpl in *;
    try discriminate.
  - now injection H as ->.
  - f_equal. now apply IH.
Qed.

(** A run that returned, opened up: the loop returned, and the result is
    built from its lists. *)
Lemma run_ok_inv prices signals b r b' :
  run prices signals b = (Ok r, b') ->
  aligned prices signals /\
  exists lf bf,
    loop signals (init_locals (initial_capital b)) prices b = (Ok lf, bf) /\
    List.length (portfolio_values lf) = List.length prices /\
    List.length (positions_l lf) = List.length prices /\
    r = {| r_portfolio_value := mkSeries (portfolio_values lf) (index prices);
           r_positions := mkSeries (positions_l lf) (index prices);
           r_trades := trades bf |} /\
    b' = {| initial_capital := initial_capital bf;
            positions := Some (mkSeries (positions_l lf) (index prices));
            portfolio_value :=
              Some (mkSeries (portfolio_values lf) (index prices));
            trades := trades bf |}.
Proof.
  intros Hrun.
  pose proof (run_ok_aligned _ _ _ _ _ Hrun) as Hal.
  split; [exact Hal|].
  rewrite (run_aligned _ _ _ Hal) in Hrun.
  destruct (loop signals (init_locals (initial_capital b)) prices b)
    as [[lf|e] bf] eqn:Hloop; [|discriminate].
  unfold finish_run in Hrun. injection Hrun as <- <-.
  destruct (loop_outputs _ _ _ _ _ _ Hloop) as (pv & ps & Hpv & Hps & Lpv & Lps).
  simpl in Hpv, Hps. subst pv ps.
  exists lf, bf. repeat split; assumption.
Qed.

(** The account after tick [t + 1] comes from the account after tick [t]
    by one tick. *)
Lemma loop_prefix_step signals prices l b t item lt bt :
  nth_error prices (S t) = Some item ->
  loop signals l (firstn (S t) prices) b = (Ok lt, bt) ->
  loop signals l (firstn (S (S t)) prices) b = tick signals lt item bt.
Proof.
  intros Hnth Hpre.
  rewrite (firstn_S_nth_error prices (S t) item Hnth), loop_app, Hpre.
  cbn [loop]. unfold bind.
  destruct (tick signals lt item bt) as [[l1|e] b1]; reflexivity.
Qed.

(** The value recorded at tick [t + 1] is the account after tick [t],
    priced at tick [t + 1]. *)
Lemma loop_value_step signals prices c b lf bf t d p d' p' :
  loop signals (init_locals c) prices b = (Ok lf, bf) ->
  nth_error prices t = Some (d, p) ->
  nth_error prices (S t) = Some (d', p') ->
  exists lt bt v',
    loop signals (init_locals c) (firstn (S t) prices) b = (Ok lt, bt) /\
    nth_error (portfolio_values lf) t = Some (cash lt + shares lt * p) /\
    nth_error (portfolio_values lf) (S t) = Some v' /\
    v' == cash lt + shares lt * p'.
Proof.
  intros Hloop Hnth Hnth'.
  destruct (loop_prefix _ _ _ _ _ _ _ _ _ Hloop Hnth)
    as (lt & bt & Hpre & Hv & _).
  destruct (loop_prefix _ _ _ _ _ _ _ _ _ Hloop Hnth')
    as (lt' & bt' & Hpre' & Hv' & _).
  simpl in Hv, Hv'.
  exists lt, bt, (cash lt' + shares lt' * p').
  split; [exact Hpre|]. split; [exact Hv|]. split; [exact Hv'|].
  rewrite (loop_prefix_step _ _ _ _ _ _ _ _ Hnth' Hpre) in Hpre'.
  apply tick_ok_inv in Hpre' as (signal & l0 & _ & Hs & ->).
  apply trade_step_cases in Hs.
  assert (flat_ok lt) as Hok
    by (apply (loop_flat_ok _ _ _ _ _ _ Hpre), init_locals_flat_ok).
  apply (tick_case_value _ _ _ _ _ _ Hs Hok).
Qed.

(** The first recorded value is the capital the loop started from. *)
Lemma loop_value_first signals prices c b lf bf d p :
  loop signals (init_locals c) prices b = (Ok lf, bf) ->
  nth_error prices 0 = Some (d, p) ->
  exists v, nth_error (portfolio_values lf) 0 = Some v /\ v == c.
Proof.
  intros Hloop Hnth.
  destruct (loop_prefix _ _ _ _ _ _ _ _ _ Hloop Hnth)
    as (lt & bt & Hpre & Hv & _).
  simpl in Hv. exists (cash lt + shares lt * p). split; [exact Hv|].
  rewrite (firstn_S_nth_error prices 0 (d, p) Hnth) in Hpre.
  cbn [firstn app loop] in Hpre. unfold bind in Hpre.
  destruct (tick signals (init_locals c) (d, p) b)
    as [[l1|e] b1] eqn:Ht; [|discriminate].
  unfold ret in Hpre. injection Hpre as <- <-.
  apply tick_ok_inv in Ht as (signal & l0 & _ & Hs & ->).
  apply trade_step_cases in Hs.
  rewrite (tick_case_value _ _ _ _ _ _ Hs (init_locals_flat_ok _)).
  simpl. ring.
Qed.

(** X5. No transaction cost, no slippage: in a run that returned, the
    first recorded value is the initial capital, and from one tick to the
    next the recorded value moves by the shares held after the earlier
    tick times the price change; it does not move while the account is
    Flat. *)
Theorem value_moves_with_price (b : Backtester) (prices : Series Q)
                               (signals : Series Z) (r : Result)
                               (b' : Backtester) :
  run prices signals b = (Ok r, b') ->
  (forall d p, nth_error prices 0 = Some (d, p) ->
     exists v, nth_error (r_portfolio_value r) 0 = Some (d, v) /\
               v == initial_capital b) /\
  (forall t d p d' p',
     nth_error prices t = Some (d, p) ->
     nth_error prices (S t) = Some (d', p') ->
     exists l bt v v',
       loop signals (init_locals (initial_capital b))
            (firstn (S t) prices) b = (Ok l, bt) /\
       nth_error (r_portfolio_value r) t = Some (d, v) /\
       nth_error (r_portfolio_value r) (S t) = Some (d', v') /\
       v' == v + shares l * (p' - p) /\
       (position l = 0%Z -> v' == v)).
Proof.
  intros Hrun.
  destruct (run_ok_inv _ _ _ _ _ Hrun)
    as (_ & lf & bf & Hloop & Lv & Lp & -> & _).
  cbn [r_portfolio_value].
  assert (forall t d p, nth_error prices t = Some (d, p) ->
            nth_error (index prices) t = Some d) as Hidx.
  { intros t d p H. unfold index. now rewrite nth_error_map, H. }
  split.
  - intros d p Hnth.
    destruct (loop_value_first _ _ _ _ _ _ _ _ Hloop Hnth) as (v & Hv & Ev).
    exists v. split; [|exact Ev].
    apply nth_error_mkSeries; [now apply (Hidx 0%nat d p)|exact Hv].
  - intros t d p d' p' Hnth Hnth'.
    destruct (loop_value_step _ _ _ _ _ _ _ _ _ _ _ Hloop Hnth Hnth')
      as (lt & bt & v' & Hpre & Hv & Hv' & Ev).
    exists lt, bt, (cash lt + shares lt * p), v'.
    split; [exact Hpre|].
    split; [apply nth_error_mkSeries; [now apply (Hidx t d p)|exact Hv]|].
    split; [apply nth_error_mkSeries; [now apply (Hidx (S t) d' p')|exact Hv']|].
    split.
    + rewrite Ev. ring.
    + intros Hflat. rewrite Ev.
      assert (flat_ok lt) as [_ Hz]
        by (apply (loop_flat_ok _ _ _ _ _ _ Hpre), init_locals_flat_ok).
      rewrite (Hz Hflat). ring.
Qed.

Lemma value_moves_with_price_witness :
  exists v, nth_error (r_portfolio_value scenario_result) 0
            = Some (1%Z, v) /\ v == 100.
Proof.
  destruct (value_moves_with_price (fresh 100) scenario_prices
              scenario_signals scenario_result scenario_after
              scenario_run_eq) as [H0 _].
  apply (H0 1%Z 10). reflexivity.
Defined.

Lemma nondecreasing_nth (v : list Q) :
  nondecreasing v <->
  forall t x y, nth_error v t = Some x -> nth_error v (S t) = Some y -> x <= y.
Proof.
  induction v as [|a v IH].
  - split; [|reflexivity]. intros _ [|t] x y H; discriminate.
  - destruct v as [|a' v].
    + split; [|reflexivity]. intros _ [|t] x y H1 H2; simpl in *;
        discriminate.
    + cbn [nondecreasing]. rewrite IH. split.
      * intros [Ha H] [|t] x y H1 H2; simpl in H1, H2.
        -- injection H1 as <-. injection H2 as <-. exact Ha.
        -- apply (H t x y H1 H2).
      * intros H. split.
        -- apply (H 0%nat a a'); reflexivity.
        -- intros t x y H1 H2. apply (H (S t) x y H1 H2).
Qed.

(** A nondecreasing list stays above its head. *)
Lemma nondecreasing_above_head (a : Q) (v : list Q) :
  nondecreasing (a :: v) -> forall x, In x (a :: v) -> a <= x.
Proof.
  revert a. induction v as [|a' v IH]; intros a Hnd x Hin.
  - destruct Hin as [<-|[]]. apply Qle_refl.
  - destruct Hnd as [Ha Hnd]. destruct Hin as [<-|Hin].
    + apply Qle_refl.
    + eapply Qle_trans; [exact Ha|]. now apply IH.
Qed.

(** X6. While prices never fall, the portfolio never loses: for a run
    that returned over strictly positive, nondecreasing prices (capital not
    negative), the recorded values are nondecreasing and none is below
    the initial capital. *)
Theorem rising_prices_never_lose (b : Backtester) (prices : Series Q)
                                 (signals : Series Z) (r : Result)
                                 (b' : Backtester) :
  run prices signals b = (Ok r, b') ->
  0 <= initial_capital b ->
  (forall d p, In (d, p) prices -> 0 < p) ->
  nondecreasing (values prices) ->
  nondecreasing (values (r_portfolio_value r)) /\
  forall v, In v (values (r_portfolio_value r)) -> initial_capital b <= v.
Proof.
  intros Hrun Hcap Hpos Hup.
  destruct (run_ok_inv _ _ _ _ _ Hrun)
    as (_ & lf & bf & Hloop & Lv & Lp & -> & _).
  cbn [r_portfolio_value].
  assert (List.length (portfolio_values lf) = List.length (index prices)) as Li
    by (unfold index; now rewrite length_map).
  rewrite (values_mkSeries _ _ Li).
  assert (nondecreasing (portfolio_values lf)) as Hnd.
  { apply nondecreasing_nth. intros t x y Hx Hy.
    assert (S t < List.length prices)%nat as Ht
      by (rewrite <- Lv; apply nth_error_Some; congruence).
    destruct (nth_error prices t) as [[d p]|] eqn:Hp;
      [|apply nth_error_None in Hp; lia].
    destruct (nth_error prices (S t)) as [[d' p']|] eqn:Hp';
      [|apply nth_error_None in Hp'; lia].
    destruct (loop_value_step _ _ _ _ _ _ _ _ _ _ _ Hloop Hp Hp')
      as (lt & bt & v' & Hpre & Hv & Hv' & Ev).
    rewrite Hx in Hv. injection Hv as ->.
    rewrite Hy in Hv'. injection Hv' as ->.
    rewrite Ev.
    assert (account_ok lt) as [_ _ Hsh _].
    { apply (loop_account_ok _ _ _ _ _ _ Hpre).
      - intros d0 p0 Hin. apply (Hpos d0).
        rewrite <- (firstn_skipn (S t) prices). apply in_or_app. now left.
      - now apply init_locals_ok. }
    assert (p <= p') as Hpp.
    { apply (proj1 (nondecreasing_nth (values prices)) Hup t).
      - unfold values. now rewrite nth_error_map, Hp.
      - unfold values. now rewrite nth_error_map, Hp'. }
    apply Qplus_le_r.
    rewrite !(Qmult_comm (shares lt)).
    apply Qmult_le_compat_r; assumption. }
  split; [exact Hnd|].
  intros v Hin.
  destruct (portfolio_values lf) as [|v0 vs] eqn:Hvals; [destruct Hin|].
  destruct prices as [|[d p] prices']; [discriminate|].
  destruct (loop_value_first _ _ _ _ _ _ d p Hloop eq_refl) as (v1 & Hv1 & Ev1).
  rewrite Hvals in Hv1. injection Hv1 as <-.
  rewrite <- Ev1. now apply (nondecreasing_above_head v0 vs).
Qed.

Lemma rising_prices_never_lose_witness :
  nondecreasing [100; 100; 120] /\
  forall v, In v [100; 100; 120] -> 100 <= v.
Proof.
  apply (rising_prices_never_lose (fresh 100)
           [(1%Z, 10); (2%Z, 10); (3%Z, 12)]
           [(1%Z, 0%Z); (2%Z, 1%Z); (3%Z, 0%Z)]
           {| r_portfolio_value := [(1%Z, 100); (2%Z, 100); (3%Z, 120)];
              r_positions := [(1%Z, 0%Z); (2%Z, 1%Z); (3%Z, 1%Z)];
              r_trades := [mkTrade 2%Z buy 10 10] |}
           {| initial_capital := 100;
              positions := Some [(1%Z, 0%Z); (2%Z, 1%Z); (3%Z, 1%Z)];
              portfolio_value := Some [(1%Z, 100); (2%Z, 100); (3%Z, 120)];
              trades := [mkTrade 2%Z buy 10 10] |}).
  - vm_compute. reflexivity.
  - discriminate.
  - intros d p Hin. each_item Hin.
  - simpl. repeat split; discriminate.
Defined.

(* ===================================================================== *)
(** ** Runs without a Buy signal *)
(* ===================================================================== *)

Lemma loc_In {A} (s : Series A) (d : timestamp) (v : A) :
  In v (loc s d) -> In (d, v) s.
Proof.
  unfold loc. intros H. apply in_map_iff in H as ([k x] & E & Hin).
  apply filter_In in Hin as [Hin Hk]. simpl in E, Hk.
  apply Z.eqb_eq in Hk. now subst.
Qed.

Lemma trade_step_hold signal d p l b :
  signal <> 1%Z -> position l = 0%Z -> trade_step signal d p l b = (Ok l, b).
Proof.
  intros Hs Hflat. unfold trade_step.
  apply Z.eqb_neq in Hs. rewrite Hs, Hflat. simpl.
  now rewrite andb_false_r.
Qed.

(** Without a Buy signal the loop stays Flat with its cash. *)
Lemma loop_without_buy signals items :
  (forall d s, In (d, s) signals -> s <> 1%Z) ->
  forall l b l' b',
    loop signals l items b = (Ok l', b') ->
    position l = 0%Z -> shares l = 0 ->
    b' = b /\ position l' = 0%Z /\ shares l' = 0 /\ cash l' = cash l /\
    exists pv ps,
      portfolio_values l' = portfolio_values l ++ pv /\
      positions_l l' = positions_l l ++ ps /\
      (forall v, In v pv -> v == cash l) /\
      (forall z, In z ps -> z = 0%Z).
Proof.
  intros Hnobuy.
  induction items as [|[d p] items IH]; intros l b l' b' H Hflat Hsh;
    cbn [loop] in H.
  - unfold ret in H. injection H as <- <-.
    split; [reflexivity|]. split; [exact Hflat|]. split; [exact Hsh|].
    split; [reflexivity|]. exists [], [].
    rewrite !app_nil_r. repeat split; intros x [].
  - unfold bind in H.
    destruct (tick signals l (d, p) b) as [[l1|e] b1] eqn:Ht; [|discriminate].
    apply tick_ok_inv in Ht as (signal & l0 & Hloc & Hs & ->).
    assert (signal <> 1%Z) as Hsig.
    { apply (Hnobuy d). apply loc_In. rewrite Hloc. now left. }
    rewrite (trade_step_hold _ _ _ _ _ Hsig Hflat) in Hs.
    injection Hs as <- <-.
    destruct (IH _ _ _ _ H Hflat Hsh)
      as (-> & Hp' & Hs' & Hc' & pv & ps & Epv & Eps & Hpv & Hps).
    simpl in Hc', Epv, Eps.
    split; [reflexivity|]. split; [exact Hp'|]. split; [exact Hs'|].
    split; [exact Hc'|].
    exists ((cash l + shares l * p) :: pv), (position l :: ps).
    rewrite Epv, Eps, <- !app_assoc. repeat split.
    + intros v [<-|Hin]; [rewrite Hsh; ring|now apply Hpv].
    + intros z [<-|Hin]; [exact Hflat|now apply Hps].
Qed.

(** X7. Without a Buy signal a run that returns makes no trade, records
    position 0 and the initial capital at every tick; on a simulator
    whose log was empty, [calculate_metrics] then still fails as if no
    backtest had run, whatever the rate. *)
Theorem run_without_buy (b : Backtester) (prices : Series Q)
                        (signals : Series Z) (r : Result) (b' : Backtester) :
  run prices signals b = (Ok r, b') ->
  (forall d s, In (d, s) signals -> s <> 1%Z) ->
  r_trades r = trades b /\
  (forall z, In z (values (r_positions r)) -> z = 0%Z) /\
  (forall v, In v (values (r_portfolio_value r)) -> v == initial_capital b) /\
  (trades b = [] ->
   forall rf, calculate_metrics rf b' = (Raise (ValueError msg_not_run), b')).
Proof.
  intros Hrun Hnobuy.
  destruct (run_ok_inv _ _ _ _ _ Hrun)
    as (_ & lf & bf & Hloop & Lv & Lp & -> & ->).
  destruct (loop_without_buy signals prices Hnobuy _ _ _ _ Hloop
              eq_refl eq_refl)
    as (-> & _ & _ & _ & pv & ps & Epv & Eps & Hpv & Hps).
  simpl in Epv, Eps, Hpv.
  assert (List.length (index prices) = List.length prices) as Li
    by (unfold index; apply length_map).
  cbn [r_trades r_positions r_portfolio_value].
  rewrite !values_mkSeries by congruence.
  rewrite Epv, Eps.
  split; [reflexivity|]. split; [exact Hps|]. split; [exact Hpv|].
  intros Hempty rf. unfold calculate_metrics, bind, get. simpl.
  now rewrite Hempty.
Qed.

Lemma run_without_buy_witness :
  calculate_metrics 0
    {| initial_capital := 100;
       positions := Some [(1%Z, 0%Z); (2%Z, 0%Z)];
       portfolio_value := Some [(1%Z, 100); (2%Z, 100)];
       trades := [] |}
  = (Raise (ValueError msg_not_run),
     {| initial_capital := 100;
        positions := Some [(1%Z, 0%Z); (2%Z, 0%Z)];
        portfolio_value := Some [(1%Z, 100); (2%Z, 100)];
        trades := [] |}).
Proof.
  destruct (run_without_buy (fresh 100) [(1%Z, 10); (2%Z, 12)]
              [(1%Z, 0%Z); (2%Z, (-1)%Z)]
              {| r_portfolio_value := [(1%Z, 100); (2%Z, 100)];
                 r_positions := [(1%Z, 0%Z); (2%Z, 0%Z)];
                 r_trades := [] |}
              {| initial_capital := 100;
                 positions := Some [(1%Z, 0%Z); (2%Z, 0%Z)];
                 portfolio_value := Some [(1%Z, 100); (2%Z, 100)];
                 trades := [] |}) as (_ & _ & _ & H).
  - vm_compute. reflexivity.
  - intros d s Hin. simpl in Hin.
    destruct Hin as [[= <- <-]|[[= <- <-]|[]]]; discriminate.
  - apply H. reflexivity.
Defined.

(* ===================================================================== *)
(** ** The ledger: what the trade log says about the account *)
(* ===================================================================== *)

Lemma subseq_refl_nil {A} (b : list A) : subseq [] b.
Proof. induction b; constructor; assumption. Qed.

Lemma subseq_length {A} (a b : list A) :
  subseq a b -> (List.length a <= List.length b)%nat.
Proof. induction 1; simpl; lia. Qed.

Lemma subseq_In {A} (a b : list A) (x : A) : subseq a b -> In x a -> In x b.
Proof.
  induction 1; simpl; [tauto| |]; intros Hin.
  - destruct Hin; [now left|right; auto].
  - right. auto.
Qed.

(** The trades a loop appends are made at ticks of the loop, in their
    order, at the price of the tick. *)
Lemma loop_log_subseq signals items : forall l b l' b',
  loop signals l items b = (Ok l', b') ->
  exists new, trades b' = trades b ++ new /\
              subseq (map trade_key new) items.
Proof.
  induction items as [|[d p] items IH]; intros l b l' b' H; cbn [loop] in H.
  - unfold ret in H. injection H as <- <-. exists [].
    split; [now rewrite app_nil_r|constructor].
  - unfold bind in H.
    destruct (tick signals l (d, p) b) as [[l1|e] b1] eqn:Ht; [|discriminate].
    apply tick_ok_inv in Ht as (signal & l0 & _ & Hs & ->).
    apply trade_step_cases in Hs.
    destruct (IH _ _ _ _ H) as (new & E & Hsub).
    destruct Hs as [_ _ | _ | ]; simpl in E.
    + eexists (_ :: new). rewrite E, <- app_assoc. split; [reflexivity|].
      simpl. unfold trade_key at 1. simpl. now constructor.
    + eexists (_ :: new). rewrite E, <- app_assoc. split; [reflexivity|].
      simpl. unfold trade_key at 1. simpl. now constructor.
    + exists new. split; [exact E|now constructor].
Qed.

Lemma pairs_app_even (a : list Trade) : forall b,
  Nat.even (List.length a) = true -> pairs (a ++ b) = pairs a ++ pairs b.
Proof.
  induction a as [| x | t1 t2 rest IH] using list_pair_ind; intros b He.
  - reflexivity.
  - discriminate.
  - cbn [app pairs]. f_equal. apply IH. exact He.
Qed.

Lemma Qsum_map_app {A} (f : A -> Q) (a b : list A) :
  Qsum (map f (a ++ b)) == Qsum (map f a) + Qsum (map f b).
Proof. rewrite map_app. apply Qsum_app. Qed.

Lemma tick_case_ledger_ok c d p l b l1 b1 :
  tick_case d p l b l1 b1 -> ledger_ok c l b -> ledger_ok c l1 b1.
Proof.
  intros Hc Hok. destruct Hc as [Hflat _ | Hlong | ]; [| |exact Hok].
  - destruct Hok as [(_ & Hsh & Hev & Hcl & Hcash)|(H1 & _)];
      [|rewrite Hflat in H1; discriminate].
    right. split; [reflexivity|]. simpl.
    eexists. eexists. split; [reflexivity|].
    split; [exact Hev|]. split; [exact Hcl|]. simpl.
    split; [reflexivity|]. split; [reflexivity|].
    rewrite <- Hcash. ring.
  - destruct Hok as [(H0 & _)|(_ & log0 & t & Elog & Hev & Hcl & Hty & Hsh & Hcash)];
      [rewrite Hlong in H0; discriminate|].
    left. simpl. split; [reflexivity|]. split; [reflexivity|].
    rewrite Elog, <- app_assoc. cbn [app].
    split.
    { rewrite length_app. cbn [List.length].
      rewrite Nat.add_comm. cbn [Nat.add]. now rewrite !Nat.even_succ_succ. }
    rewrite (pairs_app_even log0 _ Hev). cbn [pairs].
    split.
    { apply Forall_app. split; [exact Hcl|].
      constructor; [|constructor]. repeat split; simpl; auto. }
    unfold realized. rewrite (pairs_app_even log0 _ Hev). cbn [pairs].
    rewrite Qsum_map_app. cbn [map Qsum]. unfold profit_of at 2. simpl.
    fold (realized log0). rewrite Hsh.
    setoid_replace (c + (realized log0 + ((p - t_price t) * shares l + 0)))
      with ((c + realized log0) + (p - t_price t) * shares l) by ring.
    rewrite <- Hcash. ring.
Qed.

Lemma loop_ledger_ok c signals items l b l' b' :
  loop signals l items b = (Ok l', b') -> ledger_ok c l b -> ledger_ok c l' b'.
Proof.
  apply (loop_invariant (ledger_ok c) signals items).
  intros d p l0 b0 l1 b1 _ Hok Hc.
  pose proof (tick_case_ledger_ok c _ _ _ _ _ _ Hc Hok) as H.
  exact H.
Qed.

(** X8. Every trade a run appends was made at a tick of the run: the
    (date, price) pairs of the new trades are entries of the price series,
    in the order of the series, at most one per tick. *)
Theorem trades_follow_ticks (b : Backtester) (prices : Series Q)
                            (signals : Series Z) (r : Result)
                            (b' : Backtester) :
  run prices signals b = (Ok r, b') ->
  exists new,
    r_trades r = trades b ++ new /\
    subseq (map trade_key new) prices /\
    (List.length new <= List.length prices)%nat /\
    (forall t, In t new -> In (t_date t, t_price t) prices).
Proof.
  intros Hrun.
  destruct (run_ok_inv _ _ _ _ _ Hrun)
    as (_ & lf & bf & Hloop & _ & _ & -> & _).
  destruct (loop_log_subseq _ _ _ _ _ _ Hloop) as (new & E & Hsub).
  exists new. split; [exact E|]. split; [exact Hsub|]. split.
  - apply subseq_length in Hsub. now rewrite length_map in Hsub.
  - intros t Hin. apply (subseq_In _ _ _ Hsub).
    apply (in_map trade_key) in Hin. exact Hin.
Qed.

Lemma trades_follow_ticks_witness :
  exists new,
    r_trades scenario_result = trades (fresh 100) ++ new /\
    subseq (map trade_key new) scenario_prices.
Proof.
  destruct (trades_follow_ticks (fresh 100) scenario_prices scenario_signals
              scenario_result scenario_after scenario_run_eq)
    as (new & E & Hsub & _).
  exists new. split; assumption.
Defined.

Lemma filter_all {A} (f : A -> bool) (xs : list A) :
  Forall (fun x => f x = true) xs -> filter f xs = xs.
Proof.
  induction 1 as [|x xs Hx _ IH]; simpl; [reflexivity|].
  now rewrite Hx, IH.
Qed.

Lemma closed_pairs_round_trips (log : list Trade) :
  Forall closed_pair (pairs log) -> round_trips log = pairs log.
Proof.
  intros H. unfold round_trips. apply filter_all.
  eapply Forall_impl; [|exact H].
  intros pr (H1 & H2 & _). unfold is_round_trip. now rewrite H1, H2.
Qed.

(** The last recorded value and position of a loop over at least one
    item. *)
Lemma loop_last signals items d p l b lf bf :
  loop signals l (items ++ [(d, p)]) b = (Ok lf, bf) ->
  last (portfolio_values lf) 0 = cash lf + shares lf * p /\
  last (positions_l lf) 0%Z = position lf.
Proof.
  intros H. rewrite loop_app in H.
  destruct (loop signals l items b) as [[la|e] ba]; [|discriminate].
  cbn [loop] in H. unfold bind in H.
  destruct (tick signals la (d, p) ba) as [[l1|e] b1] eqn:Ht; [|discriminate].
  unfold ret in H. injection H as <- <-.
  apply tick_outputs in Ht as [-> ->]. now rewrite !last_last.
Qed.

(** The pairs of a log whose books are in order are all closed. *)
Lemma ledger_ok_closed c l b :
  ledger_ok c l b -> Forall closed_pair (pairs (trades b)).
Proof.
  intros [(_ & _ & _ & Hcl & _)|(_ & log0 & t & -> & Hev & Hcl & _)].
  - exact Hcl.
  - now rewrite pairs_trailing.
Qed.

(** After a run over at least one price that leaves a log that is not
    empty, [calculate_metrics] returns for every rate that is not
    negative, with the counters of its win-rate loop and the last
    recorded value. *)
Lemma metrics_after_run prices signals b r b' rf :
  run prices signals b = (Ok r, b') ->
  prices <> [] -> r_trades r <> [] -> 0 <= rf ->
  exists m,
    calculate_metrics rf b' = (Ok m, b') /\
    total_trades m = snd (count_trades (r_trades r)) /\
    win_rate m = win_rate_of (fst (count_trades (r_trades r)))
                             (snd (count_trades (r_trades r))) /\
    final_value m = last (values (r_portfolio_value r)) 0.
Proof.
  intros Hrun Hne Hlog Hrf.
  destruct (run_ok_inv _ _ _ _ _ Hrun)
    as (_ & lf & bf & Hloop & Lv & Lp & -> & ->).
  cbn [r_trades r_portfolio_value] in *.
  assert (List.length (index prices) = List.length prices) as Li
    by (unfold index; apply length_map).
  set (pv := mkSeries (portfolio_values lf) (index prices)) in *.
  assert (values pv = portfolio_values lf) as Epv
    by (apply values_mkSeries; congruence).
  destruct (trades bf) as [|t log] eqn:Ht; [contradiction|].
  assert (portfolio_values lf <> []) as Hv.
  { intros E. rewrite E in Lv. destruct prices; [contradiction|discriminate]. }
  destruct (exists_last Hv) as (vs & x & Ex).
  exists (metrics_of rf (values pv) (t :: log) x).
  split.
  - apply (calculate_metrics_ok rf _ pv t log x (rev vs)).
    + reflexivity.
    + reflexivity.
    + unfold lt0. apply negb_false_iff. now apply Qle_bool_iff.
    + rewrite Epv, Ex, rev_app_distr. reflexivity.
  - unfold metrics_of. cbn [total_trades win_rate final_value].
    split; [reflexivity|]. split; [reflexivity|].
    rewrite Epv, Ex. now rewrite last_last.
Qed.

(** The books of a fresh run, read off the account and the log. *)
Lemma ledger_balance (capital : Q) (b : Backtester) (prices : Series Q)
                      (signals : Series Z) (r : Result) (b' : Backtester) :
  init capital = Ok b ->
  run prices signals b = (Ok r, b') ->
  prices <> [] ->
  let final_val := last (values (r_portfolio_value r)) 0 in
  let final_pos := last (values (r_positions r)) 0%Z in
  let last_price := last (values prices) 0 in
  Forall closed_pair (pairs (r_trades r)) /\
  round_trips (r_trades r) = pairs (r_trades r) /\
  (final_pos = 0%Z \/ final_pos = 1%Z) /\
  (final_pos = 0%Z ->
   Nat.even (List.length (r_trades r)) = true /\
   final_val == capital + realized (r_trades r)) /\
  (final_pos = 1%Z ->
   exists log0 t,
     r_trades r = log0 ++ [t] /\ t_type t = buy /\
     final_val == capital + realized log0
                  + t_shares t * (last_price - t_price t)).
Proof.
  intros Hinit Hrun Hne final_val final_pos last_price.
  assert (b = fresh capital) as ->.
  { unfold init in Hinit. destruct (Qle_bool capital 0); [discriminate|].
    now injection Hinit as <-. }
  destruct (run_ok_inv _ _ _ _ _ Hrun)
    as (_ & lf & bf & Hloop & Lv & Lp & -> & _).
  assert (List.length (index prices) = List.length prices) as Li
    by (unfold index; apply length_map).
  subst final_val final_pos last_price.
  cbn [r_trades r_positions r_portfolio_value initial_capital fresh] in *.
  rewrite !values_mkSeries by congruence.
  assert (ledger_ok capital lf bf) as Hok.
  { apply (loop_ledger_ok capital _ _ _ _ _ _ Hloop).
    left. simpl. repeat split; try reflexivity; try constructor.
    unfold realized. simpl. ring. }
  destruct (exists_last Hne) as (items & [d p] & ->).
  destruct (loop_last _ _ _ _ _ _ _ _ Hloop) as [-> ->].
  unfold values. rewrite map_app. cbn [map snd]. rewrite last_last.
  destruct Hok as [(H0 & Hsh & Hev & Hcl & Hcash)
                  |(H1 & log0 & t & Elog & Hev & Hcl & Hty & Hsh & Hcash)].
  - split; [exact Hcl|]. split; [now apply closed_pairs_round_trips|].
    split; [now left|]. split.
    + intros _. split; [exact Hev|]. rewrite Hsh, <- Hcash. ring.
    + intros H1. rewrite H0 in H1. discriminate.
  - assert (pairs (trades bf) = pairs log0) as Ep
      by (rewrite Elog; now apply pairs_trailing).
    rewrite Ep.
    split; [exact Hcl|].
    split; [unfold round_trips; rewrite Ep; now apply closed_pairs_round_trips|].
    split; [now right|]. split.
    + intros H0. rewrite H1 in H0. discriminate.
    + intros _. exists log0, t. split; [exact Elog|]. split; [exact Hty|].
      rewrite Hsh.
      setoid_replace (capital + realized log0
                      + shares lf * (p - t_price t))
        with ((capital + realized log0) + shares lf * p
              - shares lf * t_price t) by ring.
      rewrite <- Hcash. ring.
Qed.

(** X9. The books of a fresh run balance.  Every pair of the returned log
    is a Buy closed by a Sell of the same shares, so every pair counts as
    a round trip: when the log is not empty, [calculate_metrics] returns
    for every rate that is not negative, its [total_trades] is the number
    of pairs and its [final_value] the last recorded value.  If the run
    ends Flat, that value is the capital plus the profit of all pairs; if
    it ends Long, the last trade is the open Buy and the value is the
    capital plus the profit of the pairs plus the open shares at the last
    price less their cost. *)
Theorem books_balance (capital : Q) (b : Backtester) (prices : Series Q)
                      (signals : Series Z) (r : Result) (b' : Backtester) :
  init capital = Ok b ->
  run prices signals b = (Ok r, b') ->
  prices <> [] ->
  let final_val := last (values (r_portfolio_value r)) 0 in
  let final_pos := last (values (r_positions r)) 0%Z in
  let last_price := last (values prices) 0 in
  Forall closed_pair (pairs (r_trades r)) /\
  round_trips (r_trades r) = pairs (r_trades r) /\
  (r_trades r <> [] -> forall rf, 0 <= rf ->
   exists m,
     calculate_metrics rf b' = (Ok m, b') /\
     total_trades m = Z.of_nat (List.length (pairs (r_trades r))) /\
     final_value m = final_val) /\
  (final_pos = 0%Z \/ final_pos = 1%Z) /\
  (final_pos = 0%Z ->
   Nat.even (List.length (r_trades r)) = true /\
   final_val == capital + realized (r_trades r)) /\
  (final_pos = 1%Z ->
   exists log0 t,
     r_trades r = log0 ++ [t] /\ t_type t = buy /\
     final_val == capital + realized log0
                  + t_shares t * (last_price - t_price t)).
Proof.
  intros Hinit Hrun Hne final_val final_pos last_price.
  pose proof (ledger_balance capital b prices signals r b' Hinit Hrun Hne)
    as H.
  cbv zeta in H. destruct H as (Hcl & Hrt & Hpos & Hflat & Hlong).
  split; [exact Hcl|]. split; [exact Hrt|].
  split; [|split; [exact Hpos|split; [exact Hflat|exact Hlong]]].
  intros Hlog rf Hrf.
  destruct (metrics_after_run _ _ _ _ _ rf Hrun Hne Hlog Hrf)
    as (m & Hm & Ht & _ & Hf).
  exists m. split; [exact Hm|]. split; [|exact Hf].
  rewrite Ht, count_trades_spec. cbn [snd]. now rewrite Hrt.
Qed.

Lemma books_balance_witness :
  last (values scenario_values) 0 == 100 + realized scenario_trades /\
  exists m,
    calculate_metrics 0 scenario_after = (Ok m, scenario_after) /\
    total_trades m = 1%Z /\ final_value m = 108.
Proof.
  destruct (books_balance 100 (fresh 100) scenario_prices scenario_signals
              scenario_result scenario_after eq_refl scenario_run_eq)
    as (_ & _ & Hm & _ & H0 & _).
  - discriminate.
  - split.
    + apply H0. reflexivity.
    + apply (Hm ltac:(discriminate) 0). discriminate.
Defined.

(* ===================================================================== *)
(** ** When [calculate_metrics] returns *)
(* ===================================================================== *)

(** X10. [calculate_metrics] never changes the simulator, and it returns
    exactly when the simulator is ready, the rate is not negative and the
    stored value series is not empty; its [final_value] is then the last
    stored value.  Otherwise it raises: the not-run error when the
    simulator is not ready, else the rate error when the rate is
    negative, else [IndexError] (empty series). *)
Theorem calculate_metrics_outcomes (rf : Q) (b : Backtester) :
  snd (calculate_metrics rf b) = b /\
  match fst (calculate_metrics rf b) with
  | Ok m =>
      is_ready b = true /\ 0 <= rf /\
      exists pv, portfolio_value b = Some pv /\ pv <> [] /\
                 final_value m = last (values pv) 0
  | Raise e =>
      (is_ready b = false /\ e = ValueError msg_not_run) \/
      (is_ready b = true /\ rf < 0 /\ e = ValueError msg_rate) \/
      (is_ready b = true /\ 0 <= rf /\ portfolio_value b = Some [] /\
       e = IndexError)
  end.
Proof.
  unfold calculate_metrics, bind, get, is_ready.
  destruct (portfolio_value b) as [pv|]; cbn [fst snd].
  - destruct (trades b) as [|t log]; cbn [fst snd].
    + split; [reflexivity|]. left. split; reflexivity.
    + destruct (lt0 rf) eqn:Hrf; cbn [fst snd].
      * split; [reflexivity|]. right. left.
        apply lt0_iff in Hrf. repeat split. exact Hrf.
      * assert (0 <= rf) as Hge.
        { unfold lt0 in Hrf. apply negb_false_iff in Hrf.
          now apply Qle_bool_iff. }
        destruct (rev (values pv)) as [|lastv rest] eqn:Hrev; cbn [fst snd].
        -- split; [reflexivity|]. right. right.
           split; [reflexivity|]. split; [exact Hge|]. split; [|reflexivity].
           f_equal. apply (f_equal (@rev Q)) in Hrev.
           rewrite rev_involutive in Hrev. simpl in Hrev.
           destruct pv; [reflexivity|discriminate].
        -- split; [reflexivity|]. split; [reflexivity|]. split; [exact Hge|].
           exists pv. split; [reflexivity|].
           apply (f_equal (@rev Q)) in Hrev.
           rewrite rev_involutive in Hrev. simpl in Hrev.
           split.
           ++ intros ->. destruct (rev rest); discriminate.
           ++ simpl. rewrite Hrev. now rewrite last_last.
  - split; [reflexivity|]. left. split; reflexivity.
Qed.

(** X11. Running over an empty price series succeeds and stores empty
    series; if the simulator already holds trades, [calculate_metrics]
    then fails with [IndexError] on the missing last value instead of
    returning metrics. *)
Theorem metrics_after_empty_run (rf : Q) (b : Backtester) :
  trades b <> [] -> 0 <= rf ->
  exists r b1,
    run [] [] b = (Ok r, b1) /\
    r_portfolio_value r = [] /\ r_positions r = [] /\
    r_trades r = trades b /\
    calculate_metrics rf b1 = (Raise IndexError, b1).
Proof.
  intros Hne Hrf.
  exists {| r_portfolio_value := []; r_positions := [];
            r_trades := trades b |},
         {| initial_capital := initial_capital b; positions := Some [];
            portfolio_value := Some []; trades := trades b |}.
  split; [reflexivity|]. simpl.
  repeat split.
  unfold calculate_metrics, bind, get. simpl.
  destruct (trades b) as [|t log]; [congruence|].
  assert (lt0 rf = false) as ->.
  { unfold lt0. apply negb_false_iff. now apply Qle_bool_iff. }
  reflexivity.
Qed.

Lemma metrics_after_empty_run_witness :
  exists r b1,
    run [] [] scenario_after = (Ok r, b1) /\
    calculate_metrics 0 b1 = (Raise IndexError, b1).
Proof.
  destruct (metrics_after_empty_run 0 scenario_after)
    as (r & b1 & H1 & _ & _ & _ & H2).
  - discriminate.
  - discriminate.
  - exists r, b1. split; assumption.
Defined.

(* ===================================================================== *)
(** ** Maximum drawdown as the worst decline from an earlier peak *)
(* ===================================================================== *)

Lemma cummax_from_nth (v : list Q) : forall m t c,
  nth_error (cummax_from m v) t = Some c ->
  m <= c /\
  (forall j y, (j <= t)%nat -> nth_error v j = Some y -> y <= c) /\
  (c == m \/ exists j y, (j <= t)%nat /\ nth_error v j = Some y /\ c == y).
Proof.
  induction v as [|x r IH]; intros m t c H; [destruct t; discriminate|].
  cbn [cummax_from] in H.
  pose proof (Q.le_max_l m x) as Hm. pose proof (Q.le_max_r m x) as Hx.
  destruct t as [|t]; simpl in H.
  - injection H as <-. split; [exact Hm|]. split.
    + intros j y Hj Hy. assert (j = 0)%nat as -> by lia.
      simpl in Hy. now injection Hy as <-.
    + destruct (Q.max_dec m x) as [E|E]; [now left|].
      right. exists 0%nat, x. split; [lia|split; [reflexivity|exact E]].
  - destruct (IH _ _ _ H) as (Hle & Hub & Hatt). split; [Lqa.lra|]. split.
    + intros [|j] y Hj Hy; simpl in Hy.
      * injection Hy as <-. Lqa.lra.
      * apply (Hub j y); [lia|exact Hy].
    + destruct Hatt as [E|(j & y & Hj & Hy & E)].
      * destruct (Q.max_dec m x) as [E'|E'].
        -- left. now rewrite E.
        -- right. exists 0%nat, x.
           split; [lia|split; [reflexivity|now rewrite E]].
      * right. exists (S j), y. split; [lia|split; [exact Hy|exact E]].
Qed.

(** [cummax] at [t] is the largest of the values up to [t]. *)
Lemma cummax_nth (v : list Q) (t : nat) (c : Q) :
  nth_error (cummax v) t = Some c ->
  (forall j y, (j <= t)%nat -> nth_error v j = Some y -> y <= c) /\
  (exists j y, (j <= t)%nat /\ nth_error v j = Some y /\ c == y).
Proof.
  destruct v as [|x r]; [destruct t; discriminate|].
  destruct t as [|t]; simpl.
  - intros [= ->]. split.
    + intros j y Hj Hy. assert (j = 0)%nat as -> by lia.
      simpl in Hy. injection Hy as <-. apply Qle_refl.
    + exists 0%nat, c. split; [lia|split; reflexivity].
  - intros H. destruct (cummax_from_nth _ _ _ _ H) as (Hle & Hub & Hatt).
    split.
    + intros [|j] y Hj Hy; simpl in Hy.
      * now injection Hy as <-.
      * apply (Hub j y); [lia|exact Hy].
    + destruct Hatt as [E|(j & y & Hj & Hy & E)].
      * exists 0%nat, x. split; [lia|split; [reflexivity|exact E]].
      * exists (S j), y. split; [lia|split; [exact Hy|exact E]].
Qed.

Lemma length_cummax_from (v : list Q) : forall m,
  List.length (cummax_from m v) = List.length v.
Proof. induction v as [|x r IH]; intros m; simpl; [reflexivity|now rewrite IH]. Qed.

Lemma length_cummax (v : list Q) : List.length (cummax v) = List.length v.
Proof. destruct v; simpl; [reflexivity|now rewrite length_cummax_from]. Qed.

(** The minimum of finite entries is one of them and below all. *)
Lemma xmin_Fin (qs : list Q) :
  qs <> [] ->
  exists dd, xmin (map Fin qs) = Fin dd /\
             (forall q, In q qs -> dd <= q) /\
             (exists q, In q qs /\ dd == q).
Proof.
  induction qs as [|q qs IH]; [congruence|]. intros _.
  destruct qs as [|q' qs].
  - exists q. simpl. split; [reflexivity|]. split.
    + intros q0 [<-|[]]. apply Qle_refl.
    + exists q. split; [now left|reflexivity].
  - destruct (IH ltac:(discriminate)) as (dd & Hm & Hlb & (q0 & Hin & E)).
    exists (Qmin q dd).
    change (xmin (map Fin (q :: q' :: qs)))
      with (match xmin (map Fin (q' :: qs)) with
            | Inf => Inf | NaN => Fin q | Fin d => Fin (Qmin q d) end).
    rewrite Hm. split; [reflexivity|]. split.
    + intros x [<-|Hx]; [apply Q.le_min_l|].
      eapply Qle_trans; [apply Q.le_min_r|now apply Hlb].
    + destruct (Q.min_dec q dd) as [E'|E'].
      * exists q. split; [now left|exact E'].
      * exists q0. split; [now right|now rewrite E'].
Qed.

Lemma rel_change_mono (x y c : Q) :
  0 < y -> y <= c -> 0 < x -> rel_change c x <= rel_change y x.
Proof.
  intros Hy Hc Hx. unfold rel_change.
  assert (0 < c) as Hc0 by Lqa.lra.
  apply Qle_shift_div_r; [exact Hc0|].
  setoid_replace ((x - y) / y * c) with (((x - y) * c) / y)
    by (field; intros E; rewrite E in Hy; discriminate).
  apply Qle_shift_div_l; [exact Hy|]. Lqa.nra.
Qed.

Lemma rel_change_above (x c : Q) : 0 < c -> 0 < x -> -(1) < rel_change c x.
Proof.
  intros Hc Hx. unfold rel_change.
  apply Qlt_shift_div_l; [exact Hc|]. Lqa.lra.
Qed.

Lemma rel_change_compat (x c y : Q) :
  ~ y == 0 -> c == y -> rel_change c x == rel_change y x.
Proof. intros Hy E. unfold rel_change. now rewrite E. Qed.

(** On strictly positive values every drawdown is a number. *)
Lemma drawdown_finite (v : list Q) :
  (forall x, In x v -> 0 < x) ->
  drawdown v = map Fin (map (fun p : Q * Q => rel_change (snd p) (fst p))
                            (combine v (cummax v))).
Proof.
  intros Hpos. unfold drawdown. rewrite map_map. apply map_ext_in.
  intros [x c] Hin. simpl.
  apply In_nth_error in Hin as [t Ht].
  rewrite nth_error_combine in Ht.
  destruct (nth_error v t) as [x'|] eqn:Hx; [|discriminate].
  destruct (nth_error (cummax v) t) as [c'|] eqn:Hc; [|discriminate].
  injection Ht as -> ->.
  destruct (cummax_nth v t c Hc) as [_ (j & y & _ & Hy & E)].
  assert (0 < c) as Hc0.
  { rewrite E. apply Hpos. eapply nth_error_In; eassumption. }
  unfold xdiv. now rewrite (Qeq_bool_false_pos c Hc0).
Qed.

(** X12. On a strictly positive value series the reported
    [max_drawdown] is the worst relative decline from an earlier (or the
    same) value to a later one: it is at most [(x - y) / y] for every
    value [y] at place [j] and value [x] at a place [t >= j], it is
    reached by one such pair, and it is above -1. *)
Theorem max_drawdown_peak_to_trough (rf : Q) (b : Backtester) (m : Metrics)
                                    (b' : Backtester) (pv : Series Q) :
  calculate_metrics rf b = (Ok m, b') ->
  portfolio_value b = Some pv ->
  (forall d x, In (d, x) pv -> 0 < x) ->
  exists dd,
    max_drawdown m = Fin dd /\
    -(1) < dd /\
    (forall j t y x, (j <= t)%nat ->
       nth_error (values pv) j = Some y ->
       nth_error (values pv) t = Some x ->
       dd <= (x - y) / y) /\
    (exists j t y x, (j <= t)%nat /\
       nth_error (values pv) j = Some y /\
       nth_error (values pv) t = Some x /\
       dd == (x - y) / y).
Proof.
  intros Hm Hpv Hpos.
  apply calculate_metrics_inv in Hm
    as (_ & _ & pv' & t0 & log & lastv & rest & Hpv' & _ & Hrev & ->).
  rewrite Hpv in Hpv'. injection Hpv' as <-.
  set (v := values pv) in *.
  assert (forall x, In x v -> 0 < x) as Hv.
  { intros x Hin. unfold v, values in Hin.
    apply in_map_iff in Hin as ([d y] & <- & Hin). now apply (Hpos d). }
  assert (v <> []) as Hne.
  { intros E. rewrite E in Hrev. discriminate. }
  unfold metrics_of. cbn [max_drawdown].
  rewrite (drawdown_finite v Hv).
  set (rels := map (fun p : Q * Q => rel_change (snd p) (fst p))
                   (combine v (cummax v))).
  assert (forall q, In q rels <->
            exists t x c, nth_error v t = Some x /\
                          nth_error (cummax v) t = Some c /\
                          q = rel_change c x) as Hrels.
  { intros q. unfold rels. rewrite in_map_iff. split.
    - intros ([x c] & <- & Hin). apply In_nth_error in Hin as [t Ht].
      rewrite nth_error_combine in Ht.
      destruct (nth_error v t) as [x'|] eqn:Hx; [|discriminate].
      destruct (nth_error (cummax v) t) as [c'|] eqn:Hc; [|discriminate].
      injection Ht as -> ->. now exists t, x, c.
    - intros (t & x & c & Hx & Hc & ->). exists (x, c). split; [reflexivity|].
      apply (nth_error_In _ t). now rewrite nth_error_combine, Hx, Hc. }
  assert (rels <> []) as Hrne.
  { destruct v as [|x r]; [congruence|]. discriminate. }
  destruct (xmin_Fin rels Hrne) as (dd & Hmin & Hlb & (q0 & Hin0 & E0)).
  exists dd. split; [exact Hmin|].
  apply Hrels in Hin0 as (t1 & x1 & c1 & Hx1 & Hc1 & ->).
  destruct (cummax_nth v t1 c1 Hc1) as [Hub1 (j1 & y1 & Hj1 & Hy1 & Ec1)].
  assert (0 < x1) as Hx1pos by (apply Hv; eapply nth_error_In; eassumption).
  assert (0 < y1) as Hy1pos by (apply Hv; eapply nth_error_In; eassumption).
  split.
  { rewrite E0. apply rel_change_above; [rewrite Ec1|]; assumption. }
  split.
  - intros j t y x Hj Hy Hx.
    assert (t < List.length (cummax v))%nat as Ht
      by (rewrite length_cummax; apply nth_error_Some; congruence).
    destruct (nth_error (cummax v) t) as [c|] eqn:Hc;
      [|apply nth_error_None in Hc; lia].
    destruct (cummax_nth v t c Hc) as [Hub _].
    eapply Qle_trans; [apply (Hlb (rel_change c x))|].
    + apply Hrels. now exists t, x, c.
    + apply rel_change_mono.
      * apply Hv. eapply nth_error_In; eassumption.
      * apply (Hub j y Hj Hy).
      * apply Hv. eapply nth_error_In; eassumption.
  - exists j1, t1, y1, x1.
    split; [exact Hj1|]. split; [exact Hy1|]. split; [exact Hx1|].
    rewrite E0. apply rel_change_compat; [|exact Ec1].
    intros E. rewrite E in Hy1pos. discriminate.
Qed.

Lemma max_drawdown_peak_to_trough_witness :
  exists dd, xmin (drawdown (values scenario_values)) = Fin dd /\ -(1) < dd.
Proof.
  destruct (max_drawdown_peak_to_trough 0 scenario_after
              (metrics_of 0 (values scenario_values) scenario_trades 108)
              scenario_after scenario_values)
    as (dd & H1 & H2 & _).
  - apply (calculate_metrics_ok 0 scenario_after scenario_values
             (mkTrade 2%Z buy 12 8) [mkTrade 4%Z sell 13 8]
             108 [108; 116; 100; 100]); reflexivity.
  - reflexivity.
  - intros d x Hin. each_item Hin.
  - exists dd. split; assumption.
Defined.

(* ===================================================================== *)
(** ** The Sharpe ratio *)
(* ===================================================================== *)

Lemma pct_change_tail (r : list Q) : forall x,
  (forall y, In y (x :: r) -> ~ y == 0) ->
  map fillna0
      (map (fun p : Q * option Q => xsub (xdiv (fst p) (snd p)) 1)
           (combine r (firstn (List.length r) (map Some (x :: r)))))
  = map Fin (returns_from x r).
Proof.
  induction r as [|y r IH]; intros x Hnz; [reflexivity|].
  cbn [List.length map firstn combine returns_from fst snd].
  unfold xdiv at 1.
  rewrite (Qeq_bool_nonzero x (Hnz x (or_introl eq_refl))).
  cbn [xsub fillna0]. f_equal.
  apply (IH y). intros z Hz. apply Hnz. now right.
Qed.

(** With no zero value, the returns the program computes are the simple
    returns. *)
Lemma returns_finite (v : list Q) :
  (forall y, In y v -> ~ y == 0) ->
  map fillna0 (pct_change v) = map Fin (simple_returns v).
Proof.
  intros Hnz. destruct v as [|x r]; [reflexivity|].
  unfold pct_change, shift1.
  cbn [List.length firstn combine map fst snd simple_returns].
  cbn [xdiv xsub fillna0]. f_equal.
  change (Some x :: map Some r) with (map Some (x :: r)).
  now apply pct_change_tail.
Qed.

Lemma all_finite_Fin (qs : list Q) : all_finite (map Fin qs) = Some qs.
Proof. induction qs as [|q qs IH]; simpl; [reflexivity|now rewrite IH]. Qed.

Lemma all_finite_Inf (xs : list xval) (i : nat) :
  nth_error xs i = Some Inf -> all_finite xs = None.
Proof.
  revert i. induction xs as [|x xs IH]; intros [|i] H; simpl in H;
    try discriminate.
  - now injection H as ->.
  - simpl. destruct x; try reflexivity. now rewrite (IH i H).
Qed.

Lemma length_returns_from (v : list Q) : forall x,
  List.length (returns_from x v) = List.length v.
Proof. induction v as [|y r IH]; intros x; simpl; [reflexivity|now rewrite IH]. Qed.

Lemma length_simple_returns (v : list Q) :
  List.length (simple_returns v) = List.length v.
Proof. destruct v; simpl; [reflexivity|now rewrite length_returns_from]. Qed.

Lemma Qsum_squares_nonneg (xs : list Q) (m : Q) :
  0 <= Qsum (map (fun x => (x - m) * (x - m)) xs).
Proof.
  induction xs as [|x xs IH]; simpl; [apply Qle_refl|].
  assert (forall a : Q, 0 <= a * a) as Hsq by (intros a; Lqa.nra).
  pose proof (Hsq (x - m)). Lqa.lra.
Qed.

Lemma variance_nonneg (xs : list Q) (var : Q) :
  variance xs = Some var -> 0 <= var.
Proof.
  unfold variance. destruct (mean xs) as [m|]; [|discriminate].
  destruct (Nat.leb_spec (List.length xs) 1) as [Hle|Hgt]; [discriminate|].
  intros [= <-]. apply Qle_shift_div_l.
  - unfold Qnat. change 0 with (inject_Z 0). rewrite <- Zlt_Qlt. lia.
  - rewrite Qmult_0_l. apply Qsum_squares_nonneg.
Qed.

(** X13. With no zero in the stored value series, the returns behind the
    Sharpe ratio are [r[0] = 0], [r[t] = v[t] / v[t-1] - 1].  On two or
    more values the ratio is the number
    [sqrt 252 * mu / (sqrt var + epsilon)] with [mu] and [var >= 0] the
    mean and the sample variance of the returns less [rf / 252], and its
    divisor is positive; on a single value it is not a number (the
    sample deviation of one observation is NaN).  The sums are the exact
    ones: the program's ratio agrees with this one up to the rounding of
    its float sums, which can also decide its sign when [mu] is zero. *)
Theorem sharpe_ratio_defined (rf : Q) (b : Backtester) (m : Metrics)
                             (b' : Backtester) (pv : Series Q) :
  calculate_metrics rf b = (Ok m, b') ->
  portfolio_value b = Some pv ->
  (forall d x, In (d, x) pv -> ~ x == 0) ->
  let excess := map (fun q => q - rf / 252) (simple_returns (values pv)) in
  (List.length pv = 1%nat -> sharpe_ratio m = None) /\
  ((2 <= List.length pv)%nat ->
   exists mu var s,
     mean excess = Some mu /\ variance excess = Some var /\ 0 <= var /\
     sharpe_ratio m = Some s /\
     s = (sqrt 252 * Q2R mu / (sqrt (Q2R var) + Q2R epsilon))%R /\
     (0 < sqrt (Q2R var) + Q2R epsilon)%R).
Proof.
  intros Hm Hpv Hnz excess.
  apply calculate_metrics_inv in Hm
    as (_ & _ & pv' & t0 & log & lastv & rest & Hpv' & _ & _ & ->).
  rewrite Hpv in Hpv'. injection Hpv' as <-.
  assert (forall y, In y (values pv) -> ~ y == 0) as Hv.
  { intros y Hin. unfold values in Hin.
    apply in_map_iff in Hin as ([d x] & <- & Hin). now apply (Hnz d). }
  unfold metrics_of. cbn [sharpe_ratio].
  rewrite (returns_finite _ Hv), map_map.
  change (map (fun x : Q => xsub (Fin x) (rf / 252))
              (simple_returns (values pv)))
    with (map (fun x : Q => Fin (x - rf / 252)) (simple_returns (values pv))).
  rewrite <- (map_map (fun q => q - rf / 252) Fin). fold excess.
  unfold sharpe_of. rewrite all_finite_Fin.
  assert (List.length excess = List.length pv) as Hlen.
  { unfold excess, values.
    now rewrite length_map, length_simple_returns, length_map. }
  split.
  - intros H1. unfold variance.
    destruct (mean excess) as [mu|]; [|reflexivity].
    rewrite Hlen, H1. reflexivity.
  - intros H2.
    destruct excess as [|e0 excess'] eqn:Hex; [simpl in Hlen; lia|].
    rewrite <- Hex in *.
    assert (exists mu, mean excess = Some mu) as [mu Hmu]
      by (rewrite Hex; eexists; reflexivity).
    assert (exists var, variance excess = Some var) as [var Hvar].
    { unfold variance. rewrite Hmu.
      destruct (Nat.leb_spec (List.length excess) 1) as [Hle|Hgt]; [lia|].
      eexists. reflexivity. }
    rewrite Hmu, Hvar.
    exists mu, var. eexists.
    split; [reflexivity|]. split; [reflexivity|].
    split; [exact (variance_nonneg _ _ Hvar)|].
    split; [reflexivity|]. split; [reflexivity|].
    apply sharpe_divisor_pos.
Qed.

Lemma sharpe_ratio_defined_witness :
  exists mu var s,
    mean (map (fun q => q - 0 / 252)
              (simple_returns (values scenario_values))) = Some mu /\
    variance (map (fun q => q - 0 / 252)
                  (simple_returns (values scenario_values))) = Some var /\
    s = (sqrt 252 * Q2R mu / (sqrt (Q2R var) + Q2R epsilon))%R.
Proof.
  destruct (sharpe_ratio_defined 0 scenario_after
              (metrics_of 0 (values scenario_values) scenario_trades 108)
              scenario_after scenario_values) as [_ H].
  - apply (calculate_metrics_ok 0 scenario_after scenario_values
             (mkTrade 2%Z buy 12 8) [mkTrade 4%Z sell 13 8]
             108 [108; 116; 100; 100]); reflexivity.
  - reflexivity.
  - intros d x Hin E. simpl in Hin.
    repeat (destruct Hin as [Hin|Hin];
            [injection Hin as <- <-; discriminate|]).
    destruct Hin.
  - destruct H as (mu & var & s & H1 & H2 & _ & _ & H3 & _).
    + simpl. lia.
    + exists mu, var, s. repeat split; assumption.
Defined.

Lemma nth_error_pct_change (v : list Q) (t : nat) (z x : Q) :
  nth_error v t = Some z -> nth_error v (S t) = Some x ->
  nth_error (pct_change v) (S t) = Some (xsub (xdiv x (Some z)) 1).
Proof.
  intros Hz Hx. unfold pct_change.
  rewrite nth_error_map, nth_error_combine, Hx.
  rewrite nth_error_shift1 by (apply nth_error_Some; congruence).
  now rewrite Hz.
Qed.

(** X14. If the stored value series passes through zero and then leaves
    it, the return over that step is infinite and the Sharpe ratio is not
    a number. *)
Theorem sharpe_ratio_through_zero (rf : Q) (b : Backtester) (m : Metrics)
                                  (b' : Backtester) (pv : Series Q)
                                  (t : nat) (z x : Q) :
  calculate_metrics rf b = (Ok m, b') ->
  portfolio_value b = Some pv ->
  nth_error (values pv) t = Some z -> z == 0 ->
  nth_error (values pv) (S t) = Some x -> ~ x == 0 ->
  sharpe_ratio m = None.
Proof.
  intros Hm Hpv Hz Hz0 Hx Hx0.
  apply calculate_metrics_inv in Hm
    as (_ & _ & pv' & t0 & log & lastv & rest & Hpv' & _ & _ & ->).
  rewrite Hpv in Hpv'. injection Hpv' as <-.
  unfold metrics_of. cbn [sharpe_ratio]. unfold sharpe_of.
  rewrite (all_finite_Inf _ (S t)); [reflexivity|].
  rewrite !nth_error_map, (nth_error_pct_change _ _ _ _ Hz Hx).
  unfold xdiv. apply Qeq_bool_iff in Hz0. rewrite Hz0.
  now rewrite (Qeq_bool_nonzero x Hx0).
Qed.

Lemma sharpe_ratio_through_zero_witness :
  exists r b1,
    run [(1%Z, 10); (2%Z, 0); (3%Z, 5)]
        [(1%Z, 1%Z); (2%Z, 0%Z); (3%Z, 0%Z)] (fresh 10) = (Ok r, b1) /\
    sharpe_ratio (metrics_of 0 (values (r_portfolio_value r))
                             (r_trades r) 5) = None.
Proof.
  exists {| r_portfolio_value := [(1%Z, 10); (2%Z, 0); (3%Z, 5)];
            r_positions := [(1%Z, 1%Z); (2%Z, 1%Z); (3%Z, 1%Z)];
            r_trades := [mkTrade 1%Z buy 10 1] |},
         {| initial_capital := 10;
            positions := Some [(1%Z, 1%Z); (2%Z, 1%Z); (3%Z, 1%Z)];
            portfolio_value := Some [(1%Z, 10); (2%Z, 0); (3%Z, 5)];
            trades := [mkTrade 1%Z buy 10 1] |}.
  split; [vm_compute; reflexivity|].
  apply (sharpe_ratio_through_zero 0
           {| initial_capital := 10;
              positions := Some [(1%Z, 1%Z); (2%Z, 1%Z); (3%Z, 1%Z)];
              portfolio_value := Some [(1%Z, 10); (2%Z, 0); (3%Z, 5)];
              trades := [mkTrade 1%Z buy 10 1] |}
           (metrics_of 0 [10; 0; 5] [mkTrade 1%Z buy 10 1] 5)
           {| initial_capital := 10;
              positions := Some [(1%Z, 1%Z); (2%Z, 1%Z); (3%Z, 1%Z)];
              portfolio_value := Some [(1%Z, 10); (2%Z, 0); (3%Z, 5)];
              trades := [mkTrade 1%Z buy 10 1] |}
           [(1%Z, 10); (2%Z, 0); (3%Z, 5)] 1%nat 0 5).
  - apply (calculate_metrics_ok 0 _ [(1%Z, 10); (2%Z, 0); (3%Z, 5)]
             (mkTrade 1%Z buy 10 1) [] 5 [0; 10]); reflexivity.
  - reflexivity.
  - reflexivity.
  - reflexivity.
  - reflexivity.
  - discriminate.
Defined.

(* ===================================================================== *)
(** ** Exponential moving average *)
(* ===================================================================== *)

Lemma alpha_of_range (p : Z) : (1 <= p)%Z -> 0 < alpha_of p /\ alpha_of p <= 1.
Proof.
  intros Hp. unfold alpha_of.
  assert (2 <= inject_Z p + 1) as H.
  { rewrite Zle_Qle in Hp. change (inject_Z 1) with 1 in Hp. Lqa.lra. }
  split.
  - apply Qlt_shift_div_l; Lqa.lra.
  - apply Qle_shift_div_r; Lqa.lra.
Qed.

Lemma length_ewm_from (a : Q) (xs : list Q) : forall prev,
  List.length (ewm_from a prev xs) = List.length xs.
Proof. induction xs as [|x r IH]; intros prev; simpl; [reflexivity|now rewrite IH]. Qed.

Lemma length_ewm_mean (p : Z) (xs : list Q) :
  List.length (ewm_mean p xs) = List.length xs.
Proof. destruct xs; simpl; [reflexivity|now rewrite length_ewm_from]. Qed.

Lemma ewm_from_step (a : Q) (xs : list Q) : forall prev t x y,
  nth_error xs (S t) = Some x ->
  nth_error (ewm_from a prev xs) t = Some y ->
  nth_error (ewm_from a prev xs) (S t) = Some ((1 - a) * y + a * x).
Proof.
  induction xs as [|x0 r IH]; intros prev t x y Hx Hy; [discriminate|].
  simpl in Hx. cbn [ewm_from] in *.
  destruct t as [|t]; simpl in Hy |- *.
  - injection Hy as <-. destruct r as [|x1 r]; [discriminate|].
    simpl in Hx. injection Hx as <-. reflexivity.
  - apply (IH _ t x y Hx Hy).
Qed.

(** The average after [prev] stays between the bounds of the data. *)
Lemma ewm_from_bounds (a lo hi : Q) (xs : list Q) :
  0 < a -> a <= 1 ->
  forall prev, lo <= prev <= hi ->
  (forall x, In x xs -> lo <= x <= hi) ->
  forall y, In y (ewm_from a prev xs) -> lo <= y <= hi.
Proof.
  intros Ha0 Ha1. induction xs as [|x r IH]; intros prev Hprev Hxs y Hin;
    [destruct Hin|].
  cbn [ewm_from] in Hin.
  assert (lo <= (1 - a) * prev + a * x <= hi) as Hy.
  { destruct (Hxs x (or_introl eq_refl)) as [Hx1 Hx2].
    destruct Hprev as [Hp1 Hp2]. split; Lqa.nra. }
  destruct Hin as [<-|Hin]; [exact Hy|].
  apply (IH _ Hy); [|exact Hin]. intros z Hz. apply Hxs. now right.
Qed.

Lemma ewm_from_alpha_one (a : Q) (xs : list Q) :
  a == 1 -> forall prev, Forall2 Qeq (ewm_from a prev xs) xs.
Proof.
  intros Ha. induction xs as [|x r IH]; intros prev; cbn [ewm_from];
    constructor.
  - rewrite Ha. ring.
  - apply IH.
Qed.

(** X15. For every period [p >= 1], [calculate_ema] returns a series with
    the length and the index of the input that starts at the first price
    and then follows [ema[t+1] = (1 - alpha) * ema[t] + alpha * price[t+1]]
    with [alpha = 2 / (p + 1)]; for [p = 1] it is the input. *)
Theorem ema_recurrence (prices : Series Q) (p : Z) :
  (1 <= p)%Z ->
  exists ema,
    calculate_ema prices p = Ok ema /\
    List.length ema = List.length prices /\
    index ema = index prices /\
    (forall d x, nth_error prices 0 = Some (d, x) ->
                 nth_error ema 0 = Some (d, x)) /\
    (forall t d x d0 y,
       nth_error prices (S t) = Some (d, x) ->
       nth_error ema t = Some (d0, y) ->
       nth_error ema (S t)
       = Some (d, (1 - alpha_of p) * y + alpha_of p * x)) /\
    (p = 1%Z -> Forall2 Qeq (values ema) (values prices)).
Proof.
  intros Hp. unfold calculate_ema.
  assert ((p <? 1)%Z = false) as -> by (apply Z.ltb_ge; lia).
  set (v := values prices).
  assert (List.length (ewm_mean p v) = List.length (index prices)) as Hlen.
  { rewrite length_ewm_mean. unfold v, values, index.
    now rewrite !length_map. }
  exists (mkSeries (ewm_mean p v) (index prices)).
  split; [reflexivity|]. split.
  { unfold mkSeries. rewrite length_combine, Hlen.
    unfold index. rewrite length_map. lia. }
  split; [now apply index_mkSeries|].
  assert (forall t d x, nth_error prices t = Some (d, x) ->
            nth_error (index prices) t = Some d /\ nth_error v t = Some x)
    as Hnth.
  { intros t d x H. unfold index, v, values.
    now rewrite !nth_error_map, H. }
  assert (forall t d y, nth_error (mkSeries (ewm_mean p v) (index prices)) t
                        = Some (d, y) ->
            nth_error (ewm_mean p v) t = Some y) as Hema.
  { intros t d y H. unfold mkSeries in H. rewrite nth_error_combine in H.
    destruct (nth_error (index prices) t); [|discriminate].
    destruct (nth_error (ewm_mean p v) t); [|discriminate].
    now injection H as _ ->. }
  split; [|split].
  - intros d x H. destruct (Hnth _ _ _ H) as [Hd Hx].
    apply nth_error_mkSeries; [exact Hd|].
    destruct v as [|x0 r]; [discriminate|]. exact Hx.
  - intros t d x d0 y Hx Hy. destruct (Hnth _ _ _ Hx) as [Hd Hvx].
    apply Hema in Hy.
    apply nth_error_mkSeries; [exact Hd|].
    destruct v as [|x0 r]; [discriminate|].
    cbn [ewm_mean] in *. simpl in Hvx. fold (alpha_of p) in *.
    destruct t as [|t]; simpl in Hy |- *.
    + injection Hy as <-. destruct r as [|x1 r]; [discriminate|].
      simpl in Hvx. injection Hvx as <-. reflexivity.
    + apply (ewm_from_step _ _ _ _ _ _ Hvx Hy).
  - intros ->. rewrite (values_mkSeries _ _ Hlen).
    destruct v as [|x0 r]; [constructor|].
    cbn [ewm_mean]. constructor; [reflexivity|].
    apply ewm_from_alpha_one. reflexivity.
Qed.

Lemma ema_recurrence_witness :
  exists ema,
    calculate_ema [(0%Z, 1); (1%Z, 2); (2%Z, 3); (3%Z, 4); (4%Z, 5)] 3
    = Ok ema.
Proof.
  destruct (ema_recurrence
              [(0%Z, 1); (1%Z, 2); (2%Z, 3); (3%Z, 4); (4%Z, 5)] 3)
    as (ema & H & _).
  - discriminate.
  - exists ema. exact H.
Defined.

(** X16. The exponential moving average never leaves the range of the
    prices: for [p >= 1], bounds that hold for every price hold for every
    value of [calculate_ema]. *)
Theorem ema_within_price_range (prices ema : Series Q) (p : Z) (lo hi : Q) :
  (1 <= p)%Z ->
  calculate_ema prices p = Ok ema ->
  (forall d x, In (d, x) prices -> lo <= x <= hi) ->
  forall d y, In (d, y) ema -> lo <= y <= hi.
Proof.
  intros Hp Hema Hb d y Hin.
  unfold calculate_ema in Hema.
  destruct (p <? 1)%Z; [discriminate|]. injection Hema as <-.
  assert (In y (ewm_mean p (values prices))) as Hy.
  { unfold mkSeries in Hin. apply in_combine_r in Hin. exact Hin. }
  assert (forall x, In x (values prices) -> lo <= x <= hi) as Hv.
  { intros x Hx. unfold values in Hx.
    apply in_map_iff in Hx as ([d0 x0] & <- & Hx). now apply (Hb d0). }
  destruct (values prices) as [|x0 r]; [destruct Hy|].
  cbn [ewm_mean] in Hy. destruct Hy as [<-|Hy].
  - apply Hv. now left.
  - destruct (alpha_of_range p Hp) as [Ha0 Ha1].
    apply (ewm_from_bounds (alpha_of p) lo hi r Ha0 Ha1 x0); auto.
    + apply Hv. now left.
    + intros x Hx. apply Hv. now right.
Qed.

Lemma ema_within_price_range_witness :
  exists ema,
    calculate_ema [(0%Z, 1); (1%Z, 2); (2%Z, 3); (3%Z, 4); (4%Z, 5)] 3
    = Ok ema /\
    Forall (fun e : timestamp * Q => 1 <= snd e <= 5) ema.
Proof.
  destruct (calculate_ema
              [(0%Z, 1); (1%Z, 2); (2%Z, 3); (3%Z, 4); (4%Z, 5)] 3)
    as [ema|e] eqn:E; [|vm_compute in E; discriminate].
  exists ema. split; [reflexivity|].
  apply Forall_forall. intros [d y] Hin.
  apply (ema_within_price_range
           [(0%Z, 1); (1%Z, 2); (2%Z, 3); (3%Z, 4); (4%Z, 5)] ema 3 1 5
           ltac:(discriminate) E) with (d := d); [|exact Hin].
  intros d0 x Hx. simpl in Hx.
  repeat (destruct Hx as [Hx|Hx];
          [injection Hx as <- <-; split; discriminate|]).
  destruct Hx.
Defined.

(* ===================================================================== *)
(** ** More on the simple moving average *)
(* ===================================================================== *)

(** One place of the output of [calculate_sma]: the mean of the last
    [min (i + 1) p] prices. *)
Lemma calculate_sma_nth (prices sma : Series Q) (p : Z) (i : nat) d x :
  (1 <= p)%Z ->
  calculate_sma prices p = Ok sma ->
  nth_error prices i = Some (d, x) ->
  exists y,
    nth_error sma i = Some (d, y) /\
    y == Qsum (seg (i + 1 - Z.to_nat p) (i + 1) (values prices))
         / Qnat (Nat.min (i + 1) (Z.to_nat p)).
Proof.
  intros Hp Hsma Hnth. unfold calculate_sma in Hsma.
  assert ((p <? 1)%Z = false) as Hlt by (apply Z.ltb_ge; lia).
  rewrite Hlt in Hsma. injection Hsma as <-.
  set (v := values prices).
  assert (nth_error v i = Some x) as Hv
    by (unfold v, values; now rewrite nth_error_map, Hnth).
  assert (nth_error (index prices) i = Some d) as Hd
    by (unfold index; now rewrite nth_error_map, Hnth).
  destruct (roll_mean_nth (Z.to_nat p) v ltac:(lia) v 0%nat 0 0%nat
              eq_refl ltac:(reflexivity) eq_refl i x Hv) as (y & Hy & Ey).
  exists y. split; [now apply nth_error_mkSeries|exact Ey].
Qed.

Lemma calculate_sma_index (prices sma : Series Q) (p : Z) :
  calculate_sma prices p = Ok sma ->
  index sma = index prices /\ List.length sma = List.length prices.
Proof.
  unfold calculate_sma. destruct (p <? 1)%Z; [discriminate|].
  intros [= <-].
  assert (List.length (roll_mean (Z.to_nat p) (values prices) 0 0 0
                                 (values prices))
          = List.length (index prices)) as Hlen.
  { rewrite length_roll_mean. unfold values, index. now rewrite !length_map. }
  split; [now apply index_mkSeries|].
  unfold mkSeries. rewrite length_combine, Hlen.
  unfold index. rewrite length_map. lia.
Qed.

Lemma Qnat_S (n : nat) : Qnat (S n) == Qnat n + 1.
Proof.
  unfold Qnat. rewrite Nat2Z.inj_succ, <- Z.add_1_r, inject_Z_plus.
  reflexivity.
Qed.

Lemma Qsum_bounds (lo hi : Q) (xs : list Q) :
  (forall x, In x xs -> lo <= x <= hi) ->
  Qnat (List.length xs) * lo <= Qsum xs /\
  Qsum xs <= Qnat (List.length xs) * hi.
Proof.
  induction xs as [|x xs IH]; intros H.
  - cbn [List.length Qsum]. change (Qnat 0) with 0. rewrite !Qmult_0_l.
    split; apply Qle_refl.
  - destruct (H x (or_introl eq_refl)) as [H1 H2].
    destruct (IH (fun y Hy => H y (or_intror Hy))) as [I1 I2].
    cbn [List.length Qsum]. rewrite Qnat_S, !Qmult_plus_distr_l, !Qmult_1_l.
    split; Lqa.lra.
Qed.

Lemma seg_In (lo hi : nat) (xs : list Q) (x : Q) :
  In x (seg lo hi xs) -> In x xs.
Proof.
  unfold seg. intros H.
  rewrite <- (firstn_skipn lo xs). apply in_or_app. right.
  rewrite <- (firstn_skipn (hi - lo) (skipn lo xs)).
  apply in_or_app. now left.
Qed.

Lemma length_seg (lo hi : nat) (xs : list Q) :
  (hi <= List.length xs)%nat -> List.length (seg lo hi xs) = (hi - lo)%nat.
Proof. intros H. unfold seg. rewrite length_firstn, length_skipn. lia. Qed.

(** X17. The simple moving average never leaves the range of the prices:
    for [p >= 1], bounds that hold for every price hold for every value
    of [calculate_sma]; the average of a constant series is that
    constant. *)
Theorem sma_within_price_range (prices sma : Series Q) (p : Z) (lo hi : Q) :
  (1 <= p)%Z ->
  calculate_sma prices p = Ok sma ->
  (forall d x, In (d, x) prices -> lo <= x <= hi) ->
  forall d y, In (d, y) sma -> lo <= y <= hi.
Proof.
  intros Hp Hsma Hb d y Hin.
  destruct (calculate_sma_index _ _ _ Hsma) as [_ Hlen].
  apply In_nth_error in Hin as [i Hi].
  assert (i < List.length prices)%nat as Hlt
    by (rewrite <- Hlen; apply nth_error_Some; congruence).
  destruct (nth_error prices i) as [[d0 x]|] eqn:Hx;
    [|apply nth_error_None in Hx; lia].
  destruct (calculate_sma_nth _ _ _ _ _ _ Hp Hsma Hx) as (y' & Hy' & Ey).
  rewrite Hi in Hy'. injection Hy' as _ <-.
  set (w := Z.to_nat p) in *.
  set (s := seg (i + 1 - w) (i + 1) (values prices)) in *.
  assert (List.length s = Nat.min (i + 1) w) as Ls.
  { unfold s. rewrite length_seg; [lia|].
    unfold values. rewrite length_map. lia. }
  destruct (Qsum_bounds lo hi s) as [B1 B2].
  { intros z Hz. apply seg_In in Hz. unfold values in Hz.
    apply in_map_iff in Hz as ([d1 z1] & <- & Hz). now apply (Hb d1). }
  rewrite Ls in B1, B2.
  assert (0 < Qnat (Nat.min (i + 1) w)) as Hn.
  { unfold Qnat. change 0 with (inject_Z 0). rewrite <- Zlt_Qlt. lia. }
  rewrite Ey. split.
  - apply Qle_shift_div_l; [exact Hn|]. now rewrite Qmult_comm.
  - apply Qle_shift_div_r; [exact Hn|]. now rewrite Qmult_comm.
Qed.

Lemma sma_within_price_range_witness :
  exists sma,
    calculate_sma [(0%Z, 0); (1%Z, 0); (2%Z, 0)] 2 = Ok sma /\
    Forall (fun e : timestamp * Q => 0 <= snd e <= 0) sma.
Proof.
  destruct (calculate_sma [(0%Z, 0); (1%Z, 0); (2%Z, 0)] 2)
    as [sma|e] eqn:E; [|vm_compute in E; discriminate].
  exists sma. split; [reflexivity|].
  apply Forall_forall. intros [d y] Hin.
  apply (sma_within_price_range [(0%Z, 0); (1%Z, 0); (2%Z, 0)] sma 2 0 0
           ltac:(discriminate) E) with (d := d); [|exact Hin].
  intros d0 x Hx. simpl in Hx.
  repeat (destruct Hx as [Hx|Hx];
          [injection Hx as <- <-; split; discriminate|]).
  destruct Hx.
Defined.

(* ===================================================================== *)
(** ** More on the crossover signals *)
(* ===================================================================== *)

(** [generate_signals] returned: the series were aligned, the result
    keeps the index, and every place holds [signal_at] of the previous
    and the current difference. *)
Lemma generate_signals_nth (fast slow : Series Q) (signals : Series Z) :
  generate_signals fast slow = Ok signals ->
  aligned fast slow /\
  index signals = index fast /\
  List.length signals = List.length fast /\
  forall i d f d' s,
    nth_error fast i = Some (d, f) ->
    nth_error slow i = Some (d', s) ->
    nth_error signals i
    = Some (d, signal_at (match i with
                          | O => None
                          | S j => diff_at fast slow j
                          end) (f - s)).
Proof.
  unfold generate_signals.
  destruct (List.length fast =? List.length slow)%nat eqn:Hlen;
    [|discriminate].
  destruct (index_equals (index fast) (index slow)) eqn:Hidx;
    [|discriminate].
  cbn [negb]. intros [= <-].
  apply Nat.eqb_eq in Hlen. apply index_equals_eq in Hidx.
  assert (List.length
            (mask_set
               (mask_and
                  (map ge0 (shift1 (series_sub (values fast) (values slow))))
                  (map lt0 (series_sub (values fast) (values slow))))
               (-1)%Z
               (mask_set
                  (mask_and
                     (map le0
                          (shift1 (series_sub (values fast) (values slow))))
                     (map gt0 (series_sub (values fast) (values slow))))
                  1%Z (map (fun _ => 0%Z) (index fast))))
          = List.length (index fast)) as L.
  { unfold mask_set, mask_and, shift1, series_sub, index, values.
    repeat (rewrite ?length_map, ?length_combine, ?length_firstn;
            cbn [List.length]).
    lia. }
  split; [split; assumption|].
  split; [now apply index_mkSeries|].
  split.
  { unfold mkSeries. rewrite length_combine, L.
    unfold index. rewrite length_map. lia. }
  intros i d f d' s Hf Hs.
  apply (generate_signals_at fast slow i d f d' s Hlen Hf Hs).
Qed.

Lemma signal_at_zero (prev : option Q) (c : Q) :
  c == 0 -> signal_at prev c = 0%Z.
Proof.
  intros Hc. unfold signal_at.
  assert (lt0 c = false) as ->.
  { destruct (lt0 c) eqn:E; [|reflexivity].
    apply lt0_iff in E. rewrite Hc in E. discriminate. }
  assert (gt0 c = false) as ->.
  { destruct (gt0 c) eqn:E; [|reflexivity].
    apply gt0_iff in E. rewrite Hc in E. discriminate. }
  now rewrite !andb_false_r.
Qed.

(** Where the two averages agree, the signal is Hold. *)
Lemma generate_signals_hold (fast slow : Series Q) (signals : Series Z)
                            i d f d' s d0 z :
  generate_signals fast slow = Ok signals ->
  nth_error fast i = Some (d, f) ->
  nth_error slow i = Some (d', s) ->
  f == s ->
  nth_error signals i = Some (d0, z) -> z = 0%Z.
Proof.
  intros Hg Hf Hs E Hz.
  destruct (generate_signals_nth _ _ _ Hg) as (_ & _ & _ & Hnth).
  rewrite (Hnth i d f d' s Hf Hs) in Hz. injection Hz as _ <-.
  apply signal_at_zero. rewrite E. ring.
Qed.

(** Two moving averages of one price series are aligned with it and with
    each other, so the signals exist and are aligned with the prices. *)
Lemma sma_signals_aligned (prices fast slow : Series Q) (p q : Z) :
  calculate_sma prices p = Ok fast ->
  calculate_sma prices q = Ok slow ->
  exists signals,
    generate_signals fast slow = Ok signals /\
    aligned prices signals /\ aligned prices fast /\ aligned prices slow.
Proof.
  intros Hf Hs.
  destruct (calculate_sma_index _ _ _ Hf) as [If Lf].
  destruct (calculate_sma_index _ _ _ Hs) as [Is Ls].
  destruct (generate_signals fast slow) as [signals|e] eqn:Hg.
  - exists signals. split; [reflexivity|].
    destruct (generate_signals_nth _ _ _ Hg) as (_ & Ig & Lg & _).
    repeat split; congruence.
  - exfalso. unfold generate_signals in Hg.
    rewrite Lf, Ls, Nat.eqb_refl in Hg. cbn [negb] in Hg.
    rewrite If, Is in Hg.
    rewrite (proj2 (index_equals_eq _ _) eq_refl) in Hg. discriminate.
Qed.

(** X18. A crossover of two simple moving averages with periods [p] and
    [q] cannot signal before both windows are full: [generate_signals]
    returns a series aligned with the prices whose value is Hold at every
    place [i < min p q]; with [p = q] it is Hold everywhere. *)
Theorem sma_crossover_warm_up (prices fast slow : Series Q) (p q : Z) :
  (1 <= p)%Z -> (1 <= q)%Z ->
  calculate_sma prices p = Ok fast ->
  calculate_sma prices q = Ok slow ->
  exists signals,
    generate_signals fast slow = Ok signals /\
    aligned prices signals /\
    (forall i d z, nth_error signals i = Some (d, z) ->
                   (Z.of_nat i < Z.min p q)%Z -> z = 0%Z) /\
    (p = q -> forall d z, In (d, z) signals -> z = 0%Z).
Proof.
  intros Hp Hq Hf Hs.
  destruct (sma_signals_aligned _ _ _ _ _ Hf Hs)
    as (signals & Hg & Hal & [Lf _] & [Ls _]).
  exists signals. split; [exact Hg|]. split; [exact Hal|].
  assert (forall i d z, nth_error signals i = Some (d, z) ->
            exists d1 x, nth_error prices i = Some (d1, x)) as Hprice.
  { intros i d z H.
    assert (i < List.length prices)%nat as Hi.
    { destruct Hal as [-> _]. apply nth_error_Some. congruence. }
    destruct (nth_error prices i) as [[d1 x]|] eqn:E;
      [now exists d1, x|apply nth_error_None in E; lia]. }
  split.
  - intros i d z Hz Hi.
    destruct (Hprice _ _ _ Hz) as (d1 & x & Hx).
    destruct (calculate_sma_nth _ _ _ _ _ _ Hp Hf Hx) as (f & Hfi & Ef).
    destruct (calculate_sma_nth _ _ _ _ _ _ Hq Hs Hx) as (s & Hsi & Es).
    eapply generate_signals_hold; [exact Hg|exact Hfi|exact Hsi| |exact Hz].
    rewrite Ef, Es.
    replace (i + 1 - Z.to_nat p)%nat with 0%nat by lia.
    replace (i + 1 - Z.to_nat q)%nat with 0%nat by lia.
    replace (Nat.min (i + 1) (Z.to_nat p)) with (i + 1)%nat by lia.
    replace (Nat.min (i + 1) (Z.to_nat q)) with (i + 1)%nat by lia.
    reflexivity.
  - intros <- d z Hin. apply In_nth_error in Hin as [i Hz].
    destruct (Hprice _ _ _ Hz) as (d1 & x & Hx).
    assert (slow = fast) as -> by congruence.
    destruct (calculate_sma_nth _ _ _ _ _ _ Hp Hf Hx) as (f & Hfi & _).
    eapply generate_signals_hold; [exact Hg|exact Hfi|exact Hfi| |exact Hz].
    reflexivity.
Qed.

Lemma sma_crossover_warm_up_witness :
  exists fast slow signals,
    calculate_sma scenario_prices 2 = Ok fast /\
    calculate_sma scenario_prices 3 = Ok slow /\
    generate_signals fast slow = Ok signals /\
    aligned scenario_prices signals.
Proof.
  destruct (calculate_sma scenario_prices 2) as [fast|e] eqn:Ef;
    [|vm_compute in Ef; discriminate].
  destruct (calculate_sma scenario_prices 3) as [slow|e] eqn:Es;
    [|vm_compute in Es; discriminate].
  destruct (sma_crossover_warm_up scenario_prices fast slow 2 3
              ltac:(discriminate) ltac:(discriminate) Ef Es)
    as (signals & Hg & Hal & _).
  exists fast, slow, signals. repeat split; try assumption; apply Hal.
Defined.

Lemma Qle_bool_opp (a b : Q) : a == - b -> Qle_bool a 0 = Qle_bool 0 b.
Proof.
  intros E. destruct (Qle_bool a 0) eqn:H1; destruct (Qle_bool 0 b) eqn:H2;
    try reflexivity; exfalso.
  - apply Qle_bool_iff in H1.
    assert (0 <= b) as H by Lqa.lra. apply Qle_bool_iff in H. congruence.
  - apply Qle_bool_iff in H2.
    assert (a <= 0) as H by Lqa.lra. apply Qle_bool_iff in H. congruence.
Qed.

Lemma Qle_bool_opp' (a b : Q) : a == - b -> Qle_bool 0 a = Qle_bool b 0.
Proof.
  intros E. symmetry. apply Qle_bool_opp. rewrite E. ring.
Qed.

Lemma signal_at_opp (prev prev' : option Q) (c c' : Q) :
  match prev, prev' with
  | Some a, Some a' => a' == - a
  | None, None => True
  | _, _ => False
  end ->
  c' == - c ->
  signal_at prev' c' = (- signal_at prev c)%Z.
Proof.
  intros Hp Hc. unfold signal_at, lt0, gt0.
  rewrite (Qle_bool_opp c' c Hc), (Qle_bool_opp' c' c Hc).
  destruct prev as [a|], prev' as [a'|]; try contradiction; cbn [ge0 le0].
  - rewrite (Qle_bool_opp a' a Hp), (Qle_bool_opp' a' a Hp).
    destruct (Qle_bool a 0) eqn:A1, (Qle_bool 0 a) eqn:A2,
             (Qle_bool c 0) eqn:C1, (Qle_bool 0 c) eqn:C2;
      try reflexivity; exfalso;
      repeat match goal with
             | H : Qle_bool _ _ = true |- _ => apply Qle_bool_iff in H
             | H : Qle_bool ?x ?y = false |- _ =>
                 assert (~ x <= y)
                   by (intros G; apply Qle_bool_iff in G; congruence);
                 clear H
             end; Lqa.lra.
  - reflexivity.
Qed.

(** X19. Exchanging the two averages exchanges Buy and Sell: the signals
    of (slow, fast) are the signals of (fast, slow) with every value
    negated, on the same index. *)
Theorem generate_signals_swap (fast slow : Series Q) (signals : Series Z) :
  generate_signals fast slow = Ok signals ->
  generate_signals slow fast = Ok (opposite signals).
Proof.
  intros Hg.
  destruct (generate_signals_nth _ _ _ Hg) as ([Hlen Hidx] & Ig & Lg & Hnth).
  destruct (generate_signals slow fast) as [swapped|e] eqn:Hs.
  - f_equal.
    destruct (generate_signals_nth _ _ _ Hs) as (_ & Is & Ls & Hnth').
    apply nth_error_ext. intros i. unfold opposite. rewrite nth_error_map.
    destruct (nth_error fast i) as [[d f]|] eqn:Ef.
    + destruct (nth_error slow i) as [[d' s]|] eqn:Es;
        [|apply nth_error_None in Es;
          assert (i < List.length fast)%nat
            by (apply nth_error_Some; congruence); lia].
      assert (d' = d) as ->.
      { assert (nth_error (index fast) i = Some d) as H1
          by (unfold index; now rewrite nth_error_map, Ef).
        assert (nth_error (index slow) i = Some d') as H2
          by (unfold index; now rewrite nth_error_map, Es).
        congruence. }
      rewrite (Hnth' i d s d f Es Ef), (Hnth i d f d s Ef Es).
      cbn [option_map fst snd]. f_equal. f_equal.
      apply signal_at_opp; [|ring].
      destruct i as [|j]; [exact I|].
      unfold diff_at.
      destruct (nth_error (values fast) j) as [fj|] eqn:Fj;
        destruct (nth_error (values slow) j) as [sj|] eqn:Sj;
        try exact I.
      ring.
    + apply nth_error_None in Ef.
      assert (nth_error signals i = None) as ->
        by (apply nth_error_None; lia).
      apply nth_error_None. lia.
  - exfalso. unfold generate_signals in Hs.
    rewrite <- Hlen, Nat.eqb_refl in Hs. cbn [negb] in Hs.
    rewrite <- Hidx in Hs.
    rewrite (proj2 (index_equals_eq _ _) eq_refl) in Hs. discriminate.
Qed.

Lemma generate_signals_swap_witness :
  generate_signals [(0%Z, 2); (1%Z, 2); (2%Z, 2); (3%Z, 2); (4%Z, 2)]
                   [(0%Z, 1); (1%Z, 2); (2%Z, 3); (3%Z, 2); (4%Z, 1)]
  = Ok [(0, 0); (1, 0); (2, -1); (3, 0); (4, 1)]%Z.
Proof.
  apply (generate_signals_swap
           [(0%Z, 1); (1%Z, 2); (2%Z, 3); (3%Z, 2); (4%Z, 1)]
           [(0%Z, 2); (1%Z, 2); (2%Z, 2); (3%Z, 2); (4%Z, 2)]
           [(0, 0); (1, 0); (2, 1); (3, 0); (4, -1)]%Z).
  reflexivity.
Defined.

(** X20. A signal is never repeated at the next place: after a Buy the
    next value is not a Buy, after a Sell it is not a Sell.  (It may be
    repeated later without the opposite signal in between.) *)
Theorem no_repeated_signal (fast slow : Series Q) (signals : Series Z)
                           (i : nat) (d d' : timestamp) (z z' : Z) :
  generate_signals fast slow = Ok signals ->
  nth_error signals i = Some (d, z) ->
  nth_error signals (S i) = Some (d', z') ->
  z <> 0%Z -> z' <> z.
Proof.
  intros Hg Hz Hz' Hnz.
  destruct (generate_signals_nth _ _ _ Hg) as ([Hlen _] & _ & Lg & Hnth).
  assert (S i < List.length fast)%nat as Hi
    by (rewrite <- Lg; apply nth_error_Some; congruence).
  destruct (nth_error fast i) as [[d1 f]|] eqn:Ef;
    [|apply nth_error_None in Ef; lia].
  destruct (nth_error slow i) as [[d2 s]|] eqn:Es;
    [|apply nth_error_None in Es; lia].
  destruct (nth_error fast (S i)) as [[d3 f']|] eqn:Ef';
    [|apply nth_error_None in Ef'; lia].
  destruct (nth_error slow (S i)) as [[d4 s']|] eqn:Es';
    [|apply nth_error_None in Es'; lia].
  rewrite (Hnth i d1 f d2 s Ef Es) in Hz. injection Hz as _ <-.
  rewrite (Hnth (S i) d3 f' d4 s' Ef' Es') in Hz'. injection Hz' as _ <-.
  assert (diff_at fast slow i = Some (f - s)) as ->.
  { unfold diff_at, values. now rewrite !nth_error_map, Ef, Es. }
  revert Hnz. unfold signal_at. cbn [ge0 le0].
  set (prev := match i with O => None | S j => diff_at fast slow j end).
  destruct (ge0 prev && lt0 (f - s)) eqn:B1.
  - apply andb_true_iff in B1 as [_ B1]. apply lt0_iff in B1. intros _.
    assert (Qle_bool 0 (f - s) = false) as ->.
    { destruct (Qle_bool 0 (f - s)) eqn:E; [|reflexivity].
      apply Qle_bool_iff in E. Lqa.lra. }
    cbn [andb]. destruct (Qle_bool (f - s) 0 && gt0 (f' - s')); discriminate.
  - destruct (le0 prev && gt0 (f - s)) eqn:B2; [|congruence].
    apply andb_true_iff in B2 as [_ B2]. apply gt0_iff in B2. intros _.
    assert (Qle_bool (f - s) 0 = false) as ->.
    { destruct (Qle_bool (f - s) 0) eqn:E; [|reflexivity].
      apply Qle_bool_iff in E. Lqa.lra. }
    cbn [andb]. destruct (Qle_bool 0 (f - s) && lt0 (f' - s')); discriminate.
Qed.

Lemma no_repeated_signal_witness : (0 <> 1)%Z.
Proof.
  apply (no_repeated_signal
           [(0%Z, 1); (1%Z, 2); (2%Z, 3); (3%Z, 2); (4%Z, 1)]
           [(0%Z, 2); (1%Z, 2); (2%Z, 2); (3%Z, 2); (4%Z, 2)]
           [(0, 0); (1, 0); (2, 1); (3, 0); (4, -1)]%Z
           2%nat 2%Z 3%Z 1%Z 0%Z); try reflexivity.
  discriminate.
Defined.

(* ===================================================================== *)
(** ** The strategy end to end *)
(* ===================================================================== *)

Lemma generate_signals_same (s : Series Q) (signals : Series Z) :
  generate_signals s s = Ok signals ->
  forall d z, In (d, z) signals -> z = 0%Z.
Proof.
  intros Hg d z Hin. apply In_nth_error in Hin as [i Hz].
  destruct (generate_signals_nth _ _ _ Hg) as (_ & _ & Lg & _).
  assert (i < List.length s)%nat as Hi
    by (rewrite <- Lg; apply nth_error_Some; congruence).
  destruct (nth_error s i) as [[d1 x]|] eqn:Ex;
    [|apply nth_error_None in Ex; lia].
  eapply generate_signals_hold; [exact Hg|exact Ex|exact Ex| |exact Hz].
  reflexivity.
Qed.

(** X21. The pipeline of the integration test cannot fail on sound data:
    for prices with unique labels that are all strictly positive and
    periods [p, q >= 1], both moving averages, the signals and the run
    return, and the run records one value per price.  With [p = q] the
    run makes no trade, so on a simulator with an empty log
    [calculate_metrics] then fails as not ready. *)
Theorem sma_strategy_runs (b : Backtester) (prices : Series Q) (p q : Z) :
  (1 <= p)%Z -> (1 <= q)%Z ->
  NoDup (index prices) ->
  (forall d x, In (d, x) prices -> 0 < x) ->
  exists fast slow signals r b',
    calculate_sma prices p = Ok fast /\
    calculate_sma prices q = Ok slow /\
    generate_signals fast slow = Ok signals /\
    run prices signals b = (Ok r, b') /\
    List.length (r_portfolio_value r) = List.length prices /\
    (p = q ->
     r_trades r = trades b /\
     (trades b = [] ->
      forall rf,
        calculate_metrics rf b' = (Raise (ValueError msg_not_run), b'))).
Proof.
  intros Hp Hq Hnd Hpos.
  destruct (calculate_sma prices p) as [fast|e] eqn:Hf;
    [|unfold calculate_sma in Hf;
      replace (p <? 1)%Z with false in Hf by (symmetry; apply Z.ltb_ge; lia);
      discriminate].
  destruct (calculate_sma prices q) as [slow|e] eqn:Hs;
    [|unfold calculate_sma in Hs;
      replace (q <? 1)%Z with false in Hs by (symmetry; apply Z.ltb_ge; lia);
      discriminate].
  destruct (sma_signals_aligned _ _ _ _ _ Hf Hs) as (signals & Hg & Hal & _).
  destruct (loop_total signals prices (init_locals (initial_capital b)) b)
    as (lf & bf & Hloop).
  { intros d x Hin. split.
    - apply (aligned_loc prices signals Hal Hnd d x Hin).
    - apply Qpos_nonzero, (Hpos d x Hin). }
  assert (run prices signals b = finish_run prices lf bf) as Hrun
    by (rewrite (run_aligned _ _ _ Hal), Hloop; reflexivity).
  exists fast, slow, signals. eexists. eexists.
  split; [reflexivity|]. split; [reflexivity|]. split; [exact Hg|].
  split; [exact Hrun|].
  destruct (loop_outputs _ _ _ _ _ _ Hloop) as (pv & ps & Hpv & _ & Lpv & _).
  simpl in Hpv. subst pv.
  split.
  { cbn [r_portfolio_value]. unfold mkSeries.
    rewrite length_combine. unfold index. rewrite length_map. lia. }
  intros <-.
  assert (slow = fast) as -> by congruence.
  assert (forall d s, In (d, s) signals -> s <> 1%Z) as Hnobuy.
  { intros d s Hin ->.
    pose proof (generate_signals_same _ _ Hg d 1%Z Hin). discriminate. }
  destruct (loop_without_buy signals prices Hnobuy _ _ _ _ Hloop
              eq_refl eq_refl) as (-> & _).
  cbn [r_trades]. split; [reflexivity|].
  intros Hempty rf. unfold calculate_metrics, bind, get. simpl.
  now rewrite Hempty.
Qed.

Lemma sma_strategy_runs_witness :
  exists fast slow signals r b',
    calculate_sma scenario_prices 2 = Ok fast /\
    calculate_sma scenario_prices 3 = Ok slow /\
    generate_signals fast slow = Ok signals /\
    run scenario_prices signals (fresh 100) = (Ok r, b').
Proof.
  destruct (sma_strategy_runs (fresh 100) scenario_prices 2 3)
    as (fast & slow & signals & r & b' & H1 & H2 & H3 & H4 & _).
  - discriminate.
  - discriminate.
  - repeat constructor; simpl; intuition discriminate.
  - intros d x Hin. each_item Hin.
  - exists fast, slow, signals, r, b'. repeat split; assumption.
Defined.

(* ===================================================================== *)
(** ** Which round trips win *)
(* ===================================================================== *)

Lemma tick_case_sound_trades d p l b l1 b1 :
  tick_case d p l b l1 b1 -> 0 < p ->
  account_ok l /\ whole (shares l) /\ Forall sound_trade (trades b) ->
  account_ok l1 /\ whole (shares l1) /\ Forall sound_trade (trades b1).
Proof.
  intros Hc Hp (Hok & Hw & Hall).
  split; [apply (tick_case_account_ok _ _ _ _ _ _ Hc Hp Hok)|].
  split; [apply (tick_case_whole _ _ _ _ _ _ Hc Hw)|].
  destruct Hok as [_ Hcash Hsh _].
  destruct Hc; simpl; [| |exact Hall]; apply Forall_app; (split; [exact Hall|]);
    (constructor; [|constructor]); split; simpl.
  - now apply floordiv_nonneg.
  - exists (Qfloor (cash l / p)). reflexivity.
  - exact Hsh.
  - exact Hw.
Qed.

Lemma is_win_sold_higher (pr : Trade * Trade) :
  0 <= t_shares (fst pr) -> is_win pr = sold_higher pr.
Proof.
  intros Hs. apply Bool.eq_true_iff_eq.
  unfold is_win, sold_higher, profit_of.
  rewrite andb_true_iff, !gt0_iff. split.
  - intros H. split.
    + apply Qnot_le_lt. intros Hle.
      assert (t_shares (fst pr) == 0) as E by Lqa.lra.
      rewrite E, Qmult_0_r in H. discriminate.
    + apply Qnot_le_lt. intros Hle.
      assert ((t_price (snd pr) - t_price (fst pr)) * t_shares (fst pr) <= 0)
        by Lqa.nra.
      Lqa.lra.
  - intros [H1 H2]. Lqa.nra.
Qed.

Lemma pairs_In (log : list Trade) (t1 t2 : Trade) :
  In (t1, t2) (pairs log) -> In t1 log /\ In t2 log.
Proof.
  induction log as [| x | x y rest IH] using list_pair_ind.
  - intros [].
  - intros [].
  - cbn [pairs]. intros [[= <- <-]|Hin].
    + split; [now left|right; now left].
    + destruct (IH Hin). split; right; right; assumption.
Qed.

(** X22. In a fresh run over strictly positive prices every trade is of a
    whole, non-negative number of shares, and a round trip is a win
    exactly when it held some shares and sold above the buy price.  When
    the log is not empty, [calculate_metrics] returns for every rate that
    is not negative: its [total_trades] is the number of pairs of the
    log, and its [win_rate] is the number of pairs that held some shares
    and sold above the buy price over the number of pairs.  So a round
    trip of 0 shares (a Buy without cash) is counted among the trades but
    never as a win. *)
Theorem winning_round_trips (capital : Q) (b : Backtester)
                            (prices : Series Q) (signals : Series Z)
                            (r : Result) (b' : Backtester) :
  init capital = Ok b ->
  run prices signals b = (Ok r, b') ->
  (forall d p, In (d, p) prices -> 0 < p) ->
  Forall sound_trade (r_trades r) /\
  (forall pr, In pr (round_trips (r_trades r)) ->
     (is_win pr = true <->
      0 < t_shares (fst pr) /\ t_price (fst pr) < t_price (snd pr)) /\
     (t_shares (fst pr) == 0 -> is_win pr = false)) /\
  (r_trades r <> [] -> forall rf, 0 <= rf ->
   exists m,
     calculate_metrics rf b' = (Ok m, b') /\
     total_trades m = Z.of_nat (List.length (pairs (r_trades r))) /\
     win_rate m
     = win_rate_of
         (Z.of_nat (List.length (filter sold_higher (pairs (r_trades r)))))
         (Z.of_nat (List.length (pairs (r_trades r))))).
Proof.
  intros Hinit Hrun Hpos.
  pose proof Hrun as Hrun0.
  assert (b = fresh capital /\ 0 < capital) as [-> Hcap].
  { unfold init in Hinit. destruct (Qle_bool capital 0) eqn:E; [discriminate|].
    injection Hinit as <-. split; [reflexivity|].
    apply Qnot_le_lt. intros H. apply Qle_bool_iff in H. congruence. }
  destruct (run_ok_inv _ _ _ _ _ Hrun)
    as (_ & lf & bf & Hloop & _ & _ & Er & _).
  assert (r_trades r = trades bf) as Et by (rewrite Er; reflexivity).
  clear Er Hrun. rewrite Et.
  assert (account_ok lf /\ whole (shares lf) /\ Forall sound_trade (trades bf))
    as (_ & _ & Hall).
  { apply (loop_invariant
             (fun l b0 => account_ok l /\ whole (shares l)
                          /\ Forall sound_trade (trades b0))
             signals prices) with (l := init_locals capital)
                                 (b := fresh capital).
    - intros d p l b0 l1 b1 Hin HP Hc.
      destruct (tick_case_sound_trades _ _ _ _ _ _ Hc (Hpos d p Hin) HP)
        as (A & B & C).
      split; [now apply record_tick_account_ok|]. split; assumption.
    - exact Hloop.
    - split; [apply init_locals_ok; Lqa.lra|].
      split; [exists 0%Z; reflexivity|constructor]. }
  split; [exact Hall|].
  assert (forall pr, In pr (pairs (trades bf)) -> 0 <= t_shares (fst pr))
    as Hshares.
  { intros [t1 t2] Hin. apply pairs_In in Hin as [Hin _].
    apply (proj1 (Forall_forall _ _) Hall t1 Hin). }
  split; [|].
  2:{ intros Hlog rf Hrf.
      assert (prices <> []) as Hne.
      { intros ->. cbn [loop] in Hloop. unfold ret in Hloop.
        injection Hloop as _ <-. apply Hlog. reflexivity. }
      rewrite <- Et in Hlog.
      destruct (metrics_after_run _ _ _ _ _ rf Hrun0 Hne Hlog Hrf)
        as (m & Hm & Ht & Hw & _).
      rewrite Et in Ht, Hw. rewrite count_trades_spec in Ht, Hw.
      cbn [fst snd] in Ht, Hw.
      assert (round_trips (trades bf) = pairs (trades bf)) as Hrt.
      { apply closed_pairs_round_trips.
        apply (ledger_ok_closed capital lf bf).
        apply (loop_ledger_ok capital _ _ _ _ _ _ Hloop).
        left. simpl. repeat split; try reflexivity; try constructor.
        unfold realized. simpl. ring. }
      assert (winning_trips (trades bf)
              = filter sold_higher (pairs (trades bf))) as Hwt.
      { unfold winning_trips. rewrite Hrt. apply filter_ext_in.
        intros pr Hin. apply is_win_sold_higher, Hshares, Hin. }
      rewrite Hrt in Ht, Hw. rewrite Hwt in Hw.
      exists m. split; [exact Hm|]. split; [exact Ht|exact Hw]. }
  intros [t1 t2] Hin. cbn [fst snd].
  assert (0 <= t_shares t1) as Hs.
  { unfold round_trips in Hin. apply filter_In in Hin as [Hin _].
    apply (Hshares (t1, t2) Hin). }
  unfold is_win, profit_of. cbn [fst snd]. split.
  - rewrite gt0_iff. split.
    + intros H. split.
      * apply Qnot_le_lt. intros Hle.
        assert (t_shares t1 == 0) as E by Lqa.lra.
        rewrite E, Qmult_0_r in H. discriminate.
      * apply Qnot_le_lt. intros Hle.
        assert ((t_price t2 - t_price t1) * t_shares t1 <= 0) by Lqa.nra.
        Lqa.lra.
    + intros [H1 H2]. Lqa.nra.
  - intros E. destruct (gt0 _) eqn:G; [|reflexivity].
    apply gt0_iff in G. rewrite E, Qmult_0_r in G. discriminate.
Qed.

Lemma winning_round_trips_witness :
  Forall sound_trade scenario_trades /\
  exists m,
    calculate_metrics 0 scenario_after = (Ok m, scenario_after) /\
    total_trades m = 1%Z /\ win_rate m = 1.
Proof.
  destruct (winning_round_trips 100 (fresh 100) scenario_prices
              scenario_signals scenario_result scenario_after eq_refl
              scenario_run_eq) as (H & _ & Hm).
  - intros d p Hin. each_item Hin.
  - split; [exact H|].
    apply (Hm ltac:(discriminate) 0). discriminate.
Defined.
